(** * html_parse: tree builder, traversal and filter of [html_parse.py]

    A shallow embedding of [src/html_parse.py].  Python objects live in a
    store indexed by object identity; a reference is an index into the
    store, or [None].  Every handler of [HtmlParser] is a function on the
    parser state that returns a [result]: a new state, a raised exception,
    or divergence of one of the source's [while] loops. *)

From Stdlib Require Import ZArith String Ascii Lia.
From stdpp Require Import base option list gmap.

Set Default Proof Using "Type".

(** ** Python values *)

(** A Python [str] is a sequence of Unicode code points. *)
Abbreviation pystr := (list Z).

Definition ord (a : ascii) : Z := Z.of_N (N_of_ascii a).

(** An ASCII literal as a [str]. *)
Fixpoint str (s : string) : pystr :=
  match s with
  | EmptyString => []
  | String a r => ord a :: str r
  end.

(** Object identity: the index of the object in the store. *)
Abbreviation node_id := nat.

(** The exception classes the source names or can meet. *)
Inductive exn :=
  | KeyError
  | ValueError
  | ArithmeticError
  | OverflowError
  | AttributeError.

Global Instance exn_eq_dec : EqDecision exn.
Proof. solve_decision. Defined.

(** [isinstance(e, cls)] on exceptions: [OverflowError] derives from
    [ArithmeticError]. *)
Definition exn_isinstance (e cls : exn) : bool :=
  match e, cls with
  | OverflowError, ArithmeticError => true
  | _, _ => bool_decide (e = cls)
  end.

Inductive result (A : Type) :=
  | Ok (a : A)
  | Raise (e : exn)
  | Diverge.
Global Arguments Ok {A} a.
Global Arguments Raise {A} e.
Global Arguments Diverge {A}.

Global Instance result_ret : MRet result := fun A a => Ok a.
Global Instance result_bind : MBind result := fun A B f m =>
  match m with
  | Ok a => f a
  | Raise e => Raise e
  | Diverge => Diverge
  end.

(** [try: body  except classes: handler]. *)
Definition try_except {A} (body : result A) (classes : list exn) (handler : A)
  : result A :=
  match body with
  | Raise e => if existsb (exn_isinstance e) classes then Ok handler else Raise e
  | r => r
  end.

(** ** Node model (lines 24-52) *)

Inductive node_kind :=
  | DocHtmlNode (decl : list pystr) (childs : list node_id)
  | TagHtmlNode (name : pystr) (attrs : gmap pystr pystr) (childs : list node_id)
  | DataHtmlNode (data : pystr).

(** [HtmlNode]: the base class holds the parent reference.  The reference is
    weak in the source; the document node owns every node through the
    [childs] lists and is itself held by the parser, so a parent is alive
    whenever its child is and [get_parent] reads the reference back. *)
Record HtmlNode := mkNode {
  _parent_ref : option node_id;
  kind : node_kind
}.

Definition get_parent (self : HtmlNode) : option node_id := _parent_ref self.

Definition is_container (nd : HtmlNode) : bool :=
  match kind nd with
  | DocHtmlNode _ _ | TagHtmlNode _ _ _ => true
  | DataHtmlNode _ => false
  end.

Definition is_doc (nd : HtmlNode) : bool :=
  match kind nd with DocHtmlNode _ _ => true | _ => false end.

Definition is_data (nd : HtmlNode) : bool :=
  match kind nd with DataHtmlNode _ => true | _ => false end.

(** [node.childs] of a Document or Element node. *)
Definition childs (nd : HtmlNode) : list node_id :=
  match kind nd with
  | DocHtmlNode _ ch | TagHtmlNode _ _ ch => ch
  | DataHtmlNode _ => []
  end.

(** [node.childs.append(c)]. *)
Definition childs_append (c : node_id) (nd : HtmlNode) : HtmlNode :=
  match kind nd with
  | DocHtmlNode d ch => mkNode (_parent_ref nd) (DocHtmlNode d (ch ++ [c]))
  | TagHtmlNode n a ch => mkNode (_parent_ref nd) (TagHtmlNode n a (ch ++ [c]))
  | DataHtmlNode _ => nd
  end.

(** [node.data += s]. *)
Definition data_append (s : pystr) (nd : HtmlNode) : HtmlNode :=
  match kind nd with
  | DataHtmlNode d => mkNode (_parent_ref nd) (DataHtmlNode (d ++ s))
  | _ => nd
  end.

(** [node.decl.append(s)]. *)
Definition decl_append (s : pystr) (nd : HtmlNode) : HtmlNode :=
  match kind nd with
  | DocHtmlNode d ch => mkNode (_parent_ref nd) (DocHtmlNode (d ++ [s]) ch)
  | _ => nd
  end.

(** [d.update(pairs)] on a dict: later pairs overwrite earlier ones. *)
Definition dict_update (d : gmap pystr pystr) (pairs : list (pystr * pystr))
  : gmap pystr pystr :=
  foldl (fun m kv => <[kv.1 := kv.2]> m) d pairs.

(** The store, and what a reference points at ([None] for Python's [None]). *)
Definition deref (h : list HtmlNode) (r : option node_id) : option HtmlNode :=
  i ← r; h !! i.

(** The children of the node behind an identity; a Text node has none. *)
Definition childs_of (h : list HtmlNode) (i : node_id) : list node_id :=
  from_option childs [] (h !! i).

(** ** Platform data *)

(** What the handlers take from the Python runtime: the table
    [html.entities.name2codepoint], and the Unicode character database as
    [int] consults it for code points from 127 on. *)
Class Platform := {
  name2codepoint : gmap pystr Z;
  Py_UNICODE_ISSPACE : Z → bool;
  Py_UNICODE_TODECIMAL : Z → option Z
}.

(** ** The builtins [chr] and [int] *)

Open Scope Z_scope.

(** [chr(code)]: the argument is converted to a C int first. *)
Definition chr (code : Z) : result pystr :=
  if bool_decide (code < - 2 ^ 31 ∨ 2 ^ 31 - 1 < code) then Raise OverflowError
  else if bool_decide (0 ≤ code ≤ 1114111) then Ok [code]
  else Raise ValueError.

(** ASCII white space as [int] skips it: tab, newline, vertical tab, form
    feed, carriage return, space. *)
Definition Py_ISSPACE (c : Z) : bool :=
  bool_decide (9 ≤ c ≤ 13) || bool_decide (c = 32).

(** Value of an ASCII digit or letter in bases up to 36. *)
Definition digit_value (c : Z) : option Z :=
  if bool_decide (48 ≤ c ≤ 57) then Some (c - 48)
  else if bool_decide (97 ≤ c ≤ 122) then Some (c - 97 + 10)
  else if bool_decide (65 ≤ c ≤ 90) then Some (c - 65 + 10)
  else None.

(** The digit run of an integer literal: digits below [base] with single
    underscores between them.  Returns the number of digits, the value and
    the text left over; [None] on a doubled or trailing underscore. *)
Fixpoint scan_digits (base : Z) (s : pystr) (prev_underscore : bool)
    (digits : nat) (acc : Z) : option (nat * Z * pystr) :=
  match s with
  | [] => if prev_underscore then None else Some (digits, acc, [])
  | c :: r =>
    if bool_decide (c = 95) then
      if prev_underscore then None
      else scan_digits base r true digits acc
    else
      match digit_value c with
      | Some d =>
        if bool_decide (d < base)
        then scan_digits base r false (S digits) (acc * base + d)
        else if prev_underscore then None else Some (digits, acc, s)
      | None => if prev_underscore then None else Some (digits, acc, s)
      end
  end.

Fixpoint skip_space (s : pystr) : pystr :=
  match s with
  | c :: r => if Py_ISSPACE c then skip_space r else s
  | [] => []
  end.

Section builtins.
Context {P : Platform}.

(** Before parsing, [int] maps Unicode white space to a space, Unicode
    decimal digits to ASCII digits, and any other code point from 127 on
    to a character no literal contains. *)
Definition to_ascii_digit (c : Z) : Z :=
  if bool_decide (c < 127) then c
  else if Py_UNICODE_ISSPACE c then 32
  else match Py_UNICODE_TODECIMAL c with
       | Some d => 48 + d
       | None => 63
       end.

(** [int(s, base)] for [base] 10 and 16, as CPython reads a [str] from
    version 3.6 on: white space, an optional sign, for base 16 an optional
    [0x] or [0X] (one underscore may follow it), the digit run, white
    space.  [None] stands for [ValueError].  Later versions also refuse,
    with [ValueError], a decimal number of several thousand digits; such a
    number is no code point, and the handlers fall back on it either
    way. *)
Definition int_parse (s : pystr) (base : Z) : option Z :=
  let s0 := skip_space (to_ascii_digit <$> s) in
  let '(sign, s1) :=
    match s0 with
    | c :: r => if bool_decide (c = 43) then (1, r)
                else if bool_decide (c = 45) then (-1, r)
                else (1, s0)
    | [] => (1, s0)
    end in
  let s2 :=
    match s1 with
    | c0 :: c1 :: r =>
      if bool_decide (base = 16) && bool_decide (c0 = 48)
         && (bool_decide (c1 = 120) || bool_decide (c1 = 88))
      then match r with
           | c2 :: r' => if bool_decide (c2 = 95) then r' else r
           | [] => r
           end
      else s1
    | _ => s1
    end in
  match s2 with
  | c :: _ => if bool_decide (c = 95) then None else
    '(digits, v, rest) ← scan_digits base s2 false 0%nat 0;
    if bool_decide (digits = 0%nat) then None
    else match skip_space rest with
         | [] => Some (sign * v)
         | _ :: _ => None
         end
  | [] => None
  end.

(** [int(s, base)] as the handlers call it. *)
Definition int (s : pystr) (base : Z) : result Z :=
  match int_parse s base with
  | Some v => Ok v
  | None => Raise ValueError
  end.

(** [d[key]] on the entity table. *)
Definition name2codepoint_getitem (name : pystr) : result Z :=
  match name2codepoint !! name with
  | Some code => Ok code
  | None => Raise KeyError
  end.
End builtins.

Close Scope Z_scope.


(** ** The parser state (lines 54-76) *)

(** [HtmlParser]: the two attributes of the object, and the store its nodes
    live in. *)
Record HtmlParser := mkParser {
  store : list HtmlNode;
  _doc_node : node_id;
  _curr_node : option node_id
}.

(** [HtmlParser.__init__]. *)
Definition HtmlParser_init : HtmlParser :=
  {| store := [mkNode None (DocHtmlNode [] [])];
     _doc_node := 0;
     _curr_node := Some 0 |}.

Definition get_node (self : HtmlParser) : node_id := _doc_node self.

(** The loop of lines 79-82, repeated at lines 106-109: climb from the
    cursor to the first Document or Element node.  Calling [get_parent] on
    [None] raises [AttributeError]. *)
Fixpoint parent_node_loop (fuel : nat) (h : list HtmlNode)
    (parent_node : option node_id) : result node_id :=
  match fuel with
  | 0 => Diverge
  | S fuel =>
    match parent_node with
    | None => Raise AttributeError
    | Some i =>
      match h !! i with
      | None => Raise AttributeError
      | Some nd =>
        if is_container nd then Ok i
        else parent_node_loop fuel h (get_parent nd)
      end
    end
  end.

(** The fuel of the two loops that climb the parent links: one unit per
    node of the store, and one.  A loop that ends with some fuel ends with
    this one ([parent_node_loop_fuel_enough],
    [closing_node_loop_fuel_enough] below), so that [Diverge] is the loop
    that goes round a cycle of parent links for ever. *)
Definition loop_fuel (self : HtmlParser) : nat := S (length (store self)).

(** Lines 78-88. *)
Definition _starttag_handle (tag : pystr) (attrs : list (pystr * pystr))
    (self : HtmlParser) : result HtmlParser :=
  parent_node ← parent_node_loop (loop_fuel self) (store self) (_curr_node self);
  let new_node := length (store self) in
  let node := mkNode (Some parent_node) (TagHtmlNode tag (dict_update ∅ attrs) []) in
  Ok {| store := alter (childs_append new_node) parent_node (store self) ++ [node];
        _doc_node := _doc_node self;
        _curr_node := Some new_node |}.

(** The loop of lines 93-99: [Ok (Some r)] when an Element named [tag] was
    met and the cursor becomes [r]; [Ok None] when the Document node was
    reached. *)
Fixpoint closing_node_loop (fuel : nat) (h : list HtmlNode) (tag : pystr)
    (closing_node : option node_id) : result (option (option node_id)) :=
  match fuel with
  | 0 => Diverge
  | S fuel =>
    match closing_node with
    | None => Raise AttributeError
    | Some i =>
      match h !! i with
      | None => Raise AttributeError
      | Some nd =>
        match kind nd with
        | DocHtmlNode _ _ => Ok None
        | TagHtmlNode name _ _ =>
          if bool_decide (name = tag) then Ok (Some (get_parent nd))
          else closing_node_loop fuel h tag (get_parent nd)
        | DataHtmlNode _ => closing_node_loop fuel h tag (get_parent nd)
        end
      end
    end
  end.

(** Lines 90-99. *)
Definition _endtag_handle (tag : pystr) (self : HtmlParser) : result HtmlParser :=
  found ← closing_node_loop (loop_fuel self) (store self) tag (_curr_node self);
  match found with
  | Some r => Ok {| store := store self; _doc_node := _doc_node self; _curr_node := r |}
  | None => Ok self
  end.

(** Lines 101-113. *)
Definition _data_handle (data : pystr) (self : HtmlParser) : result HtmlParser :=
  match _curr_node self, deref (store self) (_curr_node self) with
  | Some c, Some (mkNode _ (DataHtmlNode _)) =>
    Ok {| store := alter (data_append data) c (store self);
          _doc_node := _doc_node self;
          _curr_node := _curr_node self |}
  | _, _ =>
    parent_node ← parent_node_loop (loop_fuel self) (store self) (_curr_node self);
    let new_node := length (store self) in
    let node := mkNode (Some parent_node) (DataHtmlNode data) in
    Ok {| store := alter (childs_append new_node) parent_node (store self) ++ [node];
          _doc_node := _doc_node self;
          _curr_node := Some new_node |}
  end.

(** Lines 133-134. *)
Definition _decl_handle (decl : pystr) (self : HtmlParser) : result HtmlParser :=
  Ok {| store := alter (decl_append decl) (_doc_node self) (store self);
        _doc_node := _doc_node self;
        _curr_node := _curr_node self |}.

Section handlers.
Context {P : Platform}.

(** The [try] block of lines 116-120: the text an entity reference stands
    for. *)
Definition entityref_data (name : pystr) : result pystr :=
  try_except
    (code ← name2codepoint_getitem name; chr code)
    [KeyError; ValueError; ArithmeticError]
    (str "&" ++ name ++ str ";").

(** Lines 115-122. *)
Definition _entityref_handle (name : pystr) (self : HtmlParser) : result HtmlParser :=
  data ← entityref_data name;
  _data_handle data self.

(** The [try] block of lines 125-129. *)
Definition charref_data (name : pystr) : result pystr :=
  try_except
    (code ← (if bool_decide (take 1 name = str "x")
             then int (drop 1 name) 16 else int name 10);
     chr code)
    [ValueError; ArithmeticError]
    (str "&#" ++ name ++ str ";").

(** Lines 124-131. *)
Definition _charref_handle (name : pystr) (self : HtmlParser) : result HtmlParser :=
  data ← charref_data name;
  _data_handle data self.

(** The events the tokenizer delivers to [ParserHandler] (lines 59-71).
    Attribute values are strings, as the input contract of the
    specification has them. *)
Inductive event :=
  | StartTag (tag : pystr) (attrs : list (pystr * pystr))
  | EndTag (tag : pystr)
  | Data (data : pystr)
  | EntityRef (name : pystr)
  | CharRef (name : pystr)
  | Decl (decl : pystr).

Definition handle (ev : event) (self : HtmlParser) : result HtmlParser :=
  match ev with
  | StartTag tag attrs => _starttag_handle tag attrs self
  | EndTag tag => _endtag_handle tag self
  | Data data => _data_handle data self
  | EntityRef name => _entityref_handle name self
  | CharRef name => _charref_handle name self
  | Decl decl => _decl_handle decl self
  end.

(** [feed]: the tokenizer calls the handlers in the order of the events; an
    exception ends the call. *)
Fixpoint feed (events : list event) (self : HtmlParser) : result HtmlParser :=
  match events with
  | [] => Ok self
  | ev :: events => self' ← handle ev self; feed events self'
  end.

(** [html_parse] on the events of its input (lines 139-142). *)
Definition html_parse (events : list event) : result (list HtmlNode * node_id) :=
  parser ← feed events HtmlParser_init;
  Ok (store parser, get_node parser).

End handlers.

(** ** Printing (lines 144-181) *)

(** What [print_func] receives: the format of the line with its arguments
    ([indent] is the number of spaces in front). *)
Inductive line :=
  | Line_level_too_big (indent : Z)
  | Line_DataHtmlNode (indent : Z) (data : pystr)
  | Line_DocHtmlNode (indent : Z)
  | Line_decl (indent : Z) (decl : list pystr)
  | Line_TagHtmlNode (indent : Z) (name : pystr)
  | Line_attrs (indent : Z) (attrs : gmap pystr pystr)
  | Line_unknown_type (indent : Z).

Definition line_indent (l : line) : Z :=
  match l with
  | Line_level_too_big i | Line_DataHtmlNode i _ | Line_DocHtmlNode i
  | Line_decl i _ | Line_TagHtmlNode i _ | Line_attrs i _
  | Line_unknown_type i => i
  end.

(** [print_node] with the calls to [print_func] collected in order; [fuel]
    bounds the depth of the recursion. *)
Fixpoint print_node_rec (fuel : nat) (h : list HtmlNode)
    (node : option node_id) (level : Z) : option (list line) :=
  match fuel with
  | 0 => None
  | S fuel =>
    let next_level := (level + 1)%Z in
    let self_indent := (level * 2)%Z in
    let attr_indent := (self_indent + 4)%Z in
    if bool_decide (100 ≤ level)%Z then Some [Line_level_too_big self_indent]
    else
      match deref h node with
      | Some (mkNode _ (DataHtmlNode data)) =>
        Some [Line_DataHtmlNode self_indent data]
      | Some (mkNode _ (DocHtmlNode decl ch)) =>
        below ← mapM (fun child => print_node_rec fuel h (Some child) next_level) ch;
        Some (Line_DocHtmlNode self_indent :: Line_decl attr_indent decl
              :: concat below)
      | Some (mkNode _ (TagHtmlNode name attrs ch)) =>
        below ← mapM (fun child => print_node_rec fuel h (Some child) next_level) ch;
        Some (Line_TagHtmlNode self_indent name :: Line_attrs attr_indent attrs
              :: concat below)
      | None => Some [Line_unknown_type self_indent]
      end
  end.

(** The recursion goes one level down per call and stops at level 100. *)
Definition print_fuel (level : Z) : nat := S (Z.to_nat (100 - level)).

Definition print_node (h : list HtmlNode) (node : option node_id)
    (level : option Z) : option (list line) :=
  let level := default 0%Z level in
  print_node_rec (print_fuel level) h node level.

(** ** Traversal (lines 183-208) *)

(** The [for] loop of lines 191-202 over one [node_iter]: what it yields,
    and [next_node_list] after it. *)
Fixpoint for_node_iter (h : list HtmlNode) (direct_only : bool)
    (node_iter next_node_list : list node_id) : list node_id * list node_id :=
  match node_iter with
  | [] => ([], next_node_list)
  | node :: node_iter =>
    let container := from_option is_container false (h !! node) in
    let yield_node := if direct_only then [] else [node] in
    let yield_childs :=
      if container && direct_only then childs_of h node else [] in
    let next_node_list :=
      if container && negb direct_only
      then next_node_list ++ childs_of h node else next_node_list in
    let '(yielded, next_node_list) :=
      for_node_iter h direct_only node_iter next_node_list in
    (yield_node ++ yield_childs ++ yielded, next_node_list)
  end.

(** The [while True] loop of lines 190-208; [Diverge] when the levels never
    run out. *)
Fixpoint get_all_nodes_loop (fuel : nat) (h : list HtmlNode) (direct_only : bool)
    (node_iter : list node_id) : result (list node_id) :=
  match fuel with
  | 0 => Diverge
  | S fuel =>
    let '(yielded, next_node_list) := for_node_iter h direct_only node_iter [] in
    match next_node_list with
    | [] => Ok yielded
    | _ :: _ =>
      rest ← get_all_nodes_loop fuel h direct_only next_node_list;
      Ok (yielded ++ rest)
    end
  end.

(** The sequence the generator yields.  The fuel is one unit per node of
    the store, and one: a walk that ends with some fuel ends with this one
    ([get_all_nodes_loop_fuel_enough] below), so that [Diverge] is the
    generator that never stops yielding. *)
Definition get_all_nodes (h : list HtmlNode) (node_list : list node_id)
    (direct_only : option bool) : result (list node_id) :=
  let direct_only := default false direct_only in
  get_all_nodes_loop (S (length h)) h direct_only node_list.

(** ** Filter (lines 210-246) *)

(** [s.split(' ')]. *)
Fixpoint split_space (s : pystr) : list pystr :=
  match s with
  | [] => [[]]
  | c :: r =>
    if bool_decide (c = 32%Z) then [] :: split_space r
    else match split_space r with
         | t :: ts => (c :: t) :: ts
         | [] => [[c]]
         end
  end.

(** Lines 218-244. *)
Definition check_filter (h : list HtmlNode) (name : option pystr)
    (attrs in_attrs : gmap pystr pystr) (node : node_id) : bool :=
  match kind <$> h !! node with
  | Some (TagHtmlNode node_name node_attrs _) =>
    match name with
    | Some name => bool_decide (name = node_name)
    | None => true
    end
    && forallb (fun kv =>
         match node_attrs !! kv.1 with
         | Some v => bool_decide (v = kv.2)
         | None => false
         end) (map_to_list attrs)
    && forallb (fun kv =>
         match node_attrs !! kv.1 with
         | Some v => bool_decide (kv.2 ∈ split_space v)
         | None => false
         end) (map_to_list in_attrs)
  | _ => false
  end.

(** Lines 210-246. *)
Definition find_tags (h : list HtmlNode) (node_list : list node_id)
    (name : option pystr) (attrs in_attrs : option (gmap pystr pystr))
    (direct_only : option bool) : result (list node_id) :=
  let attrs := default ∅ attrs in
  let in_attrs := default ∅ in_attrs in
  nodes ← get_all_nodes h node_list direct_only;
  Ok (filter (fun node => check_filter h name attrs in_attrs node = true) nodes).

(** ** Vocabulary of the specification *)

(** [i] is in the child list of [p]. *)
Definition child_link (h : list HtmlNode) (p i : node_id) : Prop :=
  i ∈ childs_of h p.

(** [i] is a Text node of the store. *)
Definition text_at (h : list HtmlNode) (i : node_id) : bool :=
  from_option is_data false (h !! i).

(** [i] is an Element node named [tag]. *)
Definition element_named (h : list HtmlNode) (tag : pystr) (i : node_id) : Prop :=
  ∃ nd attrs ch, h !! i = Some nd ∧ kind nd = TagHtmlNode tag attrs ch.

(** Two Text nodes next to each other in a child list. *)
Fixpoint adjacent_text (h : list HtmlNode) (l : list node_id) : bool :=
  match l with
  | a :: r => match r with
              | b :: _ => (text_at h a && text_at h b) || adjacent_text h r
              | [] => false
              end
  | [] => false
  end.

(** The chain cursor, cursor's parent, ... up to, and without, the Document
    node. *)
Inductive chain (h : list HtmlNode) : node_id → list node_id → Prop :=
  | chain_doc i nd :
      h !! i = Some nd → is_doc nd = true → chain h i []
  | chain_up i nd p l :
      h !! i = Some nd → is_doc nd = false → _parent_ref nd = Some p →
      chain h p l → chain h i (i :: l).

(** The nearest ancestor-or-self that is a Document or Element node. *)
Inductive nearest_container (h : list HtmlNode) : node_id → node_id → Prop :=
  | nearest_self i nd :
      h !! i = Some nd → is_container nd = true → nearest_container h i i
  | nearest_up i nd p q :
      h !! i = Some nd → is_container nd = false → _parent_ref nd = Some p →
      nearest_container h p q → nearest_container h i q.

(** The nodes that end the child list of their parent, all the way up. *)
Inductive spine (h : list HtmlNode) : node_id → Prop :=
  | spine_root : spine h 0
  | spine_last p i : spine h p → last (childs_of h p) = Some i → spine h i.

(** A store laid out as one tree under the Document node at identity 0:
    every other node has a parent created before it and is in that
    parent's child list; a child list holds nodes whose parent reference
    points back, each once. *)
Record tree (h : list HtmlNode) : Prop := {
  tree_root : ∃ nd, h !! 0 = Some nd ∧ is_doc nd = true ∧ _parent_ref nd = None;
  tree_parent : ∀ i nd, h !! i = Some nd → i ≠ 0 →
    is_doc nd = false ∧ ∃ p, _parent_ref nd = Some p ∧ p < i ∧ child_link h p i;
  tree_child : ∀ p i, child_link h p i →
    ∃ nd, h !! i = Some nd ∧ _parent_ref nd = Some p;
  tree_nodup : ∀ p, NoDup (childs_of h p)
}.

(** The invariant of the builder. *)
Record wf (self : HtmlParser) : Prop := {
  wf_doc_node : _doc_node self = 0;
  wf_tree : tree (store self);
  wf_cursor : ∃ c, _curr_node self = Some c ∧ c < length (store self)
    ∧ spine (store self) c
    ∧ ∀ t, last (childs_of (store self) c) = Some t → text_at (store self) t = false;
  wf_text : ∀ p, adjacent_text (store self) (childs_of (store self) p) = false
}.

(** A path of child links, listed from its first node to its last. *)
Fixpoint child_path (h : list HtmlNode) (l : list node_id) : Prop :=
  match l with
  | a :: r => match r with
              | b :: _ => child_link h a b ∧ child_path h r
              | [] => True
              end
  | [] => False
  end.

(** [l] is a path of child links from [a] to [b]. *)
Definition path_from (h : list HtmlNode) (a b : node_id) (l : list node_id) : Prop :=
  head l = Some a ∧ last l = Some b ∧ child_path h l.

(** The levels of a breadth-first walk: level 0 is the root sequence, the
    next level lists the children of each node of a level, in order. *)
Fixpoint level (h : list HtmlNode) (roots : list node_id) (k : nat) : list node_id :=
  match k with
  | 0 => roots
  | S k => level h roots k ≫= childs_of h
  end.

(** The first [n] levels, one after the other. *)
Definition levels (h : list HtmlNode) (roots : list node_id) (n : nat) : list node_id :=
  concat (level h roots <$> seq 0 n).

(** The closed subtrees of the roots do not overlap: no root twice, no node
    below two roots. *)
Definition disjoint_subtrees (h : list HtmlNode) (roots : list node_id) : Prop :=
  NoDup roots
  ∧ ∀ r1 r2 x, r1 ∈ roots → r2 ∈ roots →
      rtc (child_link h) r1 x → rtc (child_link h) r2 x → r1 = r2.

(** A store whose child links form a forest: no node below itself, no node
    in two child lists or twice in one, no dangling child. *)
Record forest (h : list HtmlNode) : Prop := {
  forest_acyclic : ∀ i, ¬ tc (child_link h) i i;
  forest_parent : ∀ p q i, child_link h p i → child_link h q i → p = q;
  forest_nodup : ∀ p, NoDup (childs_of h p)
}.

(** The store after [node] is created and appended to the children of [p]
    (lines 84-87 and 111-112). *)
Definition add_node (h : list HtmlNode) (p : node_id) (node : HtmlNode)
  : list HtmlNode :=
  alter (childs_append (length h)) p h ++ [node].

(** What the tree predicates read of a node. *)
Definition shape (nd : HtmlNode) : option node_id * list node_id * bool * bool :=
  (_parent_ref nd, childs nd, is_doc nd, is_data nd).

Global Instance element_named_dec h tag i : Decision (element_named h tag i).
Proof.
  destruct (h !! i) as [[r [d ch|name a ch|d]]|] eqn:Hi.
  2: destruct (decide (name = tag)) as [->|Hne].
  2: left; by eexists _, a, ch.
  all: right; intros (nd & a' & ch' & Hnd & Hk); simplify_eq/=.
Defined.

(** What [find_tags] asks of a node: an Element, with the name when one is
    given, every pair of [attrs] among its attributes, and for every pair
    of [in_attrs] the value among the tokens of the attribute. *)
Definition tag_matches (h : list HtmlNode) (name : option pystr)
    (attrs in_attrs : gmap pystr pystr) (i : node_id) : Prop :=
  ∃ nd node_name node_attrs ch,
    h !! i = Some nd ∧ kind nd = TagHtmlNode node_name node_attrs ch
    ∧ (∀ n, name = Some n → n = node_name)
    ∧ (∀ k v, attrs !! k = Some v → node_attrs !! k = Some v)
    ∧ (∀ k v, in_attrs !! k = Some v →
         ∃ w, node_attrs !! k = Some w ∧ v ∈ split_space w).

(** Tokens put back together with one space between them. *)
Fixpoint join_space (l : list pystr) : pystr :=
  match l with
  | [] => []
  | t :: r => match r with
              | [] => t
              | _ :: _ => t ++ 32%Z :: join_space r
              end
  end.

(** ** The resolver as the specification words it *)

Definition valid_codepoint (code : Z) : bool := bool_decide (0 ≤ code ≤ 1114111)%Z.

Section resolver.
Context {P : Platform}.

(** The table entry when there is one and it is a code point, the
    reference text otherwise. *)
Definition resolve_named_entity (name : pystr) : pystr :=
  match name2codepoint !! name with
  | Some code =>
    if valid_codepoint code then [code] else str "&" ++ name ++ str ";"
  | None => str "&" ++ name ++ str ";"
  end.

(** Base 16 after a leading [x], base 10 otherwise; the reference text when
    the body does not parse or is no code point. *)
Definition resolve_char_ref (raw : pystr) : pystr :=
  let parsed :=
    match raw with
    | c :: rest => if bool_decide (c = 120%Z) then int_parse rest 16
                   else int_parse raw 10
    | [] => int_parse raw 10
    end in
  match parsed with
  | Some code =>
    if valid_codepoint code then [code] else str "&#" ++ raw ++ str ";"
  | None => str "&#" ++ raw ++ str ";"
  end.

(** The text a text-producing event inserts. *)
Definition text_of (ev : event) : option pystr :=
  match ev with
  | Data data => Some data
  | EntityRef name => Some (resolve_named_entity name)
  | CharRef raw => Some (resolve_char_ref raw)
  | _ => None
  end.

End resolver.

(** ** Example data *)

(** A platform with an excerpt of the entity table and no digits or white
    space outside ASCII. *)
Definition demo_platform : Platform := {|
  name2codepoint :=
    <[str "amp" := 38%Z]> (<[str "lt" := 60%Z]> (<[str "gt" := 62%Z]>
      (<[str "quot" := 34%Z]> (<[str "nbsp" := 160%Z]> ∅))));
  Py_UNICODE_ISSPACE := fun _ => false;
  Py_UNICODE_TODECIMAL := fun _ => None
|}.

(** The events of [<b><i>x], and the state they lead to. *)
Definition demo_open_events : list event :=
  [StartTag (str "b") []; StartTag (str "i") []; Data (str "x")].

Definition demo_open_state : HtmlParser :=
  {| store := [mkNode None (DocHtmlNode [] [1]);
               mkNode (Some 0) (TagHtmlNode (str "b") ∅ [2]);
               mkNode (Some 1) (TagHtmlNode (str "i") ∅ [3]);
               mkNode (Some 2) (DataHtmlNode (str "x"))];
     _doc_node := 0;
     _curr_node := Some 3 |}.

(** The events of [<a><b></b><c></c></a>], and the tree
    Document→[a→[b, c]] they build. *)
Definition demo_tree_events : list event :=
  [StartTag (str "a") []; StartTag (str "b") []; EndTag (str "b");
   StartTag (str "c") []; EndTag (str "c"); EndTag (str "a")].

Definition demo_tree : list HtmlNode :=
  [mkNode None (DocHtmlNode [] [1]);
   mkNode (Some 0) (TagHtmlNode (str "a") ∅ [2; 3]);
   mkNode (Some 1) (TagHtmlNode (str "b") ∅ []);
   mkNode (Some 1) (TagHtmlNode (str "c") ∅ [])].

Definition demo_tree_state : HtmlParser :=
  {| store := demo_tree; _doc_node := 0; _curr_node := Some 0 |}.

(** Document→[p class="x y", q class="xy", text]. *)
Definition demo_class_store : list HtmlNode :=
  [mkNode None (DocHtmlNode [] [1; 2; 3]);
   mkNode (Some 0) (TagHtmlNode (str "p") {[ str "class" := str "x y" ]} []);
   mkNode (Some 0) (TagHtmlNode (str "q") {[ str "class" := str "xy" ]} []);
   mkNode (Some 0) (DataHtmlNode (str "x"))].

(** A store whose only node is its own child, and the store of a hundred
    and twenty Elements nested in one another. *)
Definition demo_cyclic_store : list HtmlNode :=
  [mkNode None (TagHtmlNode (str "a") ∅ [0])].

Definition demo_deep_store : list HtmlNode :=
  match @feed demo_platform (replicate 120 (StartTag (str "d") [])) HtmlParser_init with
  | Ok self => store self
  | _ => []
  end.

(** The common shape of the two loops that climb the parent links: stop at
    a node with a result, go on to the parent otherwise. *)
Fixpoint climb {A} (stop : node_id → HtmlNode → option A) (fuel : nat)
    (h : list HtmlNode) (node : option node_id) : result A :=
  match fuel with
  | 0 => Diverge
  | S fuel =>
    match node with
    | None => Raise AttributeError
    | Some i =>
      match h !! i with
      | None => Raise AttributeError
      | Some nd =>
        match stop i nd with
        | Some a => Ok a
        | None => climb stop fuel h (get_parent nd)
        end
      end
    end
  end.

(** One step of a climb. *)
Definition climbs {A} (stop : node_id → HtmlNode → option A) (h : list HtmlNode)
    (i p : node_id) : Prop :=
  ∃ nd, h !! i = Some nd ∧ stop i nd = None ∧ get_parent nd = Some p.

(** ** Vocabulary of the further properties *)

(** What becomes of a node that exists: it keeps its parent reference and
    its variant, an Element its name and attributes; declarations, child
    lists and text buffers get longer at the end. *)
Definition node_grows (nd nd' : HtmlNode) : Prop :=
  _parent_ref nd' = _parent_ref nd
  ∧ match kind nd, kind nd' with
    | DocHtmlNode d ch, DocHtmlNode d' ch' => d `prefix_of` d' ∧ ch `prefix_of` ch'
    | TagHtmlNode n a ch, TagHtmlNode n' a' ch' => n' = n ∧ a' = a ∧ ch `prefix_of` ch'
    | DataHtmlNode d, DataHtmlNode d' => d `prefix_of` d'
    | _, _ => False
    end.

(** The Elements of the store in the order of their creation, each with its
    name and attributes. *)
Definition elements_of (h : list HtmlNode) : list (pystr * gmap pystr pystr) :=
  omap (fun nd => match kind nd with
                  | TagHtmlNode n a _ => Some (n, a)
                  | _ => None
                  end) h.

(** The start tags of a stream, each with its name and the attributes as
    the handler stores them. *)
Definition start_tags (events : list event) : list (pystr * gmap pystr pystr) :=
  omap (fun ev => match ev with
                  | StartTag tag attrs => Some (tag, dict_update ∅ attrs)
                  | _ => None
                  end) events.

(** The buffers of the Text nodes in the order of their creation. *)
Definition text_buffers (h : list HtmlNode) : list pystr :=
  omap (fun nd => match kind nd with
                  | DataHtmlNode d => Some d
                  | _ => None
                  end) h.

(** All the text of the store. *)
Definition text_content (h : list HtmlNode) : pystr := concat (text_buffers h).

(** The declarations of a Document node. *)
Definition node_decl (nd : HtmlNode) : option (list pystr) :=
  match kind nd with
  | DocHtmlNode d _ => Some d
  | _ => None
  end.

(** [get_node().decl]. *)
Definition doc_decl (self : HtmlParser) : list pystr :=
  match kind <$> store self !! get_node self with
  | Some (DocHtmlNode d _) => d
  | _ => []
  end.

(** The declarations of a stream. *)
Definition decls_of (events : list event) : list pystr :=
  omap (fun ev => match ev with Decl d => Some d | _ => None end) events.

(** No Text node was created after the Text node the cursor is on. *)
Definition cursor_is_last_text (self : HtmlParser) : Prop :=
  ∀ c nd, _curr_node self = Some c → store self !! c = Some nd →
    is_data nd = true → text_buffers (drop (S c) (store self)) = [].

(** Where the next node goes: the cursor, or its parent when the cursor is
    a Text node. *)
Definition insertion_point (self : HtmlParser) : option node_id :=
  c ← _curr_node self;
  nd ← store self !! c;
  if is_container nd then Some c else get_parent nd.

(** Streams in which every start tag is closed by its end tag, in the order
    of nesting. *)
Inductive balanced : list event → Prop :=
  | balanced_nil : balanced []
  | balanced_Data data rest : balanced rest → balanced (Data data :: rest)
  | balanced_EntityRef name rest : balanced rest → balanced (EntityRef name :: rest)
  | balanced_CharRef name rest : balanced rest → balanced (CharRef name :: rest)
  | balanced_Decl decl rest : balanced rest → balanced (Decl decl :: rest)
  | balanced_element tag attrs inner rest :
      balanced inner → balanced rest →
      balanced (StartTag tag attrs :: inner ++ EndTag tag :: rest).

(** ** Lemmas on the store *)

Lemma childs_append_shape c nd :
  is_container nd = true →
  shape (childs_append c nd) = (_parent_ref nd, childs nd ++ [c], is_doc nd, is_data nd).
Proof. by destruct nd as [r []]. Qed.

Lemma data_append_shape s nd : shape (data_append s nd) = shape nd.
Proof. by destruct nd as [r []]. Qed.

Lemma decl_append_shape s nd : shape (decl_append s nd) = shape nd.
Proof. by destruct nd as [r []]. Qed.

Lemma shape_container nd nd' :
  shape nd = shape nd' → is_container nd = is_container nd'.
Proof. destruct nd as [r []], nd' as [r' []]; by intros [=]. Qed.

Lemma childs_container nd i : i ∈ childs nd → is_container nd = true.
Proof. destruct nd as [r []]; simpl; [done..|]. by intros ?%elem_of_nil. Qed.

Lemma child_link_lookup h p i :
  child_link h p i → ∃ pd, h !! p = Some pd ∧ i ∈ childs pd.
Proof.
  unfold child_link, childs_of. destruct (h !! p) as [pd|]; simpl; [eauto|].
  by intros ?%elem_of_nil.
Qed.

Lemma childs_of_lookup h p pd : h !! p = Some pd → childs_of h p = childs pd.
Proof. unfold childs_of. by intros ->. Qed.

Lemma childs_of_dangling h p : h !! p = None → childs_of h p = [].
Proof. unfold childs_of. by intros ->. Qed.

Section add_node.
Context (h : list HtmlNode) (p : node_id) (node : HtmlNode).

Lemma add_node_length : length (add_node h p node) = S (length h).
Proof. unfold add_node. rewrite length_app, length_alter. simpl. lia. Qed.

Lemma add_node_lookup_new : add_node h p node !! length h = Some node.
Proof.
  unfold add_node. rewrite lookup_app_r; rewrite length_alter; [|lia].
  by rewrite Nat.sub_diag.
Qed.

Lemma add_node_lookup_parent pd :
  h !! p = Some pd →
  add_node h p node !! p = Some (childs_append (length h) pd).
Proof.
  intros Hp. unfold add_node.
  rewrite lookup_app_l by (rewrite length_alter; by eapply lookup_lt_Some).
  by rewrite list_lookup_alter_eq, Hp.
Qed.

Lemma add_node_lookup_other i :
  i ≠ p → i ≠ length h → add_node h p node !! i = h !! i.
Proof.
  intros Hp Hn. unfold add_node. destruct (decide (i < length h)) as [Hi|Hi].
  - rewrite lookup_app_l by (by rewrite length_alter).
    by apply list_lookup_alter_ne.
  - rewrite (lookup_ge_None_2 h) by lia.
    apply lookup_ge_None_2. rewrite length_app, length_alter. simpl. lia.
Qed.

(** An old node keeps its parent reference and its variant. *)
Lemma add_node_lookup_old i nd :
  h !! i = Some nd →
  ∃ nd', add_node h p node !! i = Some nd'
    ∧ _parent_ref nd' = _parent_ref nd ∧ is_doc nd' = is_doc nd
    ∧ is_data nd' = is_data nd ∧ is_container nd' = is_container nd.
Proof.
  intros Hi. destruct (decide (i = p)) as [->|Hne].
  - exists (childs_append (length h) nd). split; [by apply add_node_lookup_parent|].
    by destruct nd as [r []].
  - exists nd. split; [|done]. rewrite add_node_lookup_other; [done..|].
    apply lookup_lt_Some in Hi. lia.
Qed.

Lemma add_node_lookup_inv i nd' :
  add_node h p node !! i = Some nd' →
  (i = length h ∧ nd' = node) ∨
  (∃ nd, h !! i = Some nd ∧ _parent_ref nd' = _parent_ref nd
      ∧ is_doc nd' = is_doc nd ∧ is_data nd' = is_data nd).
Proof.
  intros Hi. destruct (decide (i = length h)) as [->|Hn].
  - left. rewrite add_node_lookup_new in Hi. by injection Hi.
  - right. assert (i < length h) as [nd Hnd]%lookup_lt_is_Some_2.
    { apply lookup_lt_Some in Hi. rewrite add_node_length in Hi. lia. }
    destruct (add_node_lookup_old i nd Hnd) as (nd2 & H2 & ? & ? & ? & ?).
    rewrite Hi in H2. injection H2 as ->. eauto.
Qed.

Lemma add_node_childs_parent pd :
  h !! p = Some pd → is_container pd = true →
  childs_of (add_node h p node) p = childs_of h p ++ [length h].
Proof.
  intros Hp Hc. rewrite (childs_of_lookup _ _ _ (add_node_lookup_parent _ Hp)).
  rewrite (childs_of_lookup _ _ _ Hp). by destruct pd as [r []].
Qed.

Lemma add_node_childs_other i :
  i ≠ p → i ≠ length h → childs_of (add_node h p node) i = childs_of h i.
Proof. intros. unfold childs_of. by rewrite add_node_lookup_other. Qed.

Lemma add_node_childs_new :
  childs_of (add_node h p node) (length h) = childs node.
Proof. unfold childs_of. by rewrite add_node_lookup_new. Qed.

Lemma add_node_text_old i :
  i ≠ length h → text_at (add_node h p node) i = text_at h i.
Proof.
  intros Hn. unfold text_at. destruct (h !! i) as [nd|] eqn:Hi.
  - destruct (add_node_lookup_old i nd Hi) as (nd' & -> & _ & _ & ? & _). done.
  - destruct (add_node h p node !! i) as [nd'|] eqn:Hi'; [|done].
    apply add_node_lookup_inv in Hi' as [[? _]|(nd & ? & _)]; congruence.
Qed.

Lemma add_node_text_new : text_at (add_node h p node) (length h) = is_data node.
Proof. unfold text_at. by rewrite add_node_lookup_new. Qed.

End add_node.

(** ** Lemmas on trees *)

Lemma tree_link_lt h p i : tree h → child_link h p i → p < i ∧ i < length h.
Proof.
  intros Ht Hl. destruct (tree_child h Ht p i Hl) as (nd & Hi & Hpar).
  split; [|by eapply lookup_lt_Some].
  destruct (decide (i = 0)) as [->|Hne].
  - destruct (tree_root h Ht) as (nd0 & H0 & _ & Hnone). congruence.
  - destruct (tree_parent h Ht i nd Hi Hne) as (_ & q & Hq & Hlt & _). congruence.
Qed.

Lemma tree_nonempty h : tree h → 0 < length h.
Proof. intros [(nd & H0 & _) _ _ _]. by eapply lookup_lt_Some. Qed.

Lemma tree_add_node h p pd node :
  tree h → h !! p = Some pd → is_container pd = true →
  _parent_ref node = Some p → childs node = [] → is_doc node = false →
  tree (add_node h p node).
Proof.
  intros Ht Hp Hc Hpar Hch Hdoc.
  assert (p < length h) as Hlt by (by eapply lookup_lt_Some).
  assert (∀ q i, child_link h q i → child_link (add_node h p node) q i) as Hmono.
  { intros q i Hl. unfold child_link in *.
    destruct (decide (q = p)) as [->|Hqp].
    - rewrite (add_node_childs_parent _ _ _ _ Hp Hc). apply elem_of_app. by left.
    - rewrite add_node_childs_other; [done..|].
      apply child_link_lookup in Hl as (? & ?%lookup_lt_Some & _). lia. }
  split.
  - destruct (tree_root h Ht) as (nd0 & H0 & Hd0 & Hp0).
    destruct (add_node_lookup_old h p node 0 nd0 H0) as (nd' & ? & ? & ? & _).
    exists nd'. repeat split; congruence.
  - intros i nd' Hi Hne.
    apply add_node_lookup_inv in Hi as [[-> ->]|(nd & Hi & Hpr & Hd & _)].
    + split; [done|]. exists p. repeat split; [done..|].
      unfold child_link. rewrite (add_node_childs_parent _ _ _ _ Hp Hc).
      apply elem_of_app. right. by apply list_elem_of_singleton.
    + destruct (tree_parent h Ht i nd Hi Hne) as (Hnd & q & Hq & Hqi & Hl).
      split; [congruence|]. exists q. repeat split; [congruence|done|by apply Hmono].
  - intros q i Hl. unfold child_link in Hl.
    destruct (decide (q = length h)) as [->|Hqn].
    { rewrite add_node_childs_new, Hch in Hl. by apply elem_of_nil in Hl. }
    assert (i = length h ∧ q = p ∨ child_link h q i) as [[-> ->]|Hold].
    { destruct (decide (q = p)) as [->|Hqp].
      - rewrite (add_node_childs_parent _ _ _ _ Hp Hc) in Hl.
        apply elem_of_app in Hl as [?|?%list_elem_of_singleton]; auto.
      - rewrite add_node_childs_other in Hl by done. by right. }
    + exists node. split; [apply add_node_lookup_new|done].
    + destruct (tree_child h Ht q i Hold) as (nd & Hi & Hpr).
      destruct (add_node_lookup_old h p node i nd Hi) as (nd' & ? & ? & _).
      exists nd'. split; congruence.
  - intros q. destruct (decide (q = length h)) as [->|Hqn].
    { rewrite add_node_childs_new, Hch. constructor. }
    destruct (decide (q = p)) as [->|Hqp].
    + rewrite (add_node_childs_parent _ _ _ _ Hp Hc).
      apply NoDup_app. split; [apply (tree_nodup h Ht)|]. split; [|apply NoDup_singleton].
      intros i Hi ->%list_elem_of_singleton.
      apply (tree_link_lt h p (length h) Ht) in Hi. lia.
    + rewrite add_node_childs_other by done. apply (tree_nodup h Ht).
Qed.

(** Updates that leave the shape of every node alone. *)
Lemma alter_shape_lookup f c (h : list HtmlNode) i :
  (∀ nd, shape (f nd) = shape nd) →
  shape <$> alter f c h !! i = shape <$> h !! i.
Proof.
  intros Hf. destruct (decide (c = i)) as [->|Hne].
  - rewrite list_lookup_alter_eq. destruct (h !! i); simpl; [|done]. by rewrite Hf.
  - by rewrite list_lookup_alter_ne.
Qed.

Section same_shape.
Context (h h' : list HtmlNode).
Context (Hshape : ∀ i, shape <$> h' !! i = shape <$> h !! i).

Lemma same_shape_lookup i nd' :
  h' !! i = Some nd' → ∃ nd, h !! i = Some nd ∧ shape nd = shape nd'.
Proof using Hshape.
  intros Hi. specialize (Hshape i). rewrite Hi in Hshape.
  destruct (h !! i) as [nd|]; [|done]. exists nd. split; [done|].
  simpl in Hshape. congruence.
Qed.

Lemma same_shape_childs i : childs_of h' i = childs_of h i.
Proof using Hshape.
  unfold childs_of. specialize (Hshape i).
  destruct (h' !! i), (h !! i); simpl in *; try done. unfold shape in Hshape. congruence.
Qed.

Lemma same_shape_text i : text_at h' i = text_at h i.
Proof using Hshape.
  unfold text_at. specialize (Hshape i).
  destruct (h' !! i), (h !! i); simpl in *; try done. unfold shape in Hshape. congruence.
Qed.

Lemma same_shape_length : length h' = length h.
Proof using Hshape.
  destruct (decide (length h' < length h)) as [Hlt|Hge].
  - apply lookup_lt_is_Some_2 in Hlt as [nd Hnd]. specialize (Hshape (length h')).
    rewrite Hnd, (lookup_ge_None_2 h') in Hshape; [done|lia].
  - destruct (decide (length h < length h')) as [Hlt|]; [|lia].
    apply lookup_lt_is_Some_2 in Hlt as [nd Hnd]. specialize (Hshape (length h)).
    rewrite Hnd, (lookup_ge_None_2 h) in Hshape; [done|lia].
Qed.

Lemma same_shape_adjacent l : adjacent_text h' l = adjacent_text h l.
Proof using Hshape.
  induction l as [|a [|b r] IH]; [done..|].
  change (text_at h' a && text_at h' b || adjacent_text h' (b :: r)
          = text_at h a && text_at h b || adjacent_text h (b :: r)).
  by rewrite IH, !same_shape_text.
Qed.

Lemma same_shape_spine x : spine h x → spine h' x.
Proof using Hshape.
  induction 1 as [|p i _ IH Hl]; [constructor|].
  apply (spine_last _ p); [done|]. by rewrite same_shape_childs.
Qed.

Lemma same_shape_tree : tree h → tree h'.
Proof using Hshape.
  intros Ht. split.
  - destruct (tree_root h Ht) as (nd & H0 & Hd & Hp). specialize (Hshape 0).
    rewrite H0 in Hshape. destruct (h' !! 0) as [nd'|]; [|done].
    exists nd'. simpl in Hshape. unfold shape in Hshape.
    repeat split; congruence.
  - intros i nd' Hi Hne. destruct (same_shape_lookup i nd' Hi) as (nd & Hnd & Hs).
    destruct (tree_parent h Ht i nd Hnd Hne) as (Hd & p & Hp & Hlt & Hl).
    unfold shape in Hs. split; [congruence|]. exists p.
    repeat split; [congruence|done|]. unfold child_link. by rewrite same_shape_childs.
  - intros p i Hl. unfold child_link in Hl. rewrite same_shape_childs in Hl.
    destruct (tree_child h Ht p i Hl) as (nd & Hi & Hp). specialize (Hshape i).
    rewrite Hi in Hshape. destruct (h' !! i) as [nd'|]; [|done].
    exists nd'. simpl in Hshape. unfold shape in Hshape. split; congruence.
  - intros p. rewrite same_shape_childs. apply (tree_nodup h Ht).
Qed.

End same_shape.

(** ** Lemmas on the spine and on adjacent Text nodes *)

Lemma spine_add_node h p pd node x :
  tree h → h !! p = Some pd → spine h x → x ≤ p → spine (add_node h p node) x.
Proof.
  intros Ht Hp Hx. induction Hx as [|q i _ IH Hl]; intros Hle; [constructor|].
  assert (child_link h q i) as Hqi by (by eapply last_Some_elem_of).
  apply (tree_link_lt h q i Ht) in Hqi as [Hqi Hi].
  apply (spine_last _ q); [apply IH; lia|].
  rewrite add_node_childs_other; [done|lia|lia].
Qed.

Lemma spine_add_node_new h p pd node :
  tree h → h !! p = Some pd → is_container pd = true → spine h p →
  spine (add_node h p node) (length h).
Proof.
  intros Ht Hp Hc Hs. apply (spine_last _ p).
  - by eapply spine_add_node.
  - rewrite (add_node_childs_parent _ _ _ _ Hp Hc). apply last_snoc.
Qed.

Lemma spine_parent h x nd p :
  tree h → spine h x → h !! x = Some nd → _parent_ref nd = Some p →
  spine h p ∧ last (childs_of h p) = Some x.
Proof.
  intros Ht Hs Hx Hp. destruct Hs as [|q i Hq Hl].
  - destruct (tree_root h Ht) as (nd0 & H0 & _ & Hnone). congruence.
  - assert (child_link h q i) as Hqi by (by eapply last_Some_elem_of).
    destruct (tree_child h Ht q i Hqi) as (nd' & Hi & Hpar).
    assert (q = p) as -> by congruence. done.
Qed.

Lemma adjacent_text_ext h h' l :
  (∀ i, i ∈ l → text_at h' i = text_at h i) →
  adjacent_text h' l = adjacent_text h l.
Proof.
  induction l as [|a [|b r] IH]; intros Hl; [done..|].
  change (text_at h' a && text_at h' b || adjacent_text h' (b :: r)
          = text_at h a && text_at h b || adjacent_text h (b :: r)).
  rewrite IH, !Hl; [done|repeat constructor..|].
  intros i Hi. apply Hl. by constructor.
Qed.

Lemma adjacent_text_snoc h l x :
  adjacent_text h (l ++ [x])
  = adjacent_text h l
    || from_option (fun t => text_at h t && text_at h x) false (last l).
Proof.
  induction l as [|a [|b r] IH]; [done| simpl; by rewrite orb_false_r |].
  change (text_at h a && text_at h b || adjacent_text h ((b :: r) ++ [x])
          = text_at h a && text_at h b || adjacent_text h (b :: r)
            || from_option (fun t => text_at h t && text_at h x) false (last (b :: r))).
  by rewrite IH, orb_assoc.
Qed.

(** The children lists of the store after [add_node] have no adjacent Text
    nodes when the new node is an Element, or goes after a child that is
    not a Text node. *)
Lemma adjacent_text_add_node h p pd node q :
  tree h → h !! p = Some pd → is_container pd = true → childs node = [] →
  (∀ q, adjacent_text h (childs_of h q) = false) →
  (is_data node = false ∨ ∀ t, last (childs_of h p) = Some t → text_at h t = false) →
  adjacent_text (add_node h p node) (childs_of (add_node h p node) q) = false.
Proof.
  intros Ht Hp Hc Hch Hadj Hnew.
  assert (∀ q i, i ∈ childs_of h q → text_at (add_node h p node) i = text_at h i) as Hold.
  { intros q' i Hi. apply add_node_text_old.
    apply (tree_link_lt h q' i Ht) in Hi. lia. }
  destruct (decide (q = length h)) as [->|Hqn].
  { by rewrite add_node_childs_new, Hch. }
  destruct (decide (q = p)) as [->|Hqp].
  - rewrite (add_node_childs_parent _ _ _ _ Hp Hc), adjacent_text_snoc.
    rewrite (adjacent_text_ext h) by (intros; by eapply Hold).
    rewrite Hadj. simpl. destruct (last (childs_of h p)) as [t|] eqn:Hlast; [|done].
    simpl. rewrite add_node_text_new.
    rewrite (Hold p t) by (by eapply last_Some_elem_of).
    destruct Hnew as [->|Ht']; [apply andb_false_r|]. by rewrite (Ht' t).
  - rewrite add_node_childs_other by done.
    rewrite (adjacent_text_ext h) by (intros; by eapply Hold). apply Hadj.
Qed.

(** ** The loops on a tree *)

Lemma parent_node_loop_tree h c fuel :
  tree h → c < length h →
  ∃ p pd, parent_node_loop (S (S fuel)) h (Some c) = Ok p
    ∧ h !! p = Some pd ∧ is_container pd = true
    ∧ nearest_container h c p
    ∧ (p = c ∨ (text_at h c = true ∧ child_link h p c)).
Proof.
  intros Ht [nd Hc]%lookup_lt_is_Some_2. simpl. rewrite Hc.
  destruct (is_container nd) eqn:Hcont.
  { exists c, nd. repeat split; [done..|by econstructor|by left]. }
  assert (c ≠ 0) as Hne.
  { intros ->. destruct (tree_root h Ht) as (nd0 & H0 & Hd & _).
    assert (nd0 = nd) as -> by congruence. by destruct nd as [r []]. }
  destruct (tree_parent h Ht c nd Hc Hne) as (_ & p & Hp & _ & Hl).
  destruct (child_link_lookup h p c Hl) as (pd & Hpd & Hin).
  pose proof (childs_container pd c Hin) as Hpc.
  unfold get_parent. rewrite Hp. destruct fuel; simpl; rewrite Hpd, Hpc.
  all: exists p, pd; repeat split; try done.
  all: try (eapply nearest_up; [done..|by econstructor]).
  all: right; split; [|done]; unfold text_at; rewrite Hc; by destruct nd as [r []].
Qed.

Lemma chain_exists h c : tree h → c < length h → ∃ l, chain h c l ∧ length l ≤ c.
Proof.
  intros Ht. induction c as [c IH] using lt_wf_ind. intros Hc.
  destruct (lookup_lt_is_Some_2 h c Hc) as [nd Hnd].
  destruct (is_doc nd) eqn:Hd.
  { exists []. split; [by econstructor|simpl; lia]. }
  assert (c ≠ 0) as Hne.
  { intros ->. destruct (tree_root h Ht) as (nd0 & H0 & Hd0 & _). congruence. }
  destruct (tree_parent h Ht c nd Hnd Hne) as (_ & p & Hp & Hlt & _).
  destruct (IH p Hlt) as (l & Hl & Hlen); [lia|].
  exists (c :: l). split; [by econstructor|simpl; lia].
Qed.

Lemma chain_functional h c l1 l2 : chain h c l1 → chain h c l2 → l1 = l2.
Proof.
  intros H1. revert l2. induction H1 as [i nd Hi Hd|i nd p l Hi Hd Hp _ IH];
    intros l2 H2; destruct H2 as [i nd' Hi' Hd'|i nd' p' l' Hi' Hd' Hp' H2];
    try congruence.
  f_equal. apply IH. congruence.
Qed.

Lemma chain_spine h c l :
  tree h → spine h c → chain h c l → ∀ i, i ∈ l → spine h i.
Proof.
  intros Ht Hs Hc. induction Hc as [|i nd p l Hi Hd Hp _ IH]; intros j Hj.
  { by apply elem_of_nil in Hj. }
  apply elem_of_cons in Hj as [->|Hj]; [done|].
  apply IH; [|done]. by eapply spine_parent.
Qed.

(** The closing loop stops at the first Element of the chain that carries
    the name. *)
Lemma closing_node_loop_found h tag c l fuel l1 i l2 nd :
  chain h c l → length l < fuel → l = l1 ++ i :: l2 →
  (∀ j, j ∈ l1 → ¬ element_named h tag j) →
  element_named h tag i → h !! i = Some nd →
  closing_node_loop fuel h tag (Some c) = Ok (Some (_parent_ref nd)).
Proof.
  intros Hc. revert fuel l1.
  induction Hc as [|c cd p l Hcd Hd Hp _ IH]; intros fuel l1 Hfuel Hl Hnot Hnamed Hi.
  { by destruct l1. }
  destruct fuel as [|fuel]; [simpl in Hfuel; lia|]. simpl. rewrite Hcd.
  destruct l1 as [|c' l1]; simplify_eq/=.
  - destruct Hnamed as (nd' & a & ch & Hnd' & Hk). simplify_eq. rewrite Hk.
    by rewrite bool_decide_eq_true_2.
  - assert (¬ element_named h tag c') as Hc' by (apply Hnot; by left).
    assert (closing_node_loop fuel h tag (get_parent cd) = Ok (Some (_parent_ref nd)))
      as Hrec.
    { unfold get_parent. rewrite Hp. apply (IH fuel l1); [lia|done| |done..].
      intros j Hj. apply Hnot. by right. }
    destruct (kind cd) as [| name a ch |] eqn:Hk; [by destruct cd as [r []]| |done].
    case_bool_decide as Hname; [|done]. subst name.
    destruct Hc'. by exists cd, a, ch.
Qed.

Lemma closing_node_loop_none h tag c l fuel :
  chain h c l → length l < fuel →
  (∀ j, j ∈ l → ¬ element_named h tag j) →
  closing_node_loop fuel h tag (Some c) = Ok None.
Proof.
  intros Hc. revert fuel.
  induction Hc as [c cd Hcd Hd|c cd p l Hcd Hd Hp _ IH]; intros fuel Hfuel Hnot.
  { destruct fuel as [|fuel]; [simpl in Hfuel; lia|]. simpl. rewrite Hcd.
    by destruct cd as [r []]. }
  destruct fuel as [|fuel]; [simpl in Hfuel; lia|]. simpl. rewrite Hcd.
  assert (¬ element_named h tag c) as Hc' by (apply Hnot; by left).
  assert (closing_node_loop fuel h tag (get_parent cd) = Ok None) as Hrec.
  { unfold get_parent. rewrite Hp. apply IH; [simpl in Hfuel; lia|].
    intros j Hj. apply Hnot. by right. }
  destruct (kind cd) as [| name a ch |] eqn:Hk; [by destruct cd as [r []]| |done].
  case_bool_decide as Hname; [|done]. subst name.
  destruct Hc'. by exists cd, a, ch.
Qed.

(** The first element of a list with a decidable property, with what comes
    before and after it. *)
Lemma list_first_split {A} (P : A → Prop) `{∀ x, Decision (P x)} (l : list A) :
  (∀ x, x ∈ l → ¬ P x)
  ∨ ∃ l1 x l2, l = l1 ++ x :: l2 ∧ P x ∧ ∀ y, y ∈ l1 → ¬ P y.
Proof.
  induction l as [|a l IH]; [left; by intros x ?%elem_of_nil|].
  destruct (decide (P a)) as [Ha|Ha].
  { right. exists [], a, l. split; [done|]. split; [done|]. by intros y ?%elem_of_nil. }
  destruct IH as [IH|(l1 & x & l2 & -> & Hx & Hl1)].
  - left. intros x [->|Hx]%elem_of_cons; auto.
  - right. exists (a :: l1), x, l2. split; [done|]. split; [done|].
    intros y [->|Hy]%elem_of_cons; auto.
Qed.

(** Pigeonhole on identities. *)
Lemma NoDup_bounded_length (l : list nat) n :
  NoDup l → (∀ x, x ∈ l → x < n) → length l ≤ n.
Proof.
  intros Hnd Hlt. rewrite <- (length_seq n 0). apply submseteq_length.
  apply NoDup_submseteq; [done|]. intros x Hx. apply elem_of_seq.
  specialize (Hlt x Hx). lia.
Qed.

(** ** The fuel of the loops

    The loops run on fuel counted from the size of the store.  A loop that
    ends for some fuel ends for that one: a walk along more links than the
    store has nodes passes twice through a node, and goes round for
    ever. *)

Lemma walk_cycle_visited (R : relation nat) N n r x visited r0 :
  (∀ a b, R a b → a < N) →
  nsteps R n r x → x < N → rtc R r0 r → NoDup visited →
  (∀ v, v ∈ visited → v < N ∧ tc R v r) →
  N ≤ n + length visited →
  ∃ i, rtc R r0 i ∧ tc R i i.
Proof.
  intros HR Hn. revert visited.
  induction Hn as [x|n r y x Hry _ IH]; intros visited Hx Hr0 Hnd Hvis Hlen.
  - destruct (decide (x ∈ visited)) as [Hin|Hin].
    { exists x. split; [done|]. by apply Hvis. }
    assert (length (x :: visited) ≤ N) as Hle; [|simpl in *; lia].
    apply NoDup_bounded_length; [by constructor|].
    intros v [->|Hv]%elem_of_cons; [done|]. by apply Hvis.
  - destruct (decide (r ∈ visited)) as [Hin|Hin].
    { exists r. split; [done|]. by apply Hvis. }
    apply (IH (r :: visited)); [done|by eapply rtc_r|by constructor| |simpl; lia].
    intros v [->|Hv]%elem_of_cons.
    + split; [by eapply HR|by apply tc_once].
    + destruct (Hvis v Hv) as [? Hvr]. split; [done|]. by eapply tc_r.
Qed.

Lemma long_walk_cycle (R : relation nat) N n r x :
  (∀ a b, R a b → a < N) → nsteps R n r x → x < N → N ≤ n →
  ∃ i, rtc R r i ∧ tc R i i.
Proof.
  intros HR Hn Hx Hle. apply (walk_cycle_visited R N n r x [] r); try done.
  - constructor.
  - by intros v ?%elem_of_nil.
  - simpl. lia.
Qed.

Section climb.
Context {A : Type} (stop : node_id → HtmlNode → option A) (h : list HtmlNode).

Lemma climb_mono fuel fuel' node res :
  climb stop fuel h node = res → res ≠ Diverge → fuel ≤ fuel' →
  climb stop fuel' h node = res.
Proof.
  revert fuel' node. induction fuel as [|fuel IH]; intros fuel' node Hc Hres Hle.
  { simpl in Hc. congruence. }
  destruct fuel' as [|fuel']; [lia|]. simpl in *.
  destruct node as [i|]; [|done]. destruct (h !! i) as [nd|]; [|done].
  destruct (stop i nd); [done|]. apply IH; [done..|lia].
Qed.

Lemma climbs_valid i p : climbs stop h i p → i < length h.
Proof. intros (nd & Hi & _). by eapply lookup_lt_Some. Qed.

Lemma climbs_functional i p q : climbs stop h i p → climbs stop h i q → p = q.
Proof. intros (nd & Hi & _ & Hp) (nd' & Hi' & _ & Hq). congruence. Qed.

(** A climb out of fuel has walked one link per unit of fuel, less one. *)
Lemma climb_diverge_walk fuel i :
  climb stop (S fuel) h (Some i) = Diverge →
  ∃ x, nsteps (climbs stop h) fuel i x ∧ x < length h.
Proof.
  revert i. induction fuel as [|fuel IH]; intros i Hc.
  - exists i. split; [constructor|]. simpl in Hc.
    destruct (h !! i) as [nd|] eqn:Hi; [|done]. by eapply lookup_lt_Some.
  - change (climb stop (S (S fuel)) h (Some i))
      with (match h !! i with
            | None => Raise AttributeError
            | Some nd => match stop i nd with
                         | Some a => Ok a
                         | None => climb stop (S fuel) h (get_parent nd)
                         end
            end) in Hc.
    destruct (h !! i) as [nd|] eqn:Hi; [|done].
    destruct (stop i nd) eqn:Hs; [done|].
    destruct (get_parent nd) as [p|] eqn:Hp; [|done].
    destruct (IH p Hc) as (x & Hx & Hlt). exists x. split; [|done].
    eapply nsteps_l; [|done]. by exists nd.
Qed.

(** A climb on a cycle never ends. *)
Lemma climb_cycle fuel i :
  tc (climbs stop h) i i → climb stop fuel h (Some i) = Diverge.
Proof.
  revert i. induction fuel as [|fuel IH]; intros i Hi; [done|].
  assert (∃ p, climbs stop h i p ∧ tc (climbs stop h) p p) as (p & Hip & Hp).
  { inversion Hi as [? ? Hii|? p ? Hip Hpi]; subst.
    - by exists i.
    - exists p. split; [done|]. by eapply tc_r. }
  destruct Hip as (nd & Hnd & Hs & Hpar). simpl. rewrite Hnd, Hs, Hpar. by apply IH.
Qed.

Lemma climb_to_cycle fuel i j :
  rtc (climbs stop h) i j → tc (climbs stop h) j j →
  climb stop fuel h (Some i) = Diverge.
Proof.
  intros Hij Hj. revert fuel. induction Hij as [i|i p j Hip _ IH]; intros fuel.
  { by apply climb_cycle. }
  destruct fuel as [|fuel]; [done|].
  destruct Hip as (nd & Hnd & Hs & Hpar). simpl. rewrite Hnd, Hs, Hpar. by apply IH.
Qed.

(** Out of the fuel of the store, out of any fuel. *)
Lemma climb_diverge fuel node :
  climb stop (S (length h)) h node = Diverge → climb stop fuel h node = Diverge.
Proof.
  intros Hc. destruct node as [i|]; [|done].
  destruct (climb_diverge_walk _ i Hc) as (x & Hx & Hlt).
  destruct (long_walk_cycle (climbs stop h) (length h) (length h) i x)
    as (j & Hij & Hj); [apply climbs_valid|done..|].
  by eapply climb_to_cycle.
Qed.

Lemma climb_fuel_enough fuel node res :
  climb stop fuel h node = res → res ≠ Diverge →
  climb stop (S (length h)) h node = res.
Proof.
  intros Hc Hres. destruct (climb stop (S (length h)) h node) as [a|e|] eqn:Hlen.
  - destruct (decide (fuel ≤ S (length h))) as [Hle|Hgt].
    + rewrite <- Hlen. by eapply climb_mono.
    + rewrite <- Hc. symmetry. eapply climb_mono; [done..|lia].
  - destruct (decide (fuel ≤ S (length h))) as [Hle|Hgt].
    + rewrite <- Hlen. by eapply climb_mono.
    + rewrite <- Hc. symmetry. eapply climb_mono; [done..|lia].
  - apply (climb_diverge fuel) in Hlen. congruence.
Qed.

End climb.

Lemma parent_node_loop_climb fuel h node :
  parent_node_loop fuel h node
  = climb (fun i nd => if is_container nd then Some i else None) fuel h node.
Proof.
  revert node. induction fuel as [|fuel IH]; intros node; [done|]. simpl.
  destruct node as [i|]; [|done]. destruct (h !! i) as [nd|]; [|done].
  by destruct (is_container nd).
Qed.

Lemma closing_node_loop_climb fuel h tag node :
  closing_node_loop fuel h tag node
  = climb (fun _ nd =>
      match kind nd with
      | DocHtmlNode _ _ => Some None
      | TagHtmlNode name _ _ =>
        if bool_decide (name = tag) then Some (Some (get_parent nd)) else None
      | DataHtmlNode _ => None
      end) fuel h node.
Proof.
  revert node. induction fuel as [|fuel IH]; intros node; [done|]. simpl.
  destruct node as [i|]; [|done]. destruct (h !! i) as [nd|]; [|done].
  destruct (kind nd) as [| name a ch |]; [done| |done]. by case_bool_decide.
Qed.

(** Whatever the two loops of the handlers return with some fuel, they
    return with the fuel of the store. *)
Lemma parent_node_loop_fuel_enough fuel h node res :
  parent_node_loop fuel h node = res → res ≠ Diverge →
  parent_node_loop (S (length h)) h node = res.
Proof. rewrite !parent_node_loop_climb. apply climb_fuel_enough. Qed.

Lemma closing_node_loop_fuel_enough fuel h tag node res :
  closing_node_loop fuel h tag node = res → res ≠ Diverge →
  closing_node_loop (S (length h)) h tag node = res.
Proof. rewrite !closing_node_loop_climb. apply climb_fuel_enough. Qed.

(** ** The handlers keep the invariant *)

Lemma wf_init : wf HtmlParser_init.
Proof.
  split; [done| | |].
  - split.
    + by eexists.
    + intros [|i] nd Hi Hne; [done|]. by destruct i.
    + intros [|[|p]] i Hl; by apply elem_of_nil in Hl.
    + intros [|[|p]]; constructor.
  - exists 0. repeat split; [simpl; lia|constructor|]. by intros t [=].
  - by intros [|[|p]].
Qed.

Lemma wf_add_node self c p pd node :
  wf self → _curr_node self = Some c →
  store self !! p = Some pd → is_container pd = true →
  (p = c ∨ (text_at (store self) c = true ∧ child_link (store self) p c)) →
  _parent_ref node = Some p → childs node = [] → is_doc node = false →
  (is_data node = false ∨ p = c) →
  wf {| store := add_node (store self) p node;
        _doc_node := _doc_node self;
        _curr_node := Some (length (store self)) |}.
Proof.
  intros [Hdoc Ht (c' & Hc' & Hlt & Hsp & Hlast) Hadj] Hc Hp Hcont Hpc Hpar Hch Hnd Hdata.
  assert (c' = c) as -> by congruence.
  assert (spine (store self) p) as Hsp'.
  { destruct Hpc as [->|[_ Hl]]; [done|].
    destruct (tree_child _ Ht p c Hl) as (cd & Hcd & Hcp).
    by destruct (spine_parent _ c cd p Ht Hsp Hcd Hcp). }
  split; simpl.
  - done.
  - by eapply tree_add_node.
  - exists (length (store self)). split; [done|]. split; [rewrite add_node_length; lia|].
    split; [by eapply spine_add_node_new|].
    rewrite add_node_childs_new, Hch. by intros t [=].
  - intros q. eapply adjacent_text_add_node; [done..|].
    destruct Hdata as [? | ->]; [by left|by right].
Qed.

Lemma wf_same_shape self h' r :
  wf self → (∀ i, shape <$> h' !! i = shape <$> store self !! i) →
  r = _curr_node self →
  wf {| store := h'; _doc_node := _doc_node self; _curr_node := r |}.
Proof.
  intros [Hdoc Ht (c & Hc & Hlt & Hsp & Hlast) Hadj] Hs ->. split; simpl.
  - done.
  - by eapply same_shape_tree.
  - exists c. split; [done|]. rewrite (same_shape_length _ _ Hs).
    split; [done|]. split; [by eapply same_shape_spine|].
    intros t. rewrite (same_shape_childs _ _ Hs), (same_shape_text _ _ Hs). apply Hlast.
  - intros p. rewrite (same_shape_childs _ _ Hs), (same_shape_adjacent _ _ Hs). apply Hadj.
Qed.

Lemma starttag_handle_wf tag attrs self :
  wf self →
  ∃ c p pd, _curr_node self = Some c ∧ nearest_container (store self) c p
    ∧ store self !! p = Some pd ∧ is_container pd = true
    ∧ _starttag_handle tag attrs self
      = Ok {| store := add_node (store self) p
                 (mkNode (Some p) (TagHtmlNode tag (dict_update ∅ attrs) []));
              _doc_node := _doc_node self;
              _curr_node := Some (length (store self)) |}
    ∧ wf {| store := add_node (store self) p
                 (mkNode (Some p) (TagHtmlNode tag (dict_update ∅ attrs) []));
            _doc_node := _doc_node self;
            _curr_node := Some (length (store self)) |}.
Proof.
  intros Hwf. pose proof Hwf as [Hdoc Ht (c & Hc & Hlt & Hsp & Hlast) Hadj].
  pose proof (tree_nonempty _ Ht) as Hlen.
  destruct (parent_node_loop_tree (store self) c (length (store self) - 1) Ht Hlt)
    as (p & pd & Hloop & Hp & Hcont & Hnear & Hpc).
  exists c, p, pd. split_and!; [done..| |].
  - unfold _starttag_handle, loop_fuel. rewrite Hc.
    replace (S (length (store self))) with (S (S (length (store self) - 1))) by lia.
    by rewrite Hloop.
  - eapply wf_add_node; [done..|by left].
Qed.

Lemma endtag_handle_wf tag self :
  wf self → ∃ self', _endtag_handle tag self = Ok self' ∧ wf self'.
Proof.
  intros Hwf. pose proof Hwf as [Hdoc Ht (c & Hc & Hlt & Hsp & Hlast) Hadj].
  destruct (chain_exists _ c Ht Hlt) as (l & Hl & Hlen).
  unfold _endtag_handle, loop_fuel. rewrite Hc.
  destruct (list_first_split (element_named (store self) tag) l)
    as [Hnone|(l1 & i & l2 & Heq & Hi & Hl1)].
  { rewrite (closing_node_loop_none _ tag c l); [|done|lia|done]. by exists self. }
  pose proof Hi as (nd & a & ch & Hnd & Hk).
  rewrite (closing_node_loop_found _ tag c l _ l1 i l2 nd); [|done|lia|done..].
  simpl. eexists. split; [done|].
  assert (spine (store self) i) as Hspi.
  { eapply chain_spine; [done..|]. rewrite Heq. apply elem_of_app. right. by left. }
  assert (i ≠ 0) as Hne.
  { intros ->. destruct (tree_root _ Ht) as (nd0 & H0 & Hd0 & _).
    assert (nd0 = nd) as -> by congruence. destruct nd as [r k]. simpl in *.
    by subst k. }
  destruct (tree_parent _ Ht i nd Hnd Hne) as (_ & p & Hp & Hpi & Hlink).
  destruct (spine_parent _ i nd p Ht Hspi Hnd Hp) as [Hspp Hlastp].
  split; simpl; [done..| |done].
  exists p. split; [done|]. split; [apply lookup_lt_Some in Hnd; lia|].
  split; [done|]. intros t Ht'. assert (t = i) as -> by congruence.
  unfold text_at. rewrite Hnd. destruct nd as [r k]. simpl in *. by subst k.
Qed.

Lemma data_handle_wf data self :
  wf self → ∃ self', _data_handle data self = Ok self' ∧ wf self'.
Proof.
  intros Hwf. pose proof Hwf as [Hdoc Ht (c & Hc & Hlt & Hsp & Hlast) Hadj].
  pose proof (tree_nonempty _ Ht) as Hlen.
  destruct (lookup_lt_is_Some_2 _ c Hlt) as [cd Hcd].
  unfold _data_handle. rewrite Hc. simpl. rewrite Hcd.
  destruct cd as [r [d ch|name a ch|d]].
  3: { eexists. split; [done|]. apply wf_same_shape; [done| |done].
       intros i. apply alter_shape_lookup, data_append_shape. }
  all: simpl; eexists; (split; [done|]).
  all: eapply (wf_add_node self c c); [done|done|done|done|by left|done|done|done|by right].
Qed.

Lemma decl_handle_wf decl self :
  wf self → ∃ self', _decl_handle decl self = Ok self' ∧ wf self'.
Proof.
  intros Hwf. eexists. split; [done|]. apply wf_same_shape; [done| |done].
  intros i. apply alter_shape_lookup, decl_append_shape.
Qed.

Section reachable.
Context {P : Platform}.

Lemma entityref_data_ok name : ∃ data, entityref_data name = Ok data.
Proof.
  unfold entityref_data, name2codepoint_getitem.
  destruct (name2codepoint !! name) as [code|]; simpl; [|by eexists].
  unfold chr. repeat case_bool_decide; simpl; by eexists.
Qed.

Lemma charref_data_ok name : ∃ data, charref_data name = Ok data.
Proof.
  unfold charref_data, int.
  destruct (bool_decide _); (destruct (int_parse _ _) as [code|]; simpl; [|by eexists]).
  all: unfold chr; repeat case_bool_decide; simpl; by eexists.
Qed.

Lemma handle_wf ev self :
  wf self → ∃ self', handle ev self = Ok self' ∧ wf self'.
Proof.
  intros Hwf. destruct ev as [tag attrs|tag|data|name|name|decl]; simpl.
  - destruct (starttag_handle_wf tag attrs self Hwf) as (c & p & pd & _ & _ & _ & _ & -> & ?).
    by eexists.
  - by apply endtag_handle_wf.
  - by apply data_handle_wf.
  - unfold _entityref_handle. destruct (entityref_data_ok name) as [data ->].
    by apply data_handle_wf.
  - unfold _charref_handle. destruct (charref_data_ok name) as [data ->].
    by apply data_handle_wf.
  - by apply decl_handle_wf.
Qed.

Lemma feed_wf events self :
  wf self → ∃ self', feed events self = Ok self' ∧ wf self'.
Proof.
  revert self. induction events as [|ev events IH]; intros self Hwf; simpl.
  { by exists self. }
  destruct (handle_wf ev self Hwf) as (self1 & -> & Hwf1). simpl. by apply IH.
Qed.

(** A fresh parser never raises and never loops, and ends in a state of the
    invariant. *)
Lemma feed_init_wf events :
  ∃ self, feed events HtmlParser_init = Ok self ∧ wf self.
Proof. apply feed_wf, wf_init. Qed.

Lemma feed_init_inv events self :
  feed events HtmlParser_init = Ok self → wf self.
Proof. intros H. destruct (feed_init_wf events) as (self' & H' & ?). congruence. Qed.

End reachable.

(** ** The end tag *)

(** C1: in every state a fresh parser reaches, an end tag whose name is
    carried by an Element of the chain cursor, parent, ... below the
    Document node moves the cursor to the parent of the nearest such
    Element and leaves the store alone; an end tag no Element of the chain
    carries leaves the whole state unchanged.  Neither case raises. *)
Theorem endtag_closes_nearest_open_element {P : Platform} events tag self :
  feed events HtmlParser_init = Ok self →
  ∃ c l, _curr_node self = Some c ∧ chain (store self) c l
    ∧ ((∀ j, j ∈ l → ¬ element_named (store self) tag j) →
       _endtag_handle tag self = Ok self)
    ∧ (∀ l1 i l2, l = l1 ++ i :: l2 →
       element_named (store self) tag i →
       (∀ j, j ∈ l1 → ¬ element_named (store self) tag j) →
       ∃ p, child_link (store self) p i
         ∧ _endtag_handle tag self
           = Ok {| store := store self;
                   _doc_node := _doc_node self;
                   _curr_node := Some p |}).
Proof.
  intros Hwf%feed_init_inv.
  pose proof Hwf as [Hdoc Ht (c & Hc & Hlt & Hsp & Hlast) Hadj].
  destruct (chain_exists _ c Ht Hlt) as (l & Hl & Hlen).
  exists c, l. split_and!; [done..| |].
  - intros Hnone. unfold _endtag_handle, loop_fuel. rewrite Hc.
    by rewrite (closing_node_loop_none _ tag c l); [|done|lia|done].
  - intros l1 i l2 Heq Hi Hl1. pose proof Hi as (nd & a & ch & Hnd & Hk).
    assert (i ≠ 0) as Hne.
    { intros ->. destruct (tree_root _ Ht) as (nd0 & H0 & Hd0 & _).
      assert (nd0 = nd) as -> by congruence. destruct nd as [r k]. simpl in *.
      by subst k. }
    destruct (tree_parent _ Ht i nd Hnd Hne) as (_ & p & Hp & Hpi & Hlink).
    exists p. split; [done|]. unfold _endtag_handle, loop_fuel. rewrite Hc.
    rewrite (closing_node_loop_found _ tag c l _ l1 i l2 nd); [|done|lia|done..].
    simpl. by rewrite Hp.
Qed.

Lemma endtag_closes_nearest_open_element_witness :
  @feed demo_platform demo_open_events HtmlParser_init = Ok demo_open_state
  ∧ ∃ c l, _curr_node demo_open_state = Some c ∧ chain (store demo_open_state) c l
    ∧ ((∀ j, j ∈ l → ¬ element_named (store demo_open_state) (str "b") j) →
       _endtag_handle (str "b") demo_open_state = Ok demo_open_state)
    ∧ (∀ l1 i l2, l = l1 ++ i :: l2 →
       element_named (store demo_open_state) (str "b") i →
       (∀ j, j ∈ l1 → ¬ element_named (store demo_open_state) (str "b") j) →
       ∃ p, child_link (store demo_open_state) p i
         ∧ _endtag_handle (str "b") demo_open_state
           = Ok {| store := store demo_open_state;
                   _doc_node := _doc_node demo_open_state;
                   _curr_node := Some p |}).
Proof.
  split; [reflexivity|].
  apply (@endtag_closes_nearest_open_element demo_platform demo_open_events).
  reflexivity.
Defined.

(** [<b><i>x</b>] leaves the cursor on the Document node, and a stray
    [</q>] changes nothing. *)
Example endtag_auto_close :
  _endtag_handle (str "b") demo_open_state
  = Ok {| store := store demo_open_state; _doc_node := 0; _curr_node := Some 0 |}
  ∧ _endtag_handle (str "q") demo_open_state = Ok demo_open_state.
Proof. split; reflexivity. Qed.

(** ** The start tag *)

Lemma dict_update_lookup (m : gmap pystr pystr) attrs k :
  dict_update m attrs !! k
  = match last (filter (fun kv => kv.1 = k) attrs) with
    | Some kv => Some kv.2
    | None => m !! k
    end.
Proof.
  unfold dict_update. induction attrs as [|kv attrs IH] using rev_ind; [done|].
  rewrite foldl_app, filter_app. simpl. destruct (decide (kv.1 = k)) as [Hk|Hk].
  - rewrite (filter_cons_True _ kv) by done. rewrite filter_nil, last_snoc, <- Hk.
    apply lookup_insert_eq.
  - rewrite (filter_cons_False _ kv), filter_nil, app_nil_r by done.
    by rewrite lookup_insert_ne.
Qed.

(** C2: in every state a fresh parser reaches, a start tag adds one node to
    the store, an Element with the given name whose parent reference is the
    nearest Document or Element node from the cursor upward; that parent
    gets the new node at the end of its child list and no other node
    changes; the cursor moves to the new node; an attribute of the new node
    has the value of the last pair of [attrs] with that name. *)
Theorem starttag_appends_element {P : Platform} events tag attrs self :
  feed events HtmlParser_init = Ok self →
  ∃ c p self' node_attrs,
    _curr_node self = Some c
    ∧ nearest_container (store self) c p
    ∧ _starttag_handle tag attrs self = Ok self'
    ∧ length (store self') = S (length (store self))
    ∧ store self' !! length (store self)
      = Some (mkNode (Some p) (TagHtmlNode tag node_attrs []))
    ∧ (∀ k, node_attrs !! k = snd <$> last (filter (fun kv => kv.1 = k) attrs))
    ∧ childs_of (store self') p = childs_of (store self) p ++ [length (store self)]
    ∧ (∀ i nd, store self !! i = Some nd →
       store self' !! i
       = Some (if decide (i = p) then childs_append (length (store self)) nd else nd))
    ∧ _curr_node self' = Some (length (store self))
    ∧ _doc_node self' = _doc_node self
    ∧ dict_update ∅ [(str "id", str "1"); (str "id", str "2")] !! str "id"
      = Some (str "2").
Proof.
  intros Hwf%feed_init_inv.
  destruct (starttag_handle_wf tag attrs self Hwf)
    as (c & p & pd & Hc & Hnear & Hp & Hcont & Heq & _).
  eexists c, p, _, (dict_update ∅ attrs).
  split_and!; [done|done|apply Heq|..|by vm_compute]; simpl.
  - apply add_node_length.
  - apply add_node_lookup_new.
  - intros k. rewrite dict_update_lookup.
    by destruct (last (filter _ attrs)).
  - by eapply add_node_childs_parent.
  - intros i nd Hi. case_decide as Hip.
    + subst i. by apply add_node_lookup_parent.
    + rewrite add_node_lookup_other; [done..|]. apply lookup_lt_Some in Hi. lia.
  - done.
  - done.
Qed.

Lemma starttag_appends_element_witness :
  @feed demo_platform demo_open_events HtmlParser_init = Ok demo_open_state
  ∧ ∃ c p self' node_attrs,
    _curr_node demo_open_state = Some c
    ∧ nearest_container (store demo_open_state) c p
    ∧ _starttag_handle (str "a") [(str "id", str "1"); (str "id", str "2")]
        demo_open_state = Ok self'
    ∧ length (store self') = S (length (store demo_open_state))
    ∧ store self' !! length (store demo_open_state)
      = Some (mkNode (Some p) (TagHtmlNode (str "a") node_attrs []))
    ∧ (∀ k, node_attrs !! k
       = snd <$> last (filter (fun kv => kv.1 = k)
                         [(str "id", str "1"); (str "id", str "2")]))
    ∧ childs_of (store self') p
      = childs_of (store demo_open_state) p ++ [length (store demo_open_state)]
    ∧ (∀ i nd, store demo_open_state !! i = Some nd →
       store self' !! i
       = Some (if decide (i = p)
               then childs_append (length (store demo_open_state)) nd else nd))
    ∧ _curr_node self' = Some (length (store demo_open_state))
    ∧ _doc_node self' = _doc_node demo_open_state
    ∧ dict_update ∅ [(str "id", str "1"); (str "id", str "2")] !! str "id"
      = Some (str "2").
Proof.
  split; [reflexivity|].
  apply (@starttag_appends_element demo_platform demo_open_events).
  reflexivity.
Defined.

(** [StartTag("a", [("id","1"),("id","2")])] after [<b><i>x]: the Text
    cursor is skipped, the Element goes under [i], and [id] is ["2"]. *)
Example starttag_last_write_wins :
  ∃ self', _starttag_handle (str "a") [(str "id", str "1"); (str "id", str "2")]
             demo_open_state = Ok self'
    ∧ _curr_node self' = Some 4
    ∧ childs_of (store self') 2 = [3; 4]
    ∧ store self' !! 4
      = Some (mkNode (Some 2) (TagHtmlNode (str "a") {[ str "id" := str "2" ]} [])).
Proof. eexists. split; [reflexivity|]. split_and!; [done..|]. simpl. by vm_compute. Qed.

(** ** References *)

Section references.
Context {P : Platform}.

Lemma entityref_data_resolve name :
  entityref_data name = Ok (resolve_named_entity name).
Proof.
  unfold entityref_data, resolve_named_entity, name2codepoint_getitem.
  destruct (name2codepoint !! name) as [code|]; simpl; [|done].
  unfold chr, valid_codepoint. repeat case_bool_decide; simpl; try done; lia.
Qed.

Lemma charref_data_resolve raw :
  charref_data raw = Ok (resolve_char_ref raw).
Proof.
  unfold charref_data, resolve_char_ref, int.
  assert (∀ o : option Z,
    try_except (code ← match o with Some v => Ok v | None => Raise ValueError end;
                chr code)
      [ValueError; ArithmeticError] (str "&#" ++ raw ++ str ";")
    = Ok match o with
         | Some code => if valid_codepoint code then [code]
                        else str "&#" ++ raw ++ str ";"
         | None => str "&#" ++ raw ++ str ";"
         end) as Htry.
  { intros [code|]; simpl; [|done].
    unfold chr, valid_codepoint. repeat case_bool_decide; simpl; try done; lia. }
  destruct raw as [|c rest].
  { rewrite bool_decide_eq_false_2 by done. apply Htry. }
  destruct (decide (c = 120%Z)) as [->|Hc].
  - rewrite !bool_decide_eq_true_2 by done. apply Htry.
  - rewrite !bool_decide_eq_false_2; [apply Htry|done|].
    intros [=]. by apply Hc.
Qed.

End references.

(** C4: the two reference handlers never raise while they resolve, and
    insert, through the data path, the text the resolver of the
    specification gives: the character of the table entry or of the parsed
    number (base 16 after a leading [x], base 10 otherwise) when it is a
    code point, the reference text [&name;] or [&#raw;] otherwise.  So
    [65] and [x41] insert [A], and [zzz] inserts [&#zzz;]. *)
Theorem references_resolve_or_fall_back {P : Platform} :
  (∀ name, entityref_data name = Ok (resolve_named_entity name))
  ∧ (∀ raw, charref_data raw = Ok (resolve_char_ref raw))
  ∧ (∀ name self,
       _entityref_handle name self = _data_handle (resolve_named_entity name) self)
  ∧ (∀ raw self,
       _charref_handle raw self = _data_handle (resolve_char_ref raw) self)
  ∧ (∀ events ev, is_Some (text_of ev) →
       ∃ self self', feed events HtmlParser_init = Ok self
                     ∧ handle ev self = Ok self')
  ∧ resolve_char_ref (str "65") = str "A"
  ∧ resolve_char_ref (str "x41") = str "A"
  ∧ resolve_char_ref (str "zzz") = str "&#zzz;".
Proof.
  split_and!.
  - apply entityref_data_resolve.
  - apply charref_data_resolve.
  - intros name self. unfold _entityref_handle. by rewrite entityref_data_resolve.
  - intros raw self. unfold _charref_handle. by rewrite charref_data_resolve.
  - intros events ev _. destruct (feed_init_wf events) as (self & Hfeed & Hwf).
    destruct (handle_wf ev self Hwf) as (self' & Hev & _). eauto.
  - reflexivity.
  - reflexivity.
  - reflexivity.
Qed.

(** The entity table decides named references: an entry inserts its
    character, a name without entry inserts the reference text. *)
Example entityref_amp_and_unknown :
  @resolve_named_entity demo_platform (str "amp") = str "&"
  ∧ @resolve_named_entity demo_platform (str "notarealentity")
    = str "&notarealentity;".
Proof. split; by vm_compute. Qed.

(** A number that is no code point falls back as well: [chr] refuses it
    with [ValueError], or with [OverflowError] when it does not fit a C
    int. *)
Example charref_not_a_codepoint {P : Platform} :
  charref_data (str "1114112") = Ok (str "&#1114112;")
  ∧ charref_data (str "99999999999") = Ok (str "&#99999999999;")
  ∧ charref_data (str "-5") = Ok (str "&#-5;")
  ∧ charref_data (str "X41") = Ok (str "&#X41;").
Proof. split_and!; reflexivity. Qed.

(** C10: the bodies [+65], [ 65 ] and [6_5] are no plain digit strings, yet
    [int] accepts the sign, the surrounding white space and the underscore
    between digits, so the handler inserts [A] and not the reference
    text. *)
Theorem charref_lenient_int_parse {P : Platform} :
  charref_data (str "+65") = Ok (str "A")
  ∧ charref_data (str " 65 ") = Ok (str "A")
  ∧ charref_data (str "6_5") = Ok (str "A")
  ∧ (∀ raw self, raw ∈ [str "+65"; str " 65 "; str "6_5"] →
       _charref_handle raw self = _data_handle (str "A") self)
  ∧ (∀ raw, raw ∈ [str "+65"; str " 65 "; str "6_5"] →
       feed [CharRef raw] HtmlParser_init
       = Ok {| store := [mkNode None (DocHtmlNode [] [1]);
                         mkNode (Some 0) (DataHtmlNode (str "A"))];
               _doc_node := 0;
               _curr_node := Some 1 |}).
Proof.
  split_and!; [reflexivity..| |].
  - intros raw self Hraw. repeat (apply elem_of_cons in Hraw as [->|Hraw]; [reflexivity|]).
    by apply elem_of_nil in Hraw.
  - intros raw Hraw. repeat (apply elem_of_cons in Hraw as [->|Hraw]; [reflexivity|]).
    by apply elem_of_nil in Hraw.
Qed.

(** ** Text *)

(** On a Text cursor the data goes to the end of its buffer. *)
Lemma data_handle_text data self c r d :
  _curr_node self = Some c → store self !! c = Some (mkNode r (DataHtmlNode d)) →
  _data_handle data self
  = Ok {| store := <[c := mkNode r (DataHtmlNode (d ++ data))]> (store self);
          _doc_node := _doc_node self;
          _curr_node := Some c |}.
Proof.
  intros Hc Hcd. unfold _data_handle. rewrite Hc. simpl. rewrite Hcd.
  do 2 f_equal. apply list_eq. intros i. destruct (decide (c = i)) as [->|Hne].
  - rewrite list_lookup_alter_eq, list_lookup_insert_eq, Hcd; [done|].
    by eapply lookup_lt_Some.
  - by rewrite list_lookup_alter_ne, list_lookup_insert_ne.
Qed.

(** On any other cursor a Text node is created under the insertion
    parent. *)
Lemma data_handle_new data self :
  (∀ c r d, _curr_node self = Some c →
            store self !! c ≠ Some (mkNode r (DataHtmlNode d))) →
  _data_handle data self
  = parent_node ← parent_node_loop (loop_fuel self) (store self) (_curr_node self);
    Ok {| store := add_node (store self) parent_node
                     (mkNode (Some parent_node) (DataHtmlNode data));
          _doc_node := _doc_node self;
          _curr_node := Some (length (store self)) |}.
Proof.
  intros Hnot. unfold _data_handle.
  destruct (_curr_node self) as [c|] eqn:Hc; [|done]. simpl.
  destruct (store self !! c) as [[r [| |d]]|] eqn:Hcd; try done.
  by destruct (Hnot c r d).
Qed.

Local Ltac not_text_cursor Hc Hcd :=
  let H := fresh in
  intros ? ? ? H; rewrite Hc in H; injection H as <-; rewrite Hcd;
  try congruence; intros ?; simplify_eq/=; done.

(** Two data events in a row are one data event with the texts joined, in
    every state, also one in which the handler raises. *)
Lemma data_handle_twice a b self :
  _data_handle a self ≫= _data_handle b = _data_handle (a ++ b) self.
Proof.
  destruct (_curr_node self) as [c|] eqn:Hc.
  2: { unfold _data_handle, loop_fuel. rewrite Hc. done. }
  destruct (store self !! c) as [[r k]|] eqn:Hcd.
  2: { rewrite !data_handle_new by not_text_cursor Hc Hcd.
       rewrite Hc. unfold loop_fuel. simpl. by rewrite Hcd. }
  destruct (decide (is_data (mkNode r k) = true)) as [Hd|Hd].
  - destruct k as [| |d]; try done.
    rewrite (data_handle_text a self c r d), (data_handle_text (a ++ b) self c r d) by done.
    simpl.
    rewrite (data_handle_text _ _ c r (d ++ a)); simpl; [|done|].
    + by rewrite list_insert_insert_eq, app_assoc.
    + apply list_lookup_insert_eq. by eapply lookup_lt_Some.
  - rewrite !data_handle_new by not_text_cursor Hc Hcd.
    destruct (parent_node_loop _ _ _) as [p| |]; [|done..]. simpl.
    rewrite (data_handle_text _ _ (length (store self)) (Some p) a); simpl.
    + do 2 f_equal. unfold add_node.
      rewrite <- (length_alter (childs_append (length (store self))) (store self) p) at 1.
      rewrite <- (Nat.add_0_r (length (alter _ p (store self)))).
      by rewrite insert_app_r.
    + done.
    + apply add_node_lookup_new.
Qed.

Section text.
Context {P : Platform}.

Lemma handle_text_of ev t self :
  text_of ev = Some t → handle ev self = _data_handle t self.
Proof.
  destruct ev as [| |data|name|raw|]; intros [= <-]; simpl; [done| |].
  - unfold _entityref_handle. by rewrite entityref_data_resolve.
  - unfold _charref_handle. by rewrite charref_data_resolve.
Qed.

Lemma feed_cons ev events self :
  feed (ev :: events) self = handle ev self ≫= feed events.
Proof. done. Qed.

(** A run of text-producing events is one data event with the texts
    joined. *)
Lemma feed_text_run evs ts rest self :
  evs ≠ [] → mapM text_of evs = Some ts →
  feed (evs ++ rest) self = feed (Data (concat ts) :: rest) self.
Proof.
  intros Hne Hts. revert ts Hts self. induction evs as [|e1 evs IH]; [done|].
  intros ts Hts self. apply mapM_Some in Hts.
  destruct ts as [|t1 ts]; [by apply Forall2_nil_inv_r in Hts|].
  apply Forall2_cons_1 in Hts as [Ht1 Hts].
  destruct evs as [|e2 evs].
  { apply Forall2_nil_inv_l in Hts as ->. simpl concat. rewrite app_nil_r.
    simpl app. rewrite !feed_cons. by rewrite (handle_text_of e1 t1). }
  destruct ts as [|t2 ts]; [by apply Forall2_nil_inv_r in Hts|].
  pose proof Hts as [Ht2 Hts']%Forall2_cons_1.
  change ((e1 :: e2 :: evs) ++ rest) with (e1 :: ((e2 :: evs) ++ rest)).
  rewrite feed_cons, (handle_text_of e1 t1) by done.
  transitivity (_data_handle t1 self ≫= fun s => feed (Data (concat (t2 :: ts)) :: rest) s).
  { destruct (_data_handle t1 self) as [s| |]; [|done..].
    assert (mapM text_of (e2 :: evs) = Some (t2 :: ts)) as Hm by (by apply mapM_Some).
    exact (IH ltac:(done) _ Hm s). }
  rewrite feed_cons. simpl concat. rewrite app_assoc.
  change (handle (Data ((t1 ++ t2) ++ concat ts)) self)
    with (_data_handle ((t1 ++ t2) ++ concat ts) self).
  rewrite <- app_assoc, <- (data_handle_twice t1).
  destruct (_data_handle t1 self) as [s| |]; done.
Qed.

End text.

(** C3: in every state a fresh parser reaches no child list holds two Text
    nodes side by side; a run of text-producing events (data, and what
    entity and character references resolve to) acts as one data event
    with the texts joined; on a Text cursor such an event adds no node and
    extends the buffer of the cursor.  [Data a] then [Data b] on a fresh
    parser leaves one Text node with buffer [a ++ b]. *)
Theorem text_events_coalesce {P : Platform} events self :
  feed events HtmlParser_init = Ok self →
  (∀ p, adjacent_text (store self) (childs_of (store self) p) = false)
  ∧ (∀ evs ts rest, evs ≠ [] → mapM text_of evs = Some ts →
       feed (evs ++ rest) self = feed (Data (concat ts) :: rest) self)
  ∧ (∀ ev t c r d, text_of ev = Some t → _curr_node self = Some c →
       store self !! c = Some (mkNode r (DataHtmlNode d)) →
       handle ev self
       = Ok {| store := <[c := mkNode r (DataHtmlNode (d ++ t))]> (store self);
               _doc_node := _doc_node self;
               _curr_node := Some c |})
  ∧ (∀ ev t, text_of ev = Some t →
       ∃ self' c r d, handle ev self = Ok self' ∧ _curr_node self' = Some c
         ∧ store self' !! c = Some (mkNode r (DataHtmlNode d)))
  ∧ (∀ a b, feed [Data a; Data b] HtmlParser_init
       = Ok {| store := [mkNode None (DocHtmlNode [] [1]);
                         mkNode (Some 0) (DataHtmlNode (a ++ b))];
               _doc_node := 0;
               _curr_node := Some 1 |}).
Proof.
  intros Hwf%feed_init_inv. split_and!.
  - apply (wf_text _ Hwf).
  - intros evs ts rest. apply feed_text_run.
  - intros ev t c r d Ht Hc Hcd. rewrite (handle_text_of ev t) by done.
    by apply data_handle_text.
  - intros ev t Ht. rewrite (handle_text_of ev t) by done.
    pose proof Hwf as [Hdoc Htree (c & Hc & Hlt & Hsp & Hlast) Hadj].
    destruct (lookup_lt_is_Some_2 _ c Hlt) as [[r k] Hcd].
    destruct (decide (is_data (mkNode r k) = true)) as [Hd|Hd].
    + destruct k as [| |d]; try done.
      rewrite (data_handle_text _ self c r d) by done.
      eexists _, c, r, _. split_and!; [done..|]. simpl.
      apply list_lookup_insert_eq. by eapply lookup_lt_Some.
    + rewrite data_handle_new by not_text_cursor Hc Hcd.
      pose proof (tree_nonempty _ Htree) as Hlen.
      destruct (parent_node_loop_tree (store self) c (length (store self) - 1) Htree Hlt)
        as (p & pd & Hloop & _).
      unfold loop_fuel. rewrite Hc.
      replace (S (length (store self))) with (S (S (length (store self) - 1))) by lia.
      rewrite Hloop. simpl. eexists _, _, _, _. split_and!; [done..|]. simpl.
      apply add_node_lookup_new.
  - intros a b. reflexivity.
Qed.

Lemma text_events_coalesce_witness :
  @feed demo_platform demo_open_events HtmlParser_init = Ok demo_open_state
  ∧ @feed demo_platform [Data (str "y"); CharRef (str "x41"); EntityRef (str "amp")]
      demo_open_state
    = Ok {| store := [mkNode None (DocHtmlNode [] [1]);
                      mkNode (Some 0) (TagHtmlNode (str "b") ∅ [2]);
                      mkNode (Some 1) (TagHtmlNode (str "i") ∅ [3]);
                      mkNode (Some 2) (DataHtmlNode (str "xyA&"))];
            _doc_node := 0;
            _curr_node := Some 3 |}.
Proof.
  split; [reflexivity|].
  destruct (@text_events_coalesce demo_platform demo_open_events demo_open_state eq_refl)
    as (_ & Hrun & _).
  rewrite <- (app_nil_r [Data _; _; _]).
  rewrite (Hrun _ [str "y"; str "A"; str "&"] []); [reflexivity|done|reflexivity].
Defined.

(** ** The tree *)

Lemma tree_tc_lt h i j : tree h → tc (child_link h) i j → i < j.
Proof.
  intros Ht. induction 1 as [i j Hl|i k j Hl _ IH].
  - by apply (tree_link_lt h i j Ht) in Hl as [? _].
  - apply (tree_link_lt h i k Ht) in Hl as [? _]. lia.
Qed.

Lemma tree_acyclic h i : tree h → ¬ tc (child_link h) i i.
Proof. intros Ht Hi%(tree_tc_lt h i i Ht). lia. Qed.

Lemma tree_link_functional h p q i :
  tree h → child_link h p i → child_link h q i → p = q.
Proof.
  intros Ht (nd & Hi & Hp)%(tree_child h Ht) (nd' & Hi' & Hq)%(tree_child h Ht).
  congruence.
Qed.

Lemma tree_forest h : tree h → forest h.
Proof.
  intros Ht. split.
  - intros i. by apply tree_acyclic.
  - intros p q i. by apply tree_link_functional.
  - apply (tree_nodup h Ht).
Qed.

Lemma tree_unique_doc h i nd :
  tree h → h !! i = Some nd → is_doc nd = true ↔ i = 0.
Proof.
  intros Ht Hi. split.
  - intros Hd. destruct (decide (i = 0)) as [|Hne]; [done|].
    destruct (tree_parent h Ht i nd Hi Hne) as [? _]. congruence.
  - intros ->. destruct (tree_root h Ht) as (nd0 & H0 & Hd & _). congruence.
Qed.

Lemma child_path_snoc h l q i :
  child_path h l → last l = Some q → child_link h q i → child_path h (l ++ [i]).
Proof.
  induction l as [|a [|b r] IH]; [done| |].
  - intros _ [= ->] Hl. by split.
  - intros [Hab Hr] Hlast Hl. split; [done|]. by apply IH.
Qed.

Lemma child_path_snoc_inv h l i :
  child_path h (l ++ [i]) →
  l = [] ∨ ∃ q, last l = Some q ∧ child_link h q i ∧ child_path h l.
Proof.
  induction l as [|a [|b r] IH]; [by left| |]; intros Hp; right.
  - exists a. by destruct Hp.
  - destruct Hp as [Hab Hr]. destruct (IH Hr) as [?|(q & Hq & Hl & Hr')]; [done|].
    exists q. by repeat split.
Qed.

Lemma tree_path_exists h i :
  tree h → i < length h → ∃ l, path_from h 0 i l.
Proof.
  intros Ht. induction i as [i IH] using lt_wf_ind. intros Hi.
  destruct (decide (i = 0)) as [->|Hne].
  { exists [0]. by repeat split. }
  destruct (lookup_lt_is_Some_2 h i Hi) as [nd Hnd].
  destruct (tree_parent h Ht i nd Hnd Hne) as (_ & p & Hp & Hlt & Hl).
  destruct (IH p Hlt) as (l & Hhead & Hlast & Hpath); [lia|].
  exists (l ++ [i]). split_and!.
  - destruct l; [done|]. done.
  - apply last_snoc.
  - by eapply child_path_snoc.
Qed.

Lemma tree_path_unique h i l l' :
  tree h → path_from h 0 i l → path_from h 0 i l' → l = l'.
Proof.
  intros Ht. revert l l'. induction i as [i IH] using lt_wf_ind.
  assert (∀ l, path_from h 0 i l →
    (i = 0 ∧ l = [0]) ∨ ∃ p l0, l = l0 ++ [i] ∧ child_link h p i ∧ path_from h 0 p l0)
    as Hinv.
  { intros l (Hhead & [l0 ->]%last_Some & Hpath).
    destruct (child_path_snoc_inv h l0 i Hpath) as [->|(q & Hq & Hl & Hp0)].
    - left. simpl in Hhead. by simplify_eq.
    - right. exists q, l0. split_and!; try done. by destruct l0. }
  intros l l' [[-> ->]|(p & l0 & -> & Hp & Hl0)]%Hinv
               [[Hi ->]|(p' & l0' & -> & Hp' & Hl0')]%Hinv; try done.
  - apply (tree_link_lt h p' 0 Ht) in Hp'. lia.
  - subst i. apply (tree_link_lt h p 0 Ht) in Hp. lia.
  - assert (p' = p) as -> by (by eapply tree_link_functional).
    f_equal. apply (IH p); [|done..]. by apply (tree_link_lt h p i Ht) in Hp as [? _].
Qed.

(** C8: in every state a fresh parser reaches, the store is one tree under
    the only Document node: every node has exactly one path of child links
    from the Document node; a node other than the Document is in the child
    list of the node its parent reference gives, once, and in no other child
    list; no node is below itself; child lists hold nodes of the store;
    and the cursor is a node of the store, at first the Document node. *)
Theorem builder_keeps_single_tree {P : Platform} events self :
  feed events HtmlParser_init = Ok self →
  (∀ i nd, store self !! i = Some nd → is_doc nd = true ↔ i = _doc_node self)
  ∧ (∀ i, i < length (store self) →
       ∃ l, path_from (store self) (_doc_node self) i l
            ∧ ∀ l', path_from (store self) (_doc_node self) i l' → l' = l)
  ∧ (∀ nd, store self !! _doc_node self = Some nd → get_parent nd = None)
  ∧ (∀ i nd, store self !! i = Some nd → i ≠ _doc_node self →
       ∃ p, get_parent nd = Some p ∧ child_link (store self) p i
            ∧ ∀ q, child_link (store self) q i → q = p)
  ∧ (∀ p, NoDup (childs_of (store self) p))
  ∧ (∀ p i, child_link (store self) p i → i < length (store self))
  ∧ (∀ i, ¬ tc (child_link (store self)) i i)
  ∧ (∃ c, _curr_node self = Some c ∧ c < length (store self))
  ∧ _curr_node HtmlParser_init = Some (_doc_node HtmlParser_init).
Proof.
  intros Hwf%feed_init_inv.
  pose proof Hwf as [Hdoc Ht (c & Hc & Hlt & Hsp & Hlast) Hadj].
  rewrite Hdoc. split_and!.
  - intros i nd Hi. by apply (tree_unique_doc (store self)).
  - intros i Hi. destruct (tree_path_exists _ i Ht Hi) as [l Hl].
    exists l. split; [done|]. intros l' Hl'. by eapply tree_path_unique.
  - intros nd Hnd. destruct (tree_root _ Ht) as (nd0 & H0 & _ & Hnone).
    unfold get_parent. congruence.
  - intros i nd Hi Hne. destruct (tree_parent _ Ht i nd Hi Hne) as (_ & p & Hp & _ & Hl).
    exists p. split_and!; [done..|]. intros q Hq. by eapply tree_link_functional.
  - apply (tree_nodup _ Ht).
  - intros p i Hl. by apply (tree_link_lt _ p i Ht) in Hl as [_ ?].
  - intros i. by apply tree_acyclic.
  - by exists c.
  - done.
Qed.

Lemma builder_keeps_single_tree_witness :
  @feed demo_platform demo_open_events HtmlParser_init = Ok demo_open_state
  ∧ (∀ i, i < length (store demo_open_state) →
       ∃ l, path_from (store demo_open_state) (_doc_node demo_open_state) i l
            ∧ ∀ l', path_from (store demo_open_state) (_doc_node demo_open_state) i l'
                    → l' = l)
  ∧ (∀ i, ¬ tc (child_link (store demo_open_state)) i i).
Proof.
  split; [reflexivity|].
  destruct (@builder_keeps_single_tree demo_platform demo_open_events demo_open_state
              eq_refl) as (_ & Hpath & _ & _ & _ & _ & Hcyc & _).
  by split.
Defined.

(** ** Traversal *)

Lemma not_container_childs h node :
  from_option is_container false (h !! node) = false → childs_of h node = [].
Proof. unfold childs_of. by destruct (h !! node) as [[r []]|]. Qed.

Lemma for_node_iter_all h l acc :
  for_node_iter h false l acc = (l, acc ++ (l ≫= childs_of h)).
Proof.
  revert acc. induction l as [|node l IH]; intros acc; simpl.
  { by rewrite app_nil_r. }
  rewrite andb_false_r, andb_true_r.
  destruct (from_option is_container false (h !! node)) eqn:Hc.
  - rewrite IH. by rewrite <- app_assoc.
  - rewrite IH, (not_container_childs h node Hc). done.
Qed.

Lemma for_node_iter_direct h l acc :
  for_node_iter h true l acc = (l ≫= childs_of h, acc).
Proof.
  induction l as [|node l IH]; simpl; [done|].
  rewrite andb_false_r, andb_true_r, IH.
  destruct (from_option is_container false (h !! node)) eqn:Hc; [done|].
  by rewrite (not_container_childs h node Hc).
Qed.

Lemma level_shift h roots k :
  level h roots (S k) = level h (roots ≫= childs_of h) k.
Proof. induction k as [|k IH]; [done|]. simpl in *. by rewrite IH. Qed.

Lemma level_nil h k : level h [] k = [].
Proof. induction k as [|k IH]; [done|]. simpl. by rewrite IH. Qed.

Lemma level_nil_mono h roots k k' :
  level h roots k = [] → k ≤ k' → level h roots k' = [].
Proof.
  intros Hk. induction 1 as [|k' _ IH]; [done|]. simpl. by rewrite IH.
Qed.

Lemma levels_S h roots n :
  levels h roots (S n) = levels h roots n ++ level h roots n.
Proof.
  unfold levels. rewrite seq_S, fmap_app, concat_app. simpl. by rewrite app_nil_r.
Qed.

Lemma levels_shift h roots n :
  levels h roots (S n) = roots ++ levels h (roots ≫= childs_of h) n.
Proof.
  induction n as [|n IH]; [unfold levels; simpl; by rewrite app_nil_r|].
  rewrite levels_S, IH, (levels_S h (roots ≫= childs_of h)), level_shift.
  by rewrite app_assoc.
Qed.

Lemma elem_of_levels h roots n x :
  x ∈ levels h roots n ↔ ∃ k, k < n ∧ x ∈ level h roots k.
Proof.
  induction n as [|n IH].
  { split; [by intros ?%elem_of_nil|]. intros (k & ? & _). lia. }
  rewrite levels_S, elem_of_app, IH. split.
  - intros [(k & ? & ?)|?]; [exists k|exists n]; split; auto with lia.
  - intros (k & Hk & Hx). destruct (decide (k = n)) as [->|]; [by right|].
    left. exists k. split; [lia|done].
Qed.

(** The loop yields the levels in order, and ends with the first empty
    one. *)
Lemma get_all_nodes_loop_levels h fuel l d :
  level h l (S d) = [] → d < fuel →
  get_all_nodes_loop fuel h false l = Ok (levels h l (S d)).
Proof.
  revert l d. induction fuel as [|fuel IH]; intros l d Hd Hlt; [lia|].
  simpl. rewrite for_node_iter_all. simpl.
  destruct (l ≫= childs_of h) as [|x next] eqn:Hnext.
  - rewrite levels_shift, Hnext. f_equal. unfold levels.
    assert (∀ n, concat (level h [] <$> seq 0 n) = []) as ->; [|by rewrite app_nil_r].
    intros n. generalize 0. induction n as [|n IHn]; intros j; [done|].
    simpl. by rewrite level_nil, IHn.
  - destruct d as [|d]; [simpl in Hd; congruence|].
    rewrite level_shift, Hnext in Hd.
    rewrite (IH (x :: next) d Hd) by lia. simpl.
    by rewrite (levels_shift h l (S d)), Hnext.
Qed.

Lemma level_nsteps h roots k x :
  x ∈ level h roots k ↔ ∃ r, r ∈ roots ∧ nsteps (child_link h) k r x.
Proof.
  revert x. induction k as [|k IH]; intros x; simpl.
  - split.
    + intros Hx. exists x. split; [done|constructor].
    + intros (r & Hr & Hn). by inv Hn.
  - rewrite list_elem_of_bind. split.
    + intros (y & Hxy & (r & Hr & Hn)%IH). exists r. split; [done|].
      by eapply nsteps_r.
    + intros (r & Hr & (y & Hn & Hy)%nsteps_inv_r). exists y. split; [done|].
      apply IH. eauto.
Qed.

(** A walk down a forest passes through distinct nodes of the store. *)
Lemma nsteps_bounded h n r x :
  (∀ i, ¬ tc (child_link h) i i) → nsteps (child_link h) n r x → n ≤ length h.
Proof.
  intros Hacyc Hn.
  assert (∃ l, length l = n ∧ NoDup l ∧ (∀ y, y ∈ l → y < length h)
               ∧ ∀ y, y ∈ l → rtc (child_link h) r y) as (l & <- & Hnd & Hlt & _).
  { induction Hn as [x|n r y x Hry _ (l & Hlen & Hnd & Hlt & Hrtc)].
    { exists []. split_and!; [done|constructor|by intros ? ?%elem_of_nil..]. }
    exists (r :: l). split_and!.
    - simpl. by rewrite Hlen.
    - constructor; [|done]. intros Hr%Hrtc. apply (Hacyc r).
      eapply tc_rtc_r; [by apply tc_once|done].
    - intros z [->|Hz]%elem_of_cons; [|by apply Hlt].
      apply child_link_lookup in Hry as (pd & Hpd & _). by eapply lookup_lt_Some.
    - intros z [->|Hz]%elem_of_cons; [done|]. eapply rtc_l; [done|]. by apply Hrtc. }
  by apply NoDup_bounded_length.
Qed.

Lemma forest_level_bound h roots :
  forest h → level h roots (S (length h)) = [].
Proof.
  intros Hf. destruct (level h roots (S (length h))) as [|x l] eqn:Hl; [done|].
  assert (x ∈ level h roots (S (length h))) as (r & _ & Hn)%level_nsteps
    by (rewrite Hl; by left).
  apply nsteps_bounded in Hn; [lia|]. apply (forest_acyclic h Hf).
Qed.

Lemma forest_level_NoDup h roots k :
  forest h → NoDup roots → NoDup (level h roots k).
Proof.
  intros Hf Hnd. induction k as [|k IH]; [done|]. simpl.
  apply NoDup_bind; [|intros; apply (forest_nodup h Hf)|done].
  intros p q i _ _ Hp Hq. by apply (forest_parent h Hf p q i).
Qed.

(** Two walks down to the same node are one the end of the other. *)
Lemma forest_nsteps_suffix h j k r1 r2 x :
  forest h → nsteps (child_link h) j r1 x → nsteps (child_link h) k r2 x →
  j ≤ k → nsteps (child_link h) (k - j) r2 r1.
Proof.
  intros Hf. revert k x. induction j as [|j IH]; intros k x Hj Hk Hle.
  { inv Hj. by rewrite Nat.sub_0_r. }
  destruct k as [|k]; [lia|].
  apply nsteps_inv_r in Hj as (y & Hj & Hy). apply nsteps_inv_r in Hk as (y' & Hk & Hy').
  assert (y' = y) as -> by (by apply (forest_parent h Hf y' y x)).
  apply (IH k y); [done..|lia].
Qed.

Lemma forest_levels_NoDup h roots n :
  forest h → disjoint_subtrees h roots → NoDup (levels h roots n).
Proof.
  intros Hf [Hnd Hdis]. induction n as [|n IH]; [constructor|].
  rewrite levels_S. apply NoDup_app. split; [done|]. split;
    [|by apply forest_level_NoDup].
  intros x (j & Hj & (r1 & Hr1 & Hn1)%level_nsteps)%elem_of_levels
           (r2 & Hr2 & Hn2)%level_nsteps.
  pose proof (forest_nsteps_suffix h j n r1 r2 x Hf Hn1 Hn2 ltac:(lia)) as Hsuf.
  assert (tc (child_link h) r2 r1) as Htc.
  { apply tc_nsteps. exists (n - j). split; [lia|done]. }
  assert (r1 = r2) as -> by (apply (Hdis r1 r2 r1); [done..|by apply tc_rtc]).
  by apply (forest_acyclic h Hf r2).
Qed.

Lemma levels_subtrees h roots d x :
  level h roots (S d) = [] →
  x ∈ levels h roots (S d) ↔ ∃ r, r ∈ roots ∧ rtc (child_link h) r x.
Proof.
  intros Hd. rewrite elem_of_levels. split.
  - intros (k & _ & (r & Hr & Hn)%level_nsteps). exists r. split; [done|].
    by eapply rtc_nsteps_2.
  - intros (r & Hr & [k Hn]%rtc_nsteps_1).
    assert (x ∈ level h roots k) as Hx by (apply level_nsteps; eauto).
    exists k. split; [|done]. destruct (decide (k < S d)) as [|Hge]; [done|].
    rewrite (level_nil_mono h roots (S d) k) in Hx by (done || lia).
    by apply elem_of_nil in Hx.
Qed.

(** The walk too ends with the fuel of the store when it ends at all. *)
Lemma get_all_nodes_loop_ends h fuel l out :
  get_all_nodes_loop fuel h false l = Ok out →
  ∃ d, d < fuel ∧ level h l (S d) = [] ∧ out = levels h l (S d).
Proof.
  revert l out. induction fuel as [|fuel IH]; intros l out Hout; [done|].
  simpl in Hout. rewrite for_node_iter_all in Hout. simpl in Hout.
  destruct (l ≫= childs_of h) as [|x next] eqn:Hnext.
  - exists 0. split; [lia|]. split; [done|]. injection Hout as <-.
    rewrite levels_shift. unfold levels. simpl. by rewrite app_nil_r.
  - destruct (get_all_nodes_loop fuel h false (x :: next)) as [rest| |] eqn:Hrest;
      [|done..].
    injection Hout as <-. destruct (IH _ _ Hrest) as (d & Hd & Hnil & ->).
    exists (S d). split; [lia|]. rewrite level_shift, Hnext. split; [done|].
    by rewrite (levels_shift h l (S d)), Hnext.
Qed.

Lemma levels_stable h l n m :
  level h l n = [] → n ≤ m → levels h l m = levels h l n.
Proof.
  intros Hn. induction 1 as [|m Hle IH]; [done|].
  by rewrite levels_S, IH, (level_nil_mono h l n m), app_nil_r.
Qed.

Lemma nsteps_iter {A} (R : relation A) p k i :
  nsteps R p i i → nsteps R (k * p) i i.
Proof.
  intros Hp. induction k as [|k IH]; [constructor|]. simpl. by eapply nsteps_trans.
Qed.

Lemma level_bound_of_end h l d :
  level h l (S d) = [] → level h l (S (length h)) = [].
Proof.
  intros Hd. destruct (level h l (S (length h))) as [|x rest] eqn:Hl; [done|].
  exfalso.
  assert (x ∈ level h l (S (length h))) as (r & Hr & Hn)%level_nsteps
    by (rewrite Hl; by left).
  apply nsteps_inv_r in Hn as (y & Hn & Hyx).
  destruct (long_walk_cycle (child_link h) (length h) (length h) r y)
    as (i & [a Ha]%rtc_nsteps_1 & (p & Hp & Hcyc)%tc_nsteps); [|done| |done|].
  { intros ? ? (pd & ?%lookup_lt_Some & _)%child_link_lookup. done. }
  { apply child_link_lookup in Hyx as (pd & ?%lookup_lt_Some & _). done. }
  assert (i ∈ level h l (a + S d * p)) as Hi.
  { apply level_nsteps. exists r. split; [done|].
    eapply nsteps_trans; [done|]. by apply nsteps_iter. }
  rewrite (level_nil_mono h l (S d)) in Hi; [by apply elem_of_nil in Hi|done|nia].
Qed.

Lemma get_all_nodes_loop_fuel_enough h fuel direct_only l out :
  get_all_nodes_loop fuel h direct_only l = Ok out →
  get_all_nodes_loop (S (length h)) h direct_only l = Ok out.
Proof.
  destruct direct_only.
  - destruct fuel as [|fuel]; [done|]. simpl. by rewrite for_node_iter_direct.
  - intros (d & _ & Hd & ->)%get_all_nodes_loop_ends.
    pose proof (level_bound_of_end h l d Hd) as Hlen.
    rewrite (get_all_nodes_loop_levels h (S (length h)) l (length h)) by (done || lia).
    f_equal. destruct (decide (d ≤ length h)).
    + apply levels_stable; [done|lia].
    + symmetry. apply levels_stable; [done|lia].
Qed.

Lemma demo_tree_built :
  @feed demo_platform demo_tree_events HtmlParser_init = Ok demo_tree_state.
Proof. reflexivity. Qed.

Lemma demo_tree_forest : forest demo_tree.
Proof.
  apply tree_forest.
  exact (wf_tree _ (@feed_init_inv demo_platform _ _ demo_tree_built)).
Qed.

(** C5, as amended: over a forest the walk ends and yields the levels in
    order (level 0 the roots, each next level the children of the nodes of
    the level, left to right); a node is yielded when and only when it is
    in the closed subtree of a root, Text nodes having no children; it is
    yielded once when the subtrees of the roots do not overlap. *)
Theorem traverse_breadth_first h roots :
  forest h →
  (∃ d, level h roots (S d) = []
    ∧ get_all_nodes h roots None = Ok (levels h roots (S d))
    ∧ get_all_nodes h roots (Some false) = Ok (levels h roots (S d))
    ∧ (∀ x, x ∈ levels h roots (S d) ↔ ∃ r, r ∈ roots ∧ rtc (child_link h) r x)
    ∧ (∀ i, text_at h i = true → childs_of h i = [])
    ∧ (disjoint_subtrees h roots → NoDup (levels h roots (S d))))
  ∧ get_all_nodes demo_tree [0] None = Ok [0; 1; 2; 3].
Proof.
  intros Hf. split; [|reflexivity]. exists (length h).
  pose proof (forest_level_bound h roots Hf) as Hd. split_and!.
  - done.
  - apply (get_all_nodes_loop_levels h (S (length h)) roots (length h)); [done|lia].
  - apply (get_all_nodes_loop_levels h (S (length h)) roots (length h)); [done|lia].
  - intros x. by apply levels_subtrees.
  - intros i. unfold text_at, childs_of. by destruct (h !! i) as [[r []]|].
  - intros Hdis. by apply forest_levels_NoDup.
Qed.

Lemma traverse_breadth_first_witness :
  forest demo_tree
  ∧ (∃ d, level demo_tree [0] (S d) = []
    ∧ get_all_nodes demo_tree [0] None = Ok (levels demo_tree [0] (S d))
    ∧ get_all_nodes demo_tree [0] (Some false) = Ok (levels demo_tree [0] (S d))
    ∧ (∀ x, x ∈ levels demo_tree [0] (S d)
            ↔ ∃ r, r ∈ [0] ∧ rtc (child_link demo_tree) r x)
    ∧ (∀ i, text_at demo_tree i = true → childs_of demo_tree i = [])
    ∧ (disjoint_subtrees demo_tree [0] → NoDup (levels demo_tree [0] (S d))))
  ∧ get_all_nodes demo_tree [0] None = Ok [0; 1; 2; 3].
Proof.
  split; [exact demo_tree_forest|].
  exact (traverse_breadth_first demo_tree [0] demo_tree_forest).
Defined.

(** A single root has a subtree that overlaps with no other: every node
    below it is yielded once. *)
Lemma traverse_single_root h r :
  forest h →
  ∃ out, get_all_nodes h [r] None = Ok out ∧ NoDup out
    ∧ ∀ x, x ∈ out ↔ rtc (child_link h) r x.
Proof.
  intros Hf. pose proof (forest_level_bound h [r] Hf) as Hd.
  exists (levels h [r] (S (length h))). split_and!.
  - apply (get_all_nodes_loop_levels h (S (length h)) [r] (length h)); [done|lia].
  - apply forest_levels_NoDup; [done|]. split; [apply NoDup_singleton|].
    by intros r1 r2 x ->%list_elem_of_singleton ->%list_elem_of_singleton.
  - intros x. rewrite (levels_subtrees h [r] (length h) x Hd). split.
    + by intros (r' & ->%list_elem_of_singleton & ?).
    + intros Hx. exists r. split; [by apply list_elem_of_singleton|done].
Qed.

(** With the roots [doc, a] the subtree of [a] is walked twice: [a], [b]
    and [c] are yielded two times each. *)
Lemma traverse_overlapping_roots :
  forest demo_tree
  ∧ get_all_nodes demo_tree [0; 1] None = Ok [0; 1; 1; 2; 3; 2; 3]
  ∧ ¬ NoDup [0; 1; 1; 2; 3; 2; 3].
Proof.
  split; [exact demo_tree_forest|]. split; [reflexivity|].
  intros Hnd. apply NoDup_cons in Hnd as [_ Hnd]. apply NoDup_cons in Hnd as [Hnot _].
  apply Hnot. by left.
Qed.

Lemma tc_last_step {A} (R : relation A) x z :
  tc R x z → ∃ y, rtc R x y ∧ R y z.
Proof.
  induction 1 as [x z Hxz|x y z Hxy _ (y' & Hy & Hz)].
  - by exists x.
  - exists y'. split; [|done]. by eapply rtc_l.
Qed.

(** C6, as amended: in the direct mode the walk yields the child lists of
    the roots one after the other, in root order, and nothing else, in
    every store; over a forest in which no root is below a root (a single
    root, say) no root is yielded, and no node below a child of a root. *)
Theorem traverse_direct_only h roots :
  get_all_nodes h roots (Some true) = Ok (roots ≫= childs_of h)
  ∧ (∀ x, x ∈ roots ≫= childs_of h ↔ ∃ r, r ∈ roots ∧ child_link h r x)
  ∧ (forest h →
     (∀ q r, q ∈ roots → r ∈ roots → ¬ tc (child_link h) q r) →
     (∀ r, r ∈ roots → r ∉ roots ≫= childs_of h)
     ∧ (∀ r c x, r ∈ roots → child_link h r c → tc (child_link h) c x →
          x ∉ roots ≫= childs_of h))
  ∧ (forest h → ∀ r,
     get_all_nodes h [r] (Some true) = Ok (childs_of h r)
     ∧ (r ∉ childs_of h r)
     ∧ (∀ c x, child_link h r c → tc (child_link h) c x → x ∉ childs_of h r)).
Proof.
  assert (∀ x, x ∈ roots ≫= childs_of h ↔ ∃ r, r ∈ roots ∧ child_link h r x) as Hin.
  { intros x. rewrite list_elem_of_bind. unfold child_link.
    split; intros (r & ? & ?); by exists r. }
  assert (∀ l, get_all_nodes h l (Some true) = Ok (l ≫= childs_of h)) as Hget.
  { intros l. unfold get_all_nodes. simpl. by rewrite for_node_iter_direct. }
  split_and!; [done..| |].
  - intros Hf Hroots. split.
    + intros r Hr (q & Hq & Hl)%Hin. apply (Hroots q r); [done..|]. by apply tc_once.
    + intros r c x Hr Hrc Hcx (q & Hq & Hl)%Hin.
      destruct (tc_last_step _ c x Hcx) as (y & Hcy & Hyx).
      assert (y = q) as -> by (by apply (forest_parent h Hf y q x)).
      apply (Hroots r q); [done..|].
      eapply tc_rtc_r; [apply tc_once, Hrc|exact Hcy].
  - intros Hf r. rewrite Hget. simpl. rewrite app_nil_r. split_and!; [done| |].
    + intros Hr. apply (forest_acyclic h Hf r). by apply tc_once.
    + intros c x Hrc Hcx Hx.
      destruct (tc_last_step _ c x Hcx) as (y & Hcy & Hyx).
      assert (y = r) as -> by (by apply (forest_parent h Hf y r x)).
      apply (forest_acyclic h Hf r).
      eapply tc_rtc_r; [apply tc_once, Hrc|exact Hcy].
Qed.

(** Document→[a→[b, c]] in the direct mode gives [a] only. *)
Example traverse_direct_demo_tree :
  get_all_nodes demo_tree [0] (Some true) = Ok [1].
Proof. reflexivity. Qed.

(** With the roots [doc, a] the direct mode yields [a], a root, and [b] and
    [c], which are two links below the root [doc]. *)
Lemma traverse_direct_yields_root :
  forest demo_tree
  ∧ get_all_nodes demo_tree [0; 1] (Some true) = Ok [1; 2; 3]
  ∧ 1 ∈ [0; 1] ∧ 1 ∈ [1; 2; 3]
  ∧ child_link demo_tree 0 1 ∧ child_link demo_tree 1 2 ∧ 2 ∈ [1; 2; 3].
Proof.
  split; [exact demo_tree_forest|]. split; [reflexivity|].
  unfold child_link. simpl. split_and!; repeat constructor.
Qed.

(** ** Filter *)

Lemma split_space_nonempty w : split_space w ≠ [].
Proof.
  destruct w as [|c r]; simpl; [done|]. case_bool_decide; [done|].
  by destruct (split_space r).
Qed.

Lemma split_space_join w : join_space (split_space w) = w.
Proof.
  induction w as [|c r IH]; [done|]. simpl.
  pose proof (split_space_nonempty r) as Hne.
  destruct (split_space r) as [|t ts]; [done|].
  case_bool_decide as Hc.
  - subst c. change (32%Z :: join_space (t :: ts) = 32%Z :: r). by rewrite IH.
  - rewrite <- IH. by destruct ts.
Qed.

Lemma split_space_no_space w : Forall (fun t => 32%Z ∉ t) (split_space w).
Proof.
  induction w as [|c r IH]; simpl.
  { repeat constructor. by intros ?%elem_of_nil. }
  case_bool_decide as Hc.
  - constructor; [by intros ?%elem_of_nil|done].
  - destruct (split_space r) as [|t ts].
    + repeat constructor. intros [?|?%elem_of_nil]%elem_of_cons; congruence.
    + apply Forall_cons in IH as [Ht Hts]. constructor; [|done].
      intros [?|?]%elem_of_cons; [congruence|done].
Qed.

Lemma check_filter_spec h name attrs in_attrs i :
  check_filter h name attrs in_attrs i = true ↔ tag_matches h name attrs in_attrs i.
Proof.
  unfold check_filter, tag_matches.
  destruct (h !! i) as [[r k]|] eqn:Hi; simpl.
  2: { split; [done|]. by intros (? & ? & ? & ? & ? & _). }
  destruct k as [d ch|nm a ch|d].
  1,3: split; [done|]; by intros (? & ? & ? & ? & [= <-] & ? & _).
  rewrite !andb_true_iff, !forallb_forall. split.
  - intros [[Hn Ha] Hin]. exists (mkNode r (TagHtmlNode nm a ch)), nm, a, ch.
    split_and!; [done..| | |].
    + intros n ->. by apply bool_decide_eq_true_1 in Hn.
    + intros k v Hkv%elem_of_map_to_list%list_elem_of_In. specialize (Ha _ Hkv).
      simpl in Ha. destruct (a !! k) as [w|]; [|done].
      by apply bool_decide_eq_true_1 in Ha as ->.
    + intros k v Hkv%elem_of_map_to_list%list_elem_of_In. specialize (Hin _ Hkv).
      simpl in Hin. destruct (a !! k) as [w|]; [|done].
      exists w. split; [done|]. by apply bool_decide_eq_true_1 in Hin.
  - intros (nd & nm' & a' & ch' & [= <-] & [= <- <- <-] & Hn & Ha & Hin).
    split_and!.
    + destruct name as [n|]; [|done]. apply bool_decide_eq_true_2. by apply Hn.
    + intros [k v] Hkv%list_elem_of_In%elem_of_map_to_list. simpl.
      rewrite (Ha k v Hkv). by apply bool_decide_eq_true_2.
    + intros [k v] Hkv%list_elem_of_In%elem_of_map_to_list. simpl.
      destruct (Hin k v Hkv) as (w & -> & Hw). by apply bool_decide_eq_true_2.
Qed.

(** C7: [find_tags] keeps, in the order of the traversal, the nodes on
    which the filter holds, and the filter holds exactly on the Element
    nodes with the name (when given), with every pair of [attrs] as an
    attribute, and with the value of every pair of [in_attrs] among the
    pieces of the attribute cut at single spaces.  So [class="x y"] matches
    ["class": "x"] and [class="xy"] does not. *)
Theorem find_tags_selects h roots name attrs in_attrs direct_only :
  find_tags h roots name attrs in_attrs direct_only
  = (nodes ← get_all_nodes h roots direct_only;
     Ok (filter (fun i => check_filter h name (default ∅ attrs)
                            (default ∅ in_attrs) i = true) nodes))
  ∧ (∀ i, check_filter h name (default ∅ attrs) (default ∅ in_attrs) i = true
          ↔ tag_matches h name (default ∅ attrs) (default ∅ in_attrs) i)
  ∧ (∀ nodes, get_all_nodes h roots direct_only = Ok nodes →
       ∃ out, find_tags h roots name attrs in_attrs direct_only = Ok out
         ∧ sublist out nodes
         ∧ (∀ i, i ∈ out ↔ i ∈ nodes
                  ∧ tag_matches h name (default ∅ attrs) (default ∅ in_attrs) i)
         ∧ (∀ i, i ∈ out → ∃ nd, h !! i = Some nd ∧ is_doc nd = false
                                   ∧ is_data nd = false))
  ∧ (∀ w, join_space (split_space w) = w
          ∧ Forall (fun t => 32%Z ∉ t) (split_space w))
  ∧ find_tags demo_class_store [0] None None
      (Some {[ str "class" := str "x" ]}) None = Ok [1].
Proof.
  split_and!.
  - done.
  - intros i. apply check_filter_spec.
  - intros nodes Hnodes. unfold find_tags. rewrite Hnodes. simpl.
    eexists. split; [done|]. split_and!.
    + apply sublist_filter.
    + intros i. rewrite list_elem_of_filter, check_filter_spec. tauto.
    + intros i [(nd & nm & a & ch & Hi & Hk & _)%check_filter_spec _]%list_elem_of_filter.
      exists nd. split; [done|]. destruct nd as [r k]. simpl in Hk. by subst k.
  - intros w. split; [apply split_space_join|apply split_space_no_space].
  - by vm_compute.
Qed.

(** On Document→[a→[b, c]] the name [b] selects the Element [b]. *)
Example find_tags_by_name :
  find_tags demo_tree [0] (Some (str "b")) None None None = Ok [2].
Proof. by vm_compute. Qed.

(** ** Printing *)

Lemma mapM_total {A B} (f : A → option B) (Q : B → Prop) (l : list A) :
  (∀ x, ∃ y, f x = Some y ∧ Q y) → ∃ k, mapM f l = Some k ∧ Forall Q k.
Proof.
  intros Hf. induction l as [|x l (k & Hk & HQ)]; [by exists []|].
  destruct (Hf x) as (y & Hy & Hqy). exists (y :: k). split; [|by constructor].
  simpl. by rewrite Hy, Hk.
Qed.

Lemma mapM_mono {A B} (f g : A → option B) (l : list A) k :
  (∀ x y, f x = Some y → g x = Some y) → mapM f l = Some k → mapM g l = Some k.
Proof.
  intros Hfg Hk%mapM_Some. apply mapM_Some.
  eapply Forall2_impl; [done|]. intros x y. apply Hfg.
Qed.

(** At level 100 and above one line is printed whatever the node is. *)
Lemma print_node_rec_guard fuel h node level :
  (100 ≤ level)%Z →
  print_node_rec (S fuel) h node level = Some [Line_level_too_big (level * 2)].
Proof. intros Hl. simpl. by rewrite bool_decide_eq_true_2. Qed.

(** The recursion needs one unit of fuel per level up to 100, in every
    store, and prints no line further in than 202 columns (or than the
    starting level). *)
Lemma print_node_rec_total fuel h node level :
  Z.to_nat (100 - level) < fuel →
  ∃ lines, print_node_rec fuel h node level = Some lines
    ∧ Forall (fun l => (level * 2 ≤ line_indent l ≤ Z.max (level * 2) 202)%Z) lines.
Proof.
  revert node level. induction fuel as [|fuel IH]; intros node level Hfuel; [lia|].
  simpl. case_bool_decide as Hl.
  { eexists. split; [done|]. repeat constructor; simpl; lia. }
  assert (∀ ch, ∃ below,
    mapM (fun child => print_node_rec fuel h (Some child) (level + 1)) ch = Some below
    ∧ Forall (Forall (fun l => (level * 2 ≤ line_indent l ≤ 202)%Z)) below) as Hch.
  { intros ch. apply mapM_total. intros child.
    destruct (IH (Some child) (level + 1)%Z) as (lines & -> & Hlines); [lia|].
    eexists. split; [done|]. eapply Forall_impl; [done|]. simpl. lia. }
  assert (∀ below,
    Forall (Forall (fun l => (level * 2 ≤ line_indent l ≤ 202)%Z)) below →
    Forall (fun l => (level * 2 ≤ line_indent l ≤ Z.max (level * 2) 202)%Z)
      (concat below)) as Hconcat.
  { intros below Hb. apply Forall_concat. eapply Forall_impl; [done|].
    intros lines Hlines. eapply Forall_impl; [done|]. simpl. lia. }
  destruct (deref h node) as [[r [d ch|nm a ch|d]]|].
  - destruct (Hch ch) as (below & -> & Hb). simpl. eexists. split; [done|].
    repeat (constructor; [simpl; lia|]). by apply Hconcat.
  - destruct (Hch ch) as (below & -> & Hb). simpl. eexists. split; [done|].
    repeat (constructor; [simpl; lia|]). by apply Hconcat.
  - eexists. split; [done|]. repeat constructor; simpl; lia.
  - eexists. split; [done|]. repeat constructor; simpl; lia.
Qed.

(** More fuel prints the same lines. *)
Lemma print_node_rec_mono fuel fuel' h node level lines :
  print_node_rec fuel h node level = Some lines → fuel ≤ fuel' →
  print_node_rec fuel' h node level = Some lines.
Proof.
  revert fuel' node level lines.
  induction fuel as [|fuel IH]; intros fuel' node level lines Hp Hle; [done|].
  destruct fuel' as [|fuel']; [lia|]. simpl in *.
  case_bool_decide; [done|].
  destruct (deref h node) as [[r [d ch|nm a ch|d]]|]; [| |done..].
  - destruct (mapM _ ch) as [below|] eqn:Hb; [|done].
    erewrite mapM_mono; [done| |done]. intros x y Hx. apply IH; [done|lia].
  - destruct (mapM _ ch) as [below|] eqn:Hb; [|done].
    erewrite mapM_mono; [done| |done]. intros x y Hx. apply IH; [done|lia].
Qed.

(** C9: [print_node] ends on every node of every store, a cyclic one as
    well: at level 100 it prints the one line [Error: level too big] and
    calls itself no further, so the recursion is at most 101 calls deep
    and no line is further in than 202 columns; the lines do not depend on
    fuel beyond that depth. *)
Theorem print_node_terminates h node level :
  (∃ lines, print_node h node level = Some lines
     ∧ Forall (fun l => (line_indent l ≤ Z.max (default 0 level * 2) 202)%Z) lines)
  ∧ (∀ fuel lv, (100 ≤ lv)%Z →
       print_node_rec (S fuel) h node lv = Some [Line_level_too_big (lv * 2)])
  ∧ (∀ fuel lines, print_node h node level = Some lines →
       print_fuel (default 0%Z level) ≤ fuel →
       print_node_rec fuel h node (default 0%Z level) = Some lines)
  ∧ (∃ lines, print_node demo_cyclic_store (Some 0) None = Some lines
       ∧ length lines = 201 ∧ last lines = Some (Line_level_too_big 200))
  ∧ (∃ lines, print_node demo_deep_store (Some 0) None = Some lines
       ∧ length lines = 201 ∧ last lines = Some (Line_level_too_big 200)).
Proof.
  split_and!.
  - destruct (print_node_rec_total (print_fuel (default 0%Z level)) h node
                (default 0%Z level)) as (lines & Hp & Hlines).
    { unfold print_fuel. lia. }
    exists lines. split; [done|]. eapply Forall_impl; [done|]. simpl. lia.
  - intros fuel lv. apply print_node_rec_guard.
  - intros fuel lines Hp Hle. by eapply print_node_rec_mono.
  - eexists. split; [by vm_compute|]. split; by vm_compute.
  - eexists. split; [by vm_compute|]. split; by vm_compute.
Qed.

(** * Further properties of the builder *)

(** ** What a handler that returns has done *)

Lemma parent_node_loop_Ok fuel h node p :
  parent_node_loop fuel h node = Ok p →
  ∃ pd, h !! p = Some pd ∧ is_container pd = true.
Proof.
  revert node. induction fuel as [|fuel IH]; intros node Hl; [done|]. simpl in Hl.
  destruct node as [i|]; [|done]. destruct (h !! i) as [nd|] eqn:Hi; [|done].
  destruct (is_container nd) eqn:Hc; [|by eapply IH].
  injection Hl as <-. by exists nd.
Qed.

Lemma starttag_handle_Ok tag attrs self self' :
  _starttag_handle tag attrs self = Ok self' →
  ∃ p pd, store self !! p = Some pd ∧ is_container pd = true
    ∧ self' = {| store := add_node (store self) p
                   (mkNode (Some p) (TagHtmlNode tag (dict_update ∅ attrs) []));
                 _doc_node := _doc_node self;
                 _curr_node := Some (length (store self)) |}.
Proof.
  unfold _starttag_handle.
  destruct (parent_node_loop _ _ _) as [p| |] eqn:Hl; [|done..].
  intros [= <-]. destruct (parent_node_loop_Ok _ _ _ _ Hl) as (pd & Hp & Hc).
  by exists p, pd.
Qed.

Lemma data_handle_Ok data self self' :
  _data_handle data self = Ok self' →
  (∃ c r d, _curr_node self = Some c
     ∧ store self !! c = Some (mkNode r (DataHtmlNode d))
     ∧ self' = {| store := alter (data_append data) c (store self);
                  _doc_node := _doc_node self;
                  _curr_node := Some c |})
  ∨ (∃ p pd, store self !! p = Some pd ∧ is_container pd = true
       ∧ self' = {| store := add_node (store self) p
                      (mkNode (Some p) (DataHtmlNode data));
                    _doc_node := _doc_node self;
                    _curr_node := Some (length (store self)) |}).
Proof.
  intros Hd.
  assert (∀ p, parent_node_loop (loop_fuel self) (store self) (_curr_node self)
               ≫= (fun parent_node => Ok
                     {| store := add_node (store self) parent_node
                                   (mkNode (Some parent_node) (DataHtmlNode data));
                        _doc_node := _doc_node self;
                        _curr_node := Some (length (store self)) |}) = Ok p →
    ∃ p0 pd, store self !! p0 = Some pd ∧ is_container pd = true
      ∧ p = {| store := add_node (store self) p0 (mkNode (Some p0) (DataHtmlNode data));
               _doc_node := _doc_node self;
               _curr_node := Some (length (store self)) |}) as Hnew.
  { intros s'. destruct (parent_node_loop _ _ _) as [p| |] eqn:Hl; [|done..].
    intros [= <-]. destruct (parent_node_loop_Ok _ _ _ _ Hl) as (pd & Hp & Hc).
    by exists p, pd. }
  destruct (_curr_node self) as [c|] eqn:Hc.
  2: { rewrite data_handle_new in Hd by (intros; congruence).
       rewrite Hc in Hd. right. by apply Hnew. }
  destruct (store self !! c) as [[r k]|] eqn:Hcd.
  2: { rewrite data_handle_new in Hd by not_text_cursor Hc Hcd.
       rewrite Hc in Hd. right. by apply Hnew. }
  destruct k as [dd ch|n a ch|d].
  1,2: rewrite data_handle_new in Hd by not_text_cursor Hc Hcd;
    rewrite Hc in Hd; right; by apply Hnew.
  left. unfold _data_handle in Hd. rewrite Hc in Hd. simpl in Hd. rewrite Hcd in Hd.
  injection Hd as <-. by exists c, r, d.
Qed.

Lemma closing_node_loop_Ok fuel h tag node r :
  closing_node_loop fuel h tag node = Ok (Some r) →
  ∃ i nd attrs ch, h !! i = Some nd ∧ kind nd = TagHtmlNode tag attrs ch
    ∧ r = get_parent nd.
Proof.
  revert node. induction fuel as [|fuel IH]; intros node Hl; [done|]. simpl in Hl.
  destruct node as [i|]; [|done]. destruct (h !! i) as [nd|] eqn:Hi; [|done].
  destruct (kind nd) as [|name a ch|] eqn:Hk; [done| |by eapply IH].
  case_bool_decide as Hn; [|by eapply IH]. subst name.
  injection Hl as <-. by exists i, nd, a, ch.
Qed.

Lemma endtag_handle_Ok tag self self' :
  _endtag_handle tag self = Ok self' →
  self' = self
  ∨ ∃ i nd attrs ch, store self !! i = Some nd ∧ kind nd = TagHtmlNode tag attrs ch
      ∧ self' = {| store := store self;
                   _doc_node := _doc_node self;
                   _curr_node := get_parent nd |}.
Proof.
  unfold _endtag_handle.
  destruct (closing_node_loop _ _ _ _) as [[r|]| |] eqn:Hl; [| |done..].
  - intros [= <-]. right.
    destruct (closing_node_loop_Ok _ _ _ _ _ Hl) as (i & nd & a & ch & Hi & Hk & ->).
    by exists i, nd, a, ch.
  - intros [= <-]. by left.
Qed.

(** ** Nodes only grow *)

Global Instance node_grows_refl : Reflexive node_grows.
Proof.
  intros [r [d ch|n a ch|d]]; (split; [done|simpl]); repeat split; reflexivity.
Qed.

Global Instance node_grows_trans : Transitive node_grows.
Proof.
  intros [r1 k1] [r2 k2] [r3 k3] [Hp1 H1] [Hp2 H2]. simpl in *.
  split; [simpl; congruence|].
  destruct k1, k2, k3; try done; simpl in *.
  - destruct H1, H2. split; by etrans.
  - destruct H1 as (-> & -> & ?), H2 as (-> & -> & ?). split_and!; [done..|by etrans].
  - by etrans.
Qed.

Lemma childs_append_grows c nd : node_grows nd (childs_append c nd).
Proof.
  destruct nd as [r [d ch|n a ch|d]]; split; simpl; try done.
  - split; [done|]. by apply prefix_app_r.
  - split_and!; [done..|]. by apply prefix_app_r.
Qed.

Lemma data_append_grows s nd : node_grows nd (data_append s nd).
Proof.
  destruct nd as [r [d ch|n a ch|d]]; split; simpl; try done.
  by apply prefix_app_r.
Qed.

Lemma decl_append_grows s nd : node_grows nd (decl_append s nd).
Proof.
  destruct nd as [r [d ch|n a ch|d]]; split; simpl; try done.
  split; [|done]. by apply prefix_app_r.
Qed.

Lemma alter_grows f c (h : list HtmlNode) i nd :
  (∀ nd, node_grows nd (f nd)) → h !! i = Some nd →
  ∃ nd', alter f c h !! i = Some nd' ∧ node_grows nd nd'.
Proof.
  intros Hf Hi. destruct (decide (c = i)) as [->|Hne].
  - exists (f nd). by rewrite list_lookup_alter_eq, Hi.
  - exists nd. by rewrite list_lookup_alter_ne.
Qed.

Lemma add_node_grows h p node i nd :
  h !! i = Some nd → ∃ nd', add_node h p node !! i = Some nd' ∧ node_grows nd nd'.
Proof.
  intros Hi. destruct (decide (i = p)) as [->|Hne].
  - exists (childs_append (length h) nd).
    split; [by apply add_node_lookup_parent|apply childs_append_grows].
  - exists nd. split; [|done]. rewrite add_node_lookup_other; [done..|].
    apply lookup_lt_Some in Hi. lia.
Qed.

Section growth.
Context {P : Platform}.

Lemma handle_grows ev self self' i nd :
  handle ev self = Ok self' → store self !! i = Some nd →
  ∃ nd', store self' !! i = Some nd' ∧ node_grows nd nd'.
Proof.
  intros Hev Hi.
  assert (∀ data, _data_handle data self = Ok self' →
            ∃ nd', store self' !! i = Some nd' ∧ node_grows nd nd') as Hdata.
  { intros data [(c & r & d & _ & _ & ->)|(p & pd & _ & _ & ->)]%data_handle_Ok; simpl.
    - apply alter_grows; [apply data_append_grows|done].
    - by apply add_node_grows. }
  destruct ev as [tag attrs|tag|data|name|name|decl]; simpl in Hev.
  - apply starttag_handle_Ok in Hev as (p & pd & _ & _ & ->). simpl.
    by apply add_node_grows.
  - apply endtag_handle_Ok in Hev as [->|(j & jd & a & ch & _ & _ & ->)]; by exists nd.
  - exact (Hdata _ Hev).
  - unfold _entityref_handle in Hev. destruct (entityref_data name); [|done..].
    exact (Hdata _ Hev).
  - unfold _charref_handle in Hev. destruct (charref_data name); [|done..].
    exact (Hdata _ Hev).
  - injection Hev as <-. simpl. apply alter_grows; [apply decl_append_grows|done].
Qed.

Lemma handle_length ev self self' :
  handle ev self = Ok self' →
  length (store self) ≤ length (store self') ≤ S (length (store self)).
Proof.
  intros Hev.
  assert (∀ data, _data_handle data self = Ok self' →
    length (store self) ≤ length (store self') ≤ S (length (store self))) as Hdata.
  { intros data [(c & r & d & _ & _ & ->)|(p & pd & _ & _ & ->)]%data_handle_Ok; simpl.
    - rewrite length_alter. lia.
    - rewrite add_node_length. lia. }
  destruct ev as [tag attrs|tag|data|name|name|decl]; simpl in Hev.
  - apply starttag_handle_Ok in Hev as (p & pd & _ & _ & ->). simpl.
    rewrite add_node_length. lia.
  - apply endtag_handle_Ok in Hev as [->|(j & jd & a & ch & _ & _ & ->)]; simpl; lia.
  - exact (Hdata _ Hev).
  - unfold _entityref_handle in Hev. destruct (entityref_data name); [|done..].
    exact (Hdata _ Hev).
  - unfold _charref_handle in Hev. destruct (charref_data name); [|done..].
    exact (Hdata _ Hev).
  - injection Hev as <-. simpl. rewrite length_alter. lia.
Qed.

Lemma feed_Ok_cons ev events self self' :
  feed (ev :: events) self = Ok self' →
  ∃ mid, handle ev self = Ok mid ∧ feed events mid = Ok self'.
Proof. simpl. destruct (handle ev self) as [mid| |]; [|done..]. by exists mid. Qed.

Lemma feed_growth events self self' :
  feed events self = Ok self' →
  (∀ i nd, store self !! i = Some nd →
     ∃ nd', store self' !! i = Some nd' ∧ node_grows nd nd')
  ∧ length (store self) ≤ length (store self') ≤ length (store self) + length events
  ∧ _doc_node self' = _doc_node self.
Proof.
  revert self. induction events as [|ev events IH]; intros self Hfeed.
  { injection Hfeed as <-. split_and!; [|simpl; lia..|done]. intros i nd Hi. by exists nd. }
  apply feed_Ok_cons in Hfeed as (mid & Hev & Hrest).
  destruct (IH mid Hrest) as (Hnodes & Hlen & Hdoc).
  pose proof (handle_length ev self mid Hev) as Hlen1. split_and!; [|simpl; lia..|].
  - intros i nd Hi. destruct (handle_grows ev self mid i nd Hev Hi) as (nd1 & Hi1 & Hg1).
    destruct (Hnodes i nd1 Hi1) as (nd' & Hi' & Hg'). exists nd'. split; [done|].
    by etrans.
  - rewrite Hdoc. clear -Hev.
    destruct ev as [tag attrs|tag|data|name|name|decl]; simpl in Hev.
    + by apply starttag_handle_Ok in Hev as (p & pd & _ & _ & ->).
    + by apply endtag_handle_Ok in Hev as [->|(j & jd & a & ch & _ & _ & ->)].
    + by apply data_handle_Ok in Hev as [(c & r & d & _ & _ & ->)|(p & pd & _ & _ & ->)].
    + unfold _entityref_handle in Hev. destruct (entityref_data name); [|done..].
      by apply data_handle_Ok in Hev as [(c & r & d & _ & _ & ->)|(p & pd & _ & _ & ->)].
    + unfold _charref_handle in Hev. destruct (charref_data name); [|done..].
      by apply data_handle_Ok in Hev as [(c & r & d & _ & _ & ->)|(p & pd & _ & _ & ->)].
    + by injection Hev as <-.
Qed.

(** X1: an event stream never removes, moves or renames a node: whatever
    state it starts from, when the parser returns every node that existed
    is still there under its identity, with its parent reference and its
    variant, an Element with its name and attributes; its declarations,
    children and text have only got longer at the end; and the store has
    at most one node more per event. *)
Theorem feed_grows events self self' :
  feed events self = Ok self' →
  (∀ i nd, store self !! i = Some nd →
     ∃ nd', store self' !! i = Some nd' ∧ node_grows nd nd')
  ∧ length (store self) ≤ length (store self') ≤ length (store self) + length events
  ∧ _doc_node self' = _doc_node self.
Proof. apply feed_growth. Qed.

End growth.

Lemma feed_grows_witness :
  @feed demo_platform demo_open_events HtmlParser_init = Ok demo_open_state
  ∧ (∀ i nd, store HtmlParser_init !! i = Some nd →
       ∃ nd', store demo_open_state !! i = Some nd' ∧ node_grows nd nd')
  ∧ length (store HtmlParser_init) ≤ length (store demo_open_state)
      ≤ length (store HtmlParser_init) + length demo_open_events
  ∧ _doc_node demo_open_state = _doc_node HtmlParser_init.
Proof.
  split; [reflexivity|].
  apply (@feed_grows demo_platform demo_open_events). reflexivity.
Defined.

(** ** Elements, declarations and text in the order of the stream *)

Lemma omap_alter_same {A B} (g : A → option B) (f : A → A) i (l : list A) :
  (∀ x, g (f x) = g x) → omap g (alter f i l) = omap g l.
Proof.
  intros Hgf. revert i. induction l as [|x l IH]; intros [|i]; csimpl; [done..| |].
  - by rewrite Hgf.
  - by rewrite IH.
Qed.

Lemma omap_drop_alter_same {A B} (g : A → option B) (f : A → A) n i (l : list A) :
  (∀ x, g (f x) = g x) → omap g (drop n (alter f i l)) = omap g (drop n l).
Proof.
  intros Hgf. rewrite drop_alter. case_decide; [|done]. by apply omap_alter_same.
Qed.

Lemma elements_of_add_node h p node :
  elements_of (add_node h p node) = elements_of h ++ elements_of [node].
Proof.
  unfold elements_of, add_node. rewrite omap_app. f_equal.
  apply omap_alter_same. by intros [r [d ch|n a ch|d]].
Qed.

Lemma text_buffers_add_node h p node :
  text_buffers (add_node h p node) = text_buffers h ++ text_buffers [node].
Proof.
  unfold text_buffers, add_node. rewrite omap_app. f_equal.
  apply omap_alter_same. by intros [r [d ch|n a ch|d]].
Qed.

Lemma text_content_add_text h p r data :
  text_content (add_node h p (mkNode r (DataHtmlNode data))) = text_content h ++ data.
Proof.
  unfold text_content. rewrite text_buffers_add_node, concat_app. simpl.
  by rewrite app_nil_r.
Qed.

Lemma text_buffers_app h1 h2 :
  text_buffers (h1 ++ h2) = text_buffers h1 ++ text_buffers h2.
Proof. apply omap_app. Qed.

Lemma text_buffers_cons_text r d h :
  text_buffers (mkNode r (DataHtmlNode d) :: h) = d :: text_buffers h.
Proof. done. Qed.

Lemma text_content_append h c r d data :
  h !! c = Some (mkNode r (DataHtmlNode d)) →
  text_buffers (drop (S c) h) = [] →
  text_content (alter (data_append data) c h) = text_content h ++ data.
Proof.
  intros Hc Hlast. pose proof (take_drop_middle h c _ Hc) as Hh.
  assert (length (take c h) = c) as Hlen.
  { apply length_take_le. apply lookup_lt_Some in Hc. lia. }
  assert (alter (data_append data) c h
          = take c h ++ mkNode r (DataHtmlNode (d ++ data)) :: drop (S c) h) as ->.
  { rewrite <- Hh at 1. rewrite <- (Nat.add_0_r c) at 1. rewrite <- Hlen at 1.
    by rewrite alter_app_r. }
  assert (text_buffers h
          = text_buffers (take c h) ++ d :: text_buffers (drop (S c) h)) as Hb.
  { rewrite <- Hh at 1. by rewrite text_buffers_app, text_buffers_cons_text. }
  unfold text_content.
  rewrite Hb, text_buffers_app, text_buffers_cons_text, Hlast, !concat_app. simpl.
  by rewrite !app_nil_r, app_assoc.
Qed.

Section stream.
Context {P : Platform}.

Lemma feed_elements_of events self self' :
  feed events self = Ok self' →
  elements_of (store self') = elements_of (store self) ++ start_tags events.
Proof.
  revert self. induction events as [|ev events IH]; intros self Hfeed.
  { injection Hfeed as <-. by rewrite app_nil_r. }
  apply feed_Ok_cons in Hfeed as (mid & Hev & Hrest). rewrite (IH mid Hrest).
  assert (∀ data, _data_handle data self = Ok mid →
            elements_of (store mid) = elements_of (store self)) as Hdata.
  { intros data [(c & r & d & _ & _ & ->)|(p & pd & _ & _ & ->)]%data_handle_Ok; simpl.
    - apply omap_alter_same. by intros [r' [d' ch|n a ch|d']].
    - by rewrite elements_of_add_node, app_nil_r. }
  destruct ev as [tag attrs|tag|data|name|name|decl]; simpl in Hev.
  - apply starttag_handle_Ok in Hev as (p & pd & _ & _ & ->). simpl.
    by rewrite elements_of_add_node, <- app_assoc.
  - by apply endtag_handle_Ok in Hev as [->|(j & jd & a & ch & _ & _ & ->)].
  - by rewrite (Hdata _ Hev).
  - unfold _entityref_handle in Hev. destruct (entityref_data name); [|done..].
    by rewrite (Hdata _ Hev).
  - unfold _charref_handle in Hev. destruct (charref_data name); [|done..].
    by rewrite (Hdata _ Hev).
  - injection Hev as <-. simpl. f_equal.
    apply omap_alter_same. by intros [r' [d' ch|n a ch|d']].
Qed.

(** X2: whatever state the parser starts from, when it returns the store
    holds, after the Elements it had, one Element per start tag of the
    stream, in the order of the stream, with the name of the tag and its
    attributes; end tags, text and declarations make no Element and drop
    none. *)
Theorem elements_are_start_tags events self self' :
  feed events self = Ok self' →
  elements_of (store self') = elements_of (store self) ++ start_tags events.
Proof. apply feed_elements_of. Qed.

Lemma doc_decl_node self :
  doc_decl self = default [] (store self !! get_node self ≫= node_decl).
Proof.
  unfold doc_decl, node_decl.
  by destruct (store self !! get_node self) as [[r [d ch|n a ch|d]]|].
Qed.

Lemma doc_decl_alter f c r self :
  (∀ nd, node_decl (f nd) = node_decl nd) →
  doc_decl {| store := alter f c (store self);
              _doc_node := _doc_node self;
              _curr_node := r |} = doc_decl self.
Proof.
  intros Hf. rewrite !doc_decl_node. unfold get_node. simpl.
  destruct (decide (c = _doc_node self)) as [->|Hne].
  - rewrite list_lookup_alter_eq. destruct (store self !! _doc_node self); [|done].
    simpl. by rewrite Hf.
  - by rewrite list_lookup_alter_ne.
Qed.

Lemma doc_decl_add_node p pd node r self :
  store self !! p = Some pd → node_decl node = None →
  doc_decl {| store := add_node (store self) p node;
              _doc_node := _doc_node self;
              _curr_node := r |} = doc_decl self.
Proof.
  intros Hp Hnode. rewrite !doc_decl_node. unfold get_node. simpl.
  destruct (decide (_doc_node self = length (store self))) as [Hn|Hn].
  { rewrite Hn, add_node_lookup_new, (lookup_ge_None_2 (store self)) by lia.
    simpl. by rewrite Hnode. }
  destruct (decide (_doc_node self = p)) as [->|Hne].
  - rewrite (add_node_lookup_parent _ _ _ _ Hp), Hp. simpl.
    by destruct pd as [r' [d ch|n a ch|d]].
  - by rewrite add_node_lookup_other.
Qed.

(** X3: once the document reference of the parser is a Document node, the
    declarations of that node after a stream are the ones it had, then the
    declarations of the stream in their order: no other event touches the
    list, and none is lost. *)
Theorem declarations_in_order events self self' :
  feed events self = Ok self' →
  (∃ nd, store self !! get_node self = Some nd ∧ is_doc nd = true) →
  doc_decl self' = doc_decl self ++ decls_of events.
Proof.
  revert self. induction events as [|ev events IH]; intros self Hfeed Hdoc.
  { injection Hfeed as <-. by rewrite app_nil_r. }
  apply feed_Ok_cons in Hfeed as (mid & Hev & Hrest).
  assert (∃ nd, store mid !! get_node mid = Some nd ∧ is_doc nd = true) as Hmid.
  { destruct Hdoc as (nd & Hnd & Hd).
    destruct (feed_growth [ev] self mid) as (Hnodes & _ & Hsame).
    { simpl. by rewrite Hev. }
    destruct (Hnodes _ nd Hnd) as (nd' & Hnd' & _ & Hg). exists nd'.
    unfold get_node in *. rewrite Hsame. split; [done|].
    destruct nd as [r [d ch|n a ch|d]], nd' as [r' [d' ch'|n' a' ch'|d']]; done. }
  rewrite (IH mid Hrest Hmid).
  assert (∀ data, _data_handle data self = Ok mid → doc_decl mid = doc_decl self)
    as Hdata.
  { intros data [(c & r & d & _ & _ & ->)|(p & pd & Hp & _ & ->)]%data_handle_Ok.
    - apply doc_decl_alter. by intros [r' [d' ch|n a ch|d']].
    - by eapply doc_decl_add_node. }
  destruct ev as [tag attrs|tag|data|name|name|decl]; simpl in Hev.
  - apply starttag_handle_Ok in Hev as (p & pd & Hp & _ & ->).
    by rewrite (doc_decl_add_node p pd) by done.
  - by apply endtag_handle_Ok in Hev as [->|(j & jd & a & ch & _ & _ & ->)].
  - by rewrite (Hdata _ Hev).
  - unfold _entityref_handle in Hev. destruct (entityref_data name); [|done..].
    by rewrite (Hdata _ Hev).
  - unfold _charref_handle in Hev. destruct (charref_data name); [|done..].
    by rewrite (Hdata _ Hev).
  - injection Hev as <-.
    assert (doc_decl {| store := alter (decl_append decl) (_doc_node self) (store self);
                        _doc_node := _doc_node self;
                        _curr_node := _curr_node self |}
            = doc_decl self ++ [decl]) as ->; [|by rewrite <- app_assoc].
    destruct Hdoc as ([r [d ch|n a ch|d]] & Hnd & Hd); try done.
    unfold doc_decl, get_node in *. simpl.
    by rewrite list_lookup_alter_eq, Hnd.
Qed.

End stream.

Lemma elements_are_start_tags_witness :
  @feed demo_platform demo_tree_events HtmlParser_init = Ok demo_tree_state
  ∧ elements_of (store demo_tree_state)
    = elements_of (store HtmlParser_init) ++ start_tags demo_tree_events.
Proof.
  split; [reflexivity|].
  apply (@elements_are_start_tags demo_platform demo_tree_events). reflexivity.
Defined.

Lemma declarations_in_order_witness :
  @feed demo_platform [Decl (str "DOCTYPE html"); StartTag (str "a") [];
                       Decl (str "late")] HtmlParser_init
  = Ok {| store := [mkNode None
                      (DocHtmlNode [str "DOCTYPE html"; str "late"] [1]);
                    mkNode (Some 0) (TagHtmlNode (str "a") ∅ [])];
          _doc_node := 0;
          _curr_node := Some 1 |}
  ∧ (∃ nd, store HtmlParser_init !! get_node HtmlParser_init = Some nd
           ∧ is_doc nd = true)
  ∧ doc_decl {| store := [mkNode None
                            (DocHtmlNode [str "DOCTYPE html"; str "late"] [1]);
                          mkNode (Some 0) (TagHtmlNode (str "a") ∅ [])];
                _doc_node := 0;
                _curr_node := Some 1 |}
    = doc_decl HtmlParser_init
      ++ decls_of [Decl (str "DOCTYPE html"); StartTag (str "a") [];
                   Decl (str "late")].
Proof.
  split; [reflexivity|]. split; [by eexists|].
  apply (@declarations_in_order demo_platform
           [Decl (str "DOCTYPE html"); StartTag (str "a") []; Decl (str "late")]
           HtmlParser_init); [reflexivity|by eexists].
Defined.

Section text_order.
Context {P : Platform}.

Lemma handle_text_content ev self mid :
  wf self → cursor_is_last_text self → handle ev self = Ok mid →
  wf mid ∧ cursor_is_last_text mid
  ∧ text_content (store mid) = text_content (store self) ++ default [] (text_of ev).
Proof.
  intros Hwf Hlast Hev.
  assert (wf mid) as Hwfm.
  { destruct (handle_wf ev self Hwf) as (m & Hm & Hwfm). congruence. }
  split; [done|].
  assert (∀ data, _data_handle data self = Ok mid →
    cursor_is_last_text mid
    ∧ text_content (store mid) = text_content (store self) ++ data) as Hdata.
  { intros data [(c & r & d & Hc & Hcd & ->)|(p & pd & Hp & _ & ->)]%data_handle_Ok.
    - assert (text_buffers (drop (S c) (store self)) = []) as Hc0
        by (by eapply Hlast).
      split; [|by eapply text_content_append].
      intros c' nd' [= <-] _ _. simpl. by rewrite drop_alter_lt by lia.
    - split; [|apply text_content_add_text].
      intros c nd [= <-] _ _. simpl. rewrite drop_ge; [done|].
      rewrite add_node_length. lia. }
  destruct ev as [tag attrs|tag|data|name|name|decl]; simpl in Hev.
  - apply starttag_handle_Ok in Hev as (p & pd & Hp & _ & ->). simpl. split.
    + intros c nd [= <-]. simpl. rewrite add_node_lookup_new. by intros [= <-].
    + unfold text_content. rewrite text_buffers_add_node. simpl.
      by rewrite !app_nil_r.
  - simpl. rewrite app_nil_r.
    apply endtag_handle_Ok in Hev as [->|(i & nd & a & ch & Hi & Hk & ->)]; [done|].
    split; [|done]. intros c ndc Hc Hndc Hdata'. simpl in Hc, Hndc. exfalso.
    pose proof (wf_tree _ Hwf) as Ht.
    assert (i ≠ 0) as Hne.
    { intros ->. assert (is_doc nd = true) as Hdoc
        by (by apply (tree_unique_doc _ 0 nd Ht Hi)).
      destruct nd as [r k]. simpl in *. by subst k. }
    destruct (tree_parent _ Ht i nd Hi Hne) as (_ & p & Hp & _ & Hl).
    unfold get_parent in Hc. assert (p = c) as -> by congruence.
    apply child_link_lookup in Hl as (pd & Hpd & Hin).
    assert (pd = ndc) as -> by congruence.
    apply childs_container in Hin. by destruct ndc as [r' [| |]].
  - by apply Hdata.
  - apply Hdata. by rewrite <- (handle_text_of (EntityRef name)).
  - apply Hdata. by rewrite <- (handle_text_of (CharRef name)).
  - injection Hev as <-. simpl. rewrite app_nil_r. split.
    + intros c nd' Hc Hnd' Hdata'. simpl in *.
      unfold text_buffers. rewrite omap_drop_alter_same
        by (by intros [r' [d' ch|n a ch|d']]).
      destruct (decide (_doc_node self = c)) as [Heq|Hne].
      * rewrite Heq, list_lookup_alter_eq in Hnd'.
        destruct (store self !! c) as [nd|] eqn:Hnd; [|done].
        injection Hnd' as <-. apply (Hlast c nd); [done..|].
        by destruct nd as [r' [d' ch|n a ch|d']].
      * rewrite list_lookup_alter_ne in Hnd' by done. by eapply Hlast.
    + unfold text_content, text_buffers. f_equal.
      apply omap_alter_same. by intros [r' [d' ch|n a ch|d']].
Qed.

Lemma feed_text_content events self self' :
  wf self → cursor_is_last_text self → feed events self = Ok self' →
  text_content (store self')
  = text_content (store self) ++ concat (omap text_of events).
Proof.
  revert self. induction events as [|ev events IH]; intros self Hwf Hlast Hfeed.
  { injection Hfeed as <-. by rewrite app_nil_r. }
  apply feed_Ok_cons in Hfeed as (mid & Hev & Hrest).
  destruct (handle_text_content ev self mid Hwf Hlast Hev) as (Hwfm & Hlastm & Htext).
  rewrite (IH mid Hwfm Hlastm Hrest), Htext, <- app_assoc. f_equal.
  by destruct ev as [tag attrs|tag|data|name|name|decl].
Qed.

(** X4: the buffers of the Text nodes of a parsed document, read in the
    order the nodes were made, spell the text of the stream: the data of
    the data events and what the references resolve to, in the order of
    the events, whatever tags stand between them.  No character is lost,
    doubled or moved. *)
Theorem text_in_stream_order events self :
  feed events HtmlParser_init = Ok self →
  text_content (store self) = concat (omap text_of events).
Proof.
  intros Hfeed. apply (feed_text_content events HtmlParser_init self);
    [apply wf_init| |done].
  intros c nd [= <-] [= <-]. done.
Qed.

End text_order.

Lemma text_in_stream_order_witness :
  @feed demo_platform
    [Data (str "a"); StartTag (str "b") []; EntityRef (str "amp");
     CharRef (str "x41"); EndTag (str "b"); Data (str "z")] HtmlParser_init
  = Ok {| store := [mkNode None (DocHtmlNode [] [1; 2; 4]);
                    mkNode (Some 0) (DataHtmlNode (str "a"));
                    mkNode (Some 0) (TagHtmlNode (str "b") ∅ [3]);
                    mkNode (Some 2) (DataHtmlNode (str "&A"));
                    mkNode (Some 0) (DataHtmlNode (str "z"))];
          _doc_node := 0;
          _curr_node := Some 4 |}
  ∧ text_content [mkNode None (DocHtmlNode [] [1; 2; 4]);
                  mkNode (Some 0) (DataHtmlNode (str "a"));
                  mkNode (Some 0) (TagHtmlNode (str "b") ∅ [3]);
                  mkNode (Some 2) (DataHtmlNode (str "&A"));
                  mkNode (Some 0) (DataHtmlNode (str "z"))]
    = concat (omap (@text_of demo_platform)
        [Data (str "a"); StartTag (str "b") []; EntityRef (str "amp");
         CharRef (str "x41"); EndTag (str "b"); Data (str "z")]).
Proof.
  split; [reflexivity|].
  apply (@text_in_stream_order demo_platform
    [Data (str "a"); StartTag (str "b") []; EntityRef (str "amp");
     CharRef (str "x41"); EndTag (str "b"); Data (str "z")]
    {| store := [mkNode None (DocHtmlNode [] [1; 2; 4]);
                 mkNode (Some 0) (DataHtmlNode (str "a"));
                 mkNode (Some 0) (TagHtmlNode (str "b") ∅ [3]);
                 mkNode (Some 2) (DataHtmlNode (str "&A"));
                 mkNode (Some 0) (DataHtmlNode (str "z"))];
       _doc_node := 0;
       _curr_node := Some 4 |}).
  reflexivity.
Defined.

(** ** Declarations and the queries *)

Lemma same_shape_container (h h' : list HtmlNode) (node : node_id) :
  (∀ i, shape <$> h' !! i = shape <$> h !! i) →
  from_option is_container false (h' !! node)
  = from_option is_container false (h !! node).
Proof.
  intros Hs. specialize (Hs node).
  destruct (h' !! node) as [nd'|], (h !! node) as [nd|]; simpl in *; try done.
  apply shape_container. congruence.
Qed.

Lemma same_shape_for_node_iter (h h' : list HtmlNode) direct_only l acc :
  (∀ i, shape <$> h' !! i = shape <$> h !! i) →
  for_node_iter h' direct_only l acc = for_node_iter h direct_only l acc.
Proof.
  intros Hs. revert acc. induction l as [|node l IH]; intros acc; [done|]. simpl.
  by rewrite (same_shape_container h h' node Hs), (same_shape_childs h h' Hs), IH.
Qed.

Lemma same_shape_get_all_nodes (h h' : list HtmlNode) roots direct_only :
  (∀ i, shape <$> h' !! i = shape <$> h !! i) →
  get_all_nodes h' roots direct_only = get_all_nodes h roots direct_only.
Proof.
  intros Hs. unfold get_all_nodes. rewrite (same_shape_length h h' Hs).
  generalize (S (length h)). intros fuel. revert roots.
  induction fuel as [|fuel IH]; intros roots; [done|]. simpl.
  rewrite (same_shape_for_node_iter h h' _ _ _ Hs).
  destruct (for_node_iter h (default false direct_only) roots []) as [ys [|x next]];
    [done|]. by rewrite IH.
Qed.

Lemma check_filter_decl_append decl c h name attrs in_attrs node :
  check_filter (alter (decl_append decl) c h) name attrs in_attrs node
  = check_filter h name attrs in_attrs node.
Proof.
  unfold check_filter. destruct (decide (c = node)) as [->|Hne].
  - rewrite list_lookup_alter_eq. by destruct (h !! node) as [[r [d ch|n a ch|d]]|].
  - by rewrite list_lookup_alter_ne.
Qed.

(** X5: a declaration is out of sight of the queries: when the document
    reference of the parser is a Document node (as it is in every state of
    the class) the handler returns, adds the declaration at the end of the
    list of that node, leaves the cursor where it was, and the traversal
    and [find_tags] give, for every root list, filter and mode, what they
    gave before. *)
Theorem decl_invisible_to_queries decl self roots name attrs in_attrs direct_only :
  (∃ nd, store self !! get_node self = Some nd ∧ is_doc nd = true) →
  ∃ self', _decl_handle decl self = Ok self'
    ∧ doc_decl self' = doc_decl self ++ [decl]
    ∧ _curr_node self' = _curr_node self
    ∧ get_all_nodes (store self') roots direct_only
      = get_all_nodes (store self) roots direct_only
    ∧ find_tags (store self') roots name attrs in_attrs direct_only
      = find_tags (store self) roots name attrs in_attrs direct_only.
Proof.
  intros Hdoc. eexists. split; [done|]. simpl.
  assert (get_all_nodes (alter (decl_append decl) (_doc_node self) (store self))
            roots direct_only = get_all_nodes (store self) roots direct_only) as Hget.
  { apply same_shape_get_all_nodes. intros i.
    apply alter_shape_lookup, decl_append_shape. }
  split_and!; [|done..|].
  - destruct Hdoc as ([r [d ch|n a ch|d]] & Hnd & Hd); try done.
    unfold doc_decl, get_node in *. simpl.
    by rewrite list_lookup_alter_eq, Hnd.
  - unfold find_tags. rewrite Hget.
    destruct (get_all_nodes (store self) roots direct_only) as [nodes| |]; [|done..].
    simpl. f_equal. apply list_filter_iff. intros i.
    by rewrite check_filter_decl_append.
Qed.

Lemma decl_invisible_to_queries_witness :
  (∃ nd, store demo_tree_state !! get_node demo_tree_state = Some nd
         ∧ is_doc nd = true)
  ∧ ∃ self', _decl_handle (str "DOCTYPE html") demo_tree_state = Ok self'
    ∧ doc_decl self' = doc_decl demo_tree_state ++ [str "DOCTYPE html"]
    ∧ _curr_node self' = _curr_node demo_tree_state
    ∧ get_all_nodes (store self') [0] None
      = get_all_nodes (store demo_tree_state) [0] None
    ∧ find_tags (store self') [0] (Some (str "a")) None None None
      = find_tags (store demo_tree_state) [0] (Some (str "a")) None None None.
Proof.
  assert (∃ nd, store demo_tree_state !! get_node demo_tree_state = Some nd
                ∧ is_doc nd = true) as Hdoc by (eexists; split; reflexivity).
  split; [exact Hdoc|].
  exact (decl_invisible_to_queries (str "DOCTYPE html") demo_tree_state [0]
           (Some (str "a")) None None None Hdoc).
Defined.

(** ** Balanced streams *)

Lemma insertion_point_wf self :
  wf self →
  ∃ p pd, insertion_point self = Some p ∧ store self !! p = Some pd
    ∧ is_container pd = true
    ∧ parent_node_loop (loop_fuel self) (store self) (_curr_node self) = Ok p.
Proof.
  intros Hwf. pose proof Hwf as [Hdoc Ht (c & Hc & Hlt & _) _].
  pose proof (tree_nonempty _ Ht) as Hlen.
  destruct (parent_node_loop_tree (store self) c (length (store self) - 1) Ht Hlt)
    as (p & pd & Hloop & Hp & Hcont & _ & Hpc).
  exists p, pd. split_and!; [|done..|].
  - unfold insertion_point. rewrite Hc. simpl.
    destruct (store self !! c) as [cd|] eqn:Hcd; [|by apply lookup_lt_is_Some_2 in Hlt as [? ?]; congruence].
    simpl. destruct Hpc as [->|[Htxt Hl]].
    + assert (cd = pd) as -> by congruence. by rewrite Hcont.
    + unfold text_at in Htxt. rewrite Hcd in Htxt. simpl in Htxt.
      destruct (tree_child _ Ht p c Hl) as (cd' & Hcd' & Hpar).
      assert (cd' = cd) as -> by congruence.
      by destruct cd as [r [| |]].
  - unfold loop_fuel. rewrite Hc.
    by replace (S (length (store self))) with (S (S (length (store self) - 1))) by lia.
Qed.

Section balanced.
Context {P : Platform}.

Lemma feed_app events1 events2 self :
  feed (events1 ++ events2) self = feed events1 self ≫= feed events2.
Proof.
  revert self. induction events1 as [|ev events1 IH]; intros self; [done|].
  simpl. destruct (handle ev self) as [mid| |]; [|done..]. apply IH.
Qed.

(** Text and declarations leave the insertion point where it is. *)
Lemma data_handle_insertion_point data self mid :
  wf self → _data_handle data self = Ok mid →
  insertion_point mid = insertion_point self.
Proof.
  intros Hwf Hd. destruct (insertion_point_wf self Hwf) as (p & pd & Hip & Hp & Hc & Hl).
  pose proof Hwf as [_ _ (c & Hcur & Hlt & _) _].
  destruct (lookup_lt_is_Some_2 _ c Hlt) as [[r k] Hcd].
  destruct (decide (is_data (mkNode r k) = true)) as [Hdata|Hdata].
  - destruct k as [| |d]; try done.
    rewrite (data_handle_text data self c r d) in Hd by done. injection Hd as <-.
    unfold insertion_point. simpl. rewrite Hcur. simpl.
    rewrite list_lookup_insert_eq by done. by rewrite Hcd.
  - rewrite data_handle_new in Hd by not_text_cursor Hcur Hcd.
    rewrite Hl in Hd. injection Hd as <-. rewrite Hip.
    unfold insertion_point. simpl. by rewrite add_node_lookup_new.
Qed.

Lemma neutral_insertion_point ev self mid :
  wf self → match ev with StartTag _ _ | EndTag _ => False | _ => True end →
  handle ev self = Ok mid → insertion_point mid = insertion_point self.
Proof.
  intros Hwf Hev Hmid. destruct ev as [tag attrs|tag|data|name|name|decl]; try done;
    simpl in Hmid.
  - by eapply data_handle_insertion_point.
  - unfold _entityref_handle in Hmid. destruct (entityref_data name); [|done..].
    by eapply data_handle_insertion_point.
  - unfold _charref_handle in Hmid. destruct (charref_data name); [|done..].
    by eapply data_handle_insertion_point.
  - injection Hmid as <-. unfold insertion_point. simpl.
    destruct (_curr_node self) as [c|]; [|done]. simpl.
    destruct (decide (_doc_node self = c)) as [->|Hne].
    + rewrite list_lookup_alter_eq. by destruct (store self !! c) as [[r [| |]]|].
    + by rewrite list_lookup_alter_ne.
Qed.

(** A start tag puts the insertion point on the Element it makes, under
    the old insertion point. *)
Lemma starttag_insertion_point tag attrs self mid :
  wf self → _starttag_handle tag attrs self = Ok mid →
  ∃ p, insertion_point self = Some p
    ∧ insertion_point mid = Some (length (store self))
    ∧ store mid !! length (store self)
      = Some (mkNode (Some p) (TagHtmlNode tag (dict_update ∅ attrs) [])).
Proof.
  intros Hwf Hmid.
  destruct (insertion_point_wf self Hwf) as (p & pd & Hip & Hp & Hc & Hl).
  unfold _starttag_handle in Hmid. rewrite Hl in Hmid. injection Hmid as <-.
  exists p. split; [done|]. unfold insertion_point. simpl.
  change (alter (childs_append (length (store self))) p (store self) ++ ?x)
    with (add_node (store self) p (hd (mkNode None (DataHtmlNode [])) x)).
  by rewrite add_node_lookup_new.
Qed.

(** An end tag with the name of the Element the insertion point is on
    closes that Element. *)
Lemma endtag_insertion_point tag self n p attrs ch :
  wf self → insertion_point self = Some n →
  store self !! n = Some (mkNode (Some p) (TagHtmlNode tag attrs ch)) →
  _endtag_handle tag self
  = Ok {| store := store self; _doc_node := _doc_node self; _curr_node := Some p |}.
Proof.
  intros Hwf Hip Hn. pose proof Hwf as [_ Ht (c & Hcur & Hlt & _) _].
  destruct (lookup_lt_is_Some_2 _ c Hlt) as [cd Hcd].
  unfold insertion_point in Hip. rewrite Hcur in Hip. simpl in Hip.
  rewrite Hcd in Hip. simpl in Hip.
  unfold _endtag_handle, loop_fuel. rewrite Hcur.
  destruct (store self) as [|x [|y h]] eqn:Hstore.
  - simpl in Hlt. lia.
  - (* one node: the Document *)
    exfalso. destruct n as [|n]; [|done].
    destruct (tree_root _ Ht) as (nd0 & H0 & Hd0 & _). simpl in *. by simplify_eq.
  - rewrite <- Hstore in *.
    change (closing_node_loop (S (length (store self))) (store self) tag (Some c))
      with (match store self !! c with
            | None => Raise AttributeError
            | Some nd =>
              match kind nd with
              | DocHtmlNode _ _ => Ok None
              | TagHtmlNode name _ _ =>
                if bool_decide (name = tag) then Ok (Some (get_parent nd))
                else closing_node_loop (length (store self)) (store self) tag
                       (get_parent nd)
              | DataHtmlNode _ =>
                closing_node_loop (length (store self)) (store self) tag (get_parent nd)
              end
            end).
    rewrite Hcd. destruct (is_container cd) eqn:Hcont.
    + injection Hip as ->. assert (cd = mkNode (Some p) (TagHtmlNode tag attrs ch))
        as -> by congruence.
      simpl. by rewrite bool_decide_eq_true_2.
    + destruct cd as [r [| |d]]; try done. simpl in Hip. simpl.
      unfold get_parent. simpl. subst r. rewrite Hstore. simpl length.
      rewrite <- Hstore.
      change (closing_node_loop (S (S (length h))) (store self) tag (Some n))
        with (match store self !! n with
              | None => Raise AttributeError
              | Some nd =>
                match kind nd with
                | DocHtmlNode _ _ => Ok None
                | TagHtmlNode name _ _ =>
                  if bool_decide (name = tag) then Ok (Some (get_parent nd))
                  else closing_node_loop (S (length h)) (store self) tag
                         (get_parent nd)
                | DataHtmlNode _ =>
                  closing_node_loop (S (length h)) (store self) tag (get_parent nd)
                end
              end).
      rewrite Hn. simpl. by rewrite bool_decide_eq_true_2.
Qed.

Lemma balanced_feed events self :
  balanced events → wf self →
  ∃ self', feed events self = Ok self' ∧ wf self'
    ∧ insertion_point self' = insertion_point self.
Proof.
  intros Hbal. revert self.
  assert (∀ ev rest,
    match ev with StartTag _ _ | EndTag _ => False | _ => True end →
    (∀ self, wf self → ∃ self', feed rest self = Ok self' ∧ wf self'
       ∧ insertion_point self' = insertion_point self) →
    ∀ self, wf self → ∃ self', feed (ev :: rest) self = Ok self' ∧ wf self'
       ∧ insertion_point self' = insertion_point self) as Hneutral.
  { intros ev rest Hev IH self Hwf.
    destruct (handle_wf ev self Hwf) as (mid & Hmid & Hwfm).
    destruct (IH mid Hwfm) as (self' & Hfeed & Hwf' & Hip).
    exists self'. simpl. rewrite Hmid. split_and!; [done..|].
    rewrite Hip. by eapply neutral_insertion_point. }
  induction Hbal as [|data rest _ IH|name rest _ IH|name rest _ IH|decl rest _ IH
                     |tag attrs inner rest _ IHinner _ IHrest]; intros self Hwf.
  - by exists self.
  - by apply Hneutral.
  - by apply Hneutral.
  - by apply Hneutral.
  - by apply Hneutral.
  - destruct (handle_wf (StartTag tag attrs) self Hwf) as (s1 & Hs1 & Hwf1).
    destruct (starttag_insertion_point tag attrs self s1 Hwf Hs1)
      as (p & Hip & Hip1 & Hnew).
    destruct (insertion_point_wf self Hwf) as (p' & pd & Hip' & Hp & Hcont & _).
    assert (p' = p) as -> by congruence.
    destruct (IHinner s1 Hwf1) as (s2 & Hs2 & Hwf2 & Hip2).
    destruct (feed_growth inner s1 s2 Hs2) as (Hgrow & _ & Hdoc).
    destruct (Hgrow _ _ Hnew) as ([r2 k2] & Hn2 & Hpar2 & Hk2).
    simpl in Hpar2, Hk2. destruct k2 as [|n2 a2 ch2|]; try done.
    destruct Hk2 as (-> & -> & _). subst r2.
    pose proof (endtag_insertion_point tag s2 _ p _ _ Hwf2
                  (eq_trans Hip2 Hip1) Hn2) as Hs3.
    destruct (endtag_handle_wf tag s2 Hwf2) as (s3 & Hs3' & Hwf3).
    rewrite Hs3 in Hs3'. injection Hs3' as Hs3'.
    destruct (IHrest s3 Hwf3) as (self' & Hfeed & Hwf' & Hip3).
    exists self'. split_and!; [|done|].
    + rewrite feed_cons, Hs1.
      change (feed (inner ++ EndTag tag :: rest) s1 = Ok self').
      rewrite feed_app, Hs2.
      change (feed (EndTag tag :: rest) s2 = Ok self').
      rewrite feed_cons.
      change (handle (EndTag tag) s2) with (_endtag_handle tag s2).
      rewrite Hs3, Hs3'. exact Hfeed.
    + rewrite Hip3, Hip, <- Hs3'. unfold insertion_point. simpl.
      (* the old insertion point is still a Document or Element node *)
      destruct (feed_growth [StartTag tag attrs] self s1) as (Hgrow1 & _).
      { by rewrite feed_cons, Hs1. }
      destruct (Hgrow1 _ _ Hp) as (pd1 & Hp1 & Hg1).
      destruct (Hgrow _ _ Hp1) as (pd2 & Hp2 & Hg2).
      rewrite Hp2. simpl.
      assert (node_grows pd pd2) as [_ Hg] by (by etrans).
      by destruct pd as [? [| |]], pd2 as [? [| |]].
Qed.

(** X6: over a balanced stream, one in which every start tag has its end
    tag and the elements nest, the parser returns with the insertion point
    where it was: what follows a closed element becomes its sibling, not
    its child.  This holds in every state a fresh parser reaches, so also
    in the middle of a document with elements still open. *)
Theorem balanced_stream_restores_insertion_point events0 events self :
  feed events0 HtmlParser_init = Ok self → balanced events →
  ∃ self', feed events self = Ok self'
    ∧ insertion_point self' = insertion_point self.
Proof.
  intros Hwf%feed_init_inv Hbal.
  destruct (balanced_feed events self Hbal Hwf) as (self' & Hfeed & _ & Hip).
  by exists self'.
Qed.

Lemma demo_tree_events_balanced : balanced demo_tree_events.
Proof.
  apply (balanced_element _ _
           [StartTag (str "b") []; EndTag (str "b");
            StartTag (str "c") []; EndTag (str "c")] []); [|constructor].
  apply (balanced_element _ _ [] [StartTag (str "c") []; EndTag (str "c")]);
    [constructor|].
  apply (balanced_element _ _ [] []); constructor.
Qed.

End balanced.

Lemma balanced_stream_restores_insertion_point_witness :
  @feed demo_platform demo_open_events HtmlParser_init = Ok demo_open_state
  ∧ balanced demo_tree_events
  ∧ ∃ self', @feed demo_platform demo_tree_events demo_open_state = Ok self'
      ∧ insertion_point self' = insertion_point demo_open_state.
Proof.
  split; [reflexivity|]. split; [exact demo_tree_events_balanced|].
  apply (@balanced_stream_restores_insertion_point demo_platform demo_open_events);
    [reflexivity|exact demo_tree_events_balanced].
Defined.

(** ** The parsed document under the queries *)

Lemma tree_reach h x : tree h → rtc (child_link h) 0 x ↔ x < length h.
Proof.
  intros Ht. split.
  - intros [<-|Htc]%rtc_tc; [by apply tree_nonempty|].
    destruct (tc_last_step _ 0 x Htc) as (y & _ & Hyx).
    by apply (tree_link_lt h y x Ht) in Hyx as [_ ?].
  - induction x as [x IH] using lt_wf_ind. intros Hx.
    destruct (decide (x = 0)) as [->|Hne]; [done|].
    destruct (lookup_lt_is_Some_2 h x Hx) as [nd Hnd].
    destruct (tree_parent h Ht x nd Hnd Hne) as (_ & p & _ & Hlt & Hl).
    eapply rtc_r; [|done]. apply IH; [done|lia].
Qed.

Lemma filter_iff_in {A} (P1 P2 : A → Prop) `{∀ x, Decision (P1 x)}
    `{∀ x, Decision (P2 x)} (l : list A) :
  (∀ x, x ∈ l → P1 x ↔ P2 x) → filter P1 l = filter P2 l.
Proof.
  induction l as [|x l IH]; intros Hl; [done|].
  rewrite !filter_cons, IH by (intros y Hy; apply Hl; by right).
  destruct (decide (P1 x)) as [H1|H1], (decide (P2 x)) as [H2|H2]; try done.
  - destruct H2. by apply (Hl x); [left|].
  - destruct H1. by apply (Hl x); [left|].
Qed.

Lemma check_filter_app_l h x name attrs in_attrs i :
  i < length h →
  check_filter (h ++ [x]) name attrs in_attrs i = check_filter h name attrs in_attrs i.
Proof. intros Hi. unfold check_filter. by rewrite lookup_app_l. Qed.

(** The nodes a name alone selects are the Elements of that name. *)
Lemma check_filter_name_count h t :
  length (filter (fun i => check_filter h (Some t) ∅ ∅ i = true) (seq 0 (length h)))
  = length (filter (fun e => e.1 = t) (elements_of h)).
Proof.
  induction h as [|x h IH] using rev_ind; [done|].
  rewrite length_app. simpl length. rewrite Nat.add_1_r, seq_S, !filter_app.
  unfold elements_of at 1. rewrite omap_app, filter_app, !length_app.
  fold (elements_of h). rewrite <- IH. f_equal.
  - f_equal. apply filter_iff_in. intros i Hi%elem_of_seq.
    rewrite check_filter_app_l by lia. done.
  - assert (check_filter (h ++ [x]) (Some t) ∅ ∅ (0 + length h)
            = match kind x with
              | TagHtmlNode n _ _ => bool_decide (t = n)
              | _ => false
              end) as Hc.
    { unfold check_filter. rewrite lookup_app_r, Nat.add_0_l, Nat.sub_diag by lia.
      simpl. rewrite map_to_list_empty.
      destruct x as [r [d ch|n a ch|d]]; simpl; [done| |done].
      by rewrite !andb_true_r. }
    rewrite filter_cons, filter_nil, Hc.
    destruct x as [r [d ch|n a ch|d]]; csimpl.
    + by rewrite ?decide_False by done.
    + destruct (decide (t = n)) as [->|Hne].
      * rewrite bool_decide_eq_true_2 by done. rewrite decide_True by done.
        by rewrite filter_cons, filter_nil, decide_True by done.
      * rewrite bool_decide_eq_false_2 by done. rewrite decide_False by done.
        by rewrite filter_cons, filter_nil, decide_False by (simpl; congruence).
    + by rewrite ?decide_False by done.
Qed.

Section parsed.
Context {P : Platform}.

Lemma parsed_traversal events self :
  feed events HtmlParser_init = Ok self →
  ∃ rest, get_all_nodes (store self) [get_node self] None = Ok (get_node self :: rest)
    ∧ get_node self :: rest ≡ₚ seq 0 (length (store self)).
Proof.
  intros Hwf%feed_init_inv. pose proof (wf_tree _ Hwf) as Ht.
  pose proof (tree_forest _ Ht) as Hf. unfold get_node. rewrite (wf_doc_node _ Hwf).
  pose proof (forest_level_bound (store self) [0] Hf) as Hd.
  exists (levels (store self) ([0] ≫= childs_of (store self)) (length (store self))).
  assert (levels (store self) [0] (S (length (store self)))
          = 0 :: levels (store self) ([0] ≫= childs_of (store self))
                   (length (store self))) as Hlv by (by rewrite levels_shift).
  rewrite <- Hlv. split.
  - apply (get_all_nodes_loop_levels _ (S (length (store self))) [0]
             (length (store self))); [done|lia].
  - apply NoDup_Permutation.
    + apply forest_levels_NoDup; [done|]. split; [apply NoDup_singleton|].
      by intros r1 r2 x ->%list_elem_of_singleton ->%list_elem_of_singleton.
    + apply NoDup_seq.
    + intros x. rewrite (levels_subtrees _ [0] _ x Hd), elem_of_seq. split.
      * intros (r & ->%list_elem_of_singleton & Hr).
        apply (tree_reach _ x Ht) in Hr. lia.
      * intros [_ Hx]. exists 0. split; [by apply list_elem_of_singleton|].
        apply tree_reach; [done|lia].
Qed.

(** X7: [html_parse] never fails, and the document it returns is wholly in
    reach of the queries: the traversal from the returned node yields that
    node first and then every other node of the store, each exactly once;
    so [find_tags] from it, whatever the filter, returns every node the
    filter holds on, once. *)
Theorem parsed_document_fully_traversed events :
  ∃ h root rest,
    html_parse events = Ok (h, root)
    ∧ get_all_nodes h [root] None = Ok (root :: rest)
    ∧ root :: rest ≡ₚ seq 0 (length h)
    ∧ ∀ name attrs in_attrs, ∃ out,
        find_tags h [root] name attrs in_attrs None = Ok out
        ∧ out ≡ₚ filter (fun i => check_filter h name (default ∅ attrs)
                                   (default ∅ in_attrs) i = true)
                   (seq 0 (length h)).
Proof.
  destruct (feed_init_wf events) as (self & Hfeed & Hwf).
  destruct (parsed_traversal events self Hfeed) as (rest & Hget & Hperm).
  exists (store self), (get_node self), rest. split_and!; [|done..|].
  - unfold html_parse. by rewrite Hfeed.
  - intros name attrs in_attrs. eexists. split.
    + unfold find_tags. rewrite Hget. done.
    + by rewrite Hperm.
Qed.

(** X8: [find_tags] from the root of a parsed document with a name and no
    other filter returns as many Elements as the stream had start tags of
    that name, closed or not. *)
Theorem find_tags_counts_start_tags events self t out :
  feed events HtmlParser_init = Ok self →
  find_tags (store self) [get_node self] (Some t) None None None = Ok out →
  length out = length (filter (fun e => e.1 = t) (start_tags events)).
Proof.
  intros Hfeed Hout.
  destruct (parsed_traversal events self Hfeed) as (rest & Hget & Hperm).
  unfold find_tags in Hout. rewrite Hget in Hout. injection Hout as <-.
  rewrite Hperm. simpl. rewrite check_filter_name_count.
  by rewrite (feed_elements_of events HtmlParser_init self Hfeed).
Qed.

End parsed.

Lemma find_tags_counts_start_tags_witness :
  @feed demo_platform
    [StartTag (str "b") []; StartTag (str "i") []; StartTag (str "b") [];
     EndTag (str "i")] HtmlParser_init
  = Ok {| store := [mkNode None (DocHtmlNode [] [1]);
                    mkNode (Some 0) (TagHtmlNode (str "b") ∅ [2]);
                    mkNode (Some 1) (TagHtmlNode (str "i") ∅ [3]);
                    mkNode (Some 2) (TagHtmlNode (str "b") ∅ [])];
          _doc_node := 0;
          _curr_node := Some 1 |}
  ∧ find_tags [mkNode None (DocHtmlNode [] [1]);
               mkNode (Some 0) (TagHtmlNode (str "b") ∅ [2]);
               mkNode (Some 1) (TagHtmlNode (str "i") ∅ [3]);
               mkNode (Some 2) (TagHtmlNode (str "b") ∅ [])]
      [0] (Some (str "b")) None None None = Ok [1; 3]
  ∧ length [1; 3]
    = length (filter (fun e => e.1 = str "b")
        (start_tags [StartTag (str "b") []; StartTag (str "i") [];
                     StartTag (str "b") []; EndTag (str "i")])).
Proof.
  split; [reflexivity|]. split; [by vm_compute|].
  apply (@find_tags_counts_start_tags demo_platform
    [StartTag (str "b") []; StartTag (str "i") []; StartTag (str "b") [];
     EndTag (str "i")]
    {| store := [mkNode None (DocHtmlNode [] [1]);
                 mkNode (Some 0) (TagHtmlNode (str "b") ∅ [2]);
                 mkNode (Some 1) (TagHtmlNode (str "i") ∅ [3]);
                 mkNode (Some 2) (TagHtmlNode (str "b") ∅ [])];
       _doc_node := 0;
       _curr_node := Some 1 |} (str "b") [1; 3]); [reflexivity|by vm_compute].
Defined.

(** ** More on the filter *)

Lemma sublist_filter_impl {A} (P1 P2 : A → Prop) `{∀ x, Decision (P1 x)}
    `{∀ x, Decision (P2 x)} (l : list A) :
  (∀ x, P1 x → P2 x) → sublist (filter P1 l) (filter P2 l).
Proof.
  intros Himpl. induction l as [|x l IH]; [constructor|].
  rewrite !filter_cons.
  destruct (decide (P1 x)) as [H1|H1], (decide (P2 x)) as [H2|H2].
  - by apply sublist_skip.
  - destruct H2. by apply Himpl.
  - by apply sublist_cons.
  - done.
Qed.

(** X9: a filter with more to ask returns a part of what a filter with
    less to ask returns, in the same order: adding a name, an attribute
    pair or a class pair to the filter of [find_tags] only removes
    results. *)
Theorem find_tags_narrows h roots name name' attrs attrs' in_attrs in_attrs'
    direct_only out out' :
  name = None ∨ name = name' → attrs ⊆ attrs' → in_attrs ⊆ in_attrs' →
  find_tags h roots name (Some attrs) (Some in_attrs) direct_only = Ok out →
  find_tags h roots name' (Some attrs') (Some in_attrs') direct_only = Ok out' →
  sublist out' out.
Proof.
  intros Hname Hattrs Hin Hout Hout'. unfold find_tags in *.
  destruct (get_all_nodes h roots direct_only) as [nodes| |]; [|done..].
  injection Hout as <-. injection Hout' as <-. simpl.
  apply sublist_filter_impl. intros i.
  rewrite !check_filter_spec.
  intros (nd & nm & a & ch & Hi & Hk & Hn & Ha & Hi').
  exists nd, nm, a, ch. split_and!; [done..| | |].
  - intros n ->. destruct Hname as [?|<-]; [done|]. by apply Hn.
  - intros k v Hkv. apply Ha. by eapply lookup_weaken.
  - intros k v Hkv. apply Hi'. by eapply lookup_weaken.
Qed.

Lemma find_tags_narrows_witness :
  (@None pystr = None ∨ None = Some (str "p"))
  ∧ (∅ : gmap pystr pystr) ⊆ {[ str "class" := str "x y" ]}
  ∧ (∅ : gmap pystr pystr) ⊆ {[ str "class" := str "x" ]}
  ∧ find_tags demo_class_store [0] None (Some ∅) (Some ∅) None = Ok [1; 2]
  ∧ find_tags demo_class_store [0] (Some (str "p"))
      (Some {[ str "class" := str "x y" ]}) (Some {[ str "class" := str "x" ]}) None
    = Ok [1]
  ∧ sublist [1] [1; 2].
Proof.
  assert ((∅ : gmap pystr pystr) ⊆ {[ str "class" := str "x y" ]}) as H1
    by apply map_empty_subseteq.
  assert ((∅ : gmap pystr pystr) ⊆ {[ str "class" := str "x" ]}) as H2
    by apply map_empty_subseteq.
  assert (find_tags demo_class_store [0] None (Some ∅) (Some ∅) None = Ok [1; 2])
    as H3 by (by vm_compute).
  assert (find_tags demo_class_store [0] (Some (str "p"))
            (Some {[ str "class" := str "x y" ]})
            (Some {[ str "class" := str "x" ]}) None = Ok [1]) as H4
    by (by vm_compute).
  split_and!; [by left|done..|].
  exact (find_tags_narrows demo_class_store [0] None (Some (str "p")) ∅ _ ∅ _ None
           [1; 2] [1] (or_introl eq_refl) H1 H2 H3 H4).
Defined.

(** ** Class lists *)

Lemma split_space_token t w :
  32%Z ∉ t → split_space (t ++ 32%Z :: w) = t :: split_space w.
Proof.
  induction t as [|c t IH]; intros Ht; [done|]. simpl.
  rewrite bool_decide_eq_false_2 by (intros ->; apply Ht; by left).
  rewrite IH; [done|]. intros Hin. apply Ht. by right.
Qed.

Lemma split_space_one t : 32%Z ∉ t → split_space t = [t].
Proof.
  induction t as [|c t IH]; intros Ht; [done|]. simpl.
  rewrite bool_decide_eq_false_2 by (intros ->; apply Ht; by left).
  rewrite IH; [done|]. intros Hin. apply Ht. by right.
Qed.

Lemma split_join_space ts :
  ts ≠ [] → Forall (fun t => 32%Z ∉ t) ts → split_space (join_space ts) = ts.
Proof.
  induction ts as [|t [|t' ts] IH]; intros Hne Hts; [done| |].
  - apply Forall_cons in Hts as [Ht _]. by apply split_space_one.
  - apply Forall_cons in Hts as [Ht Hts].
    change (join_space (t :: t' :: ts)) with (t ++ 32%Z :: join_space (t' :: ts)).
    rewrite split_space_token by done. by rewrite IH.
Qed.

(** X10: cutting at single spaces undoes joining with single spaces, for a
    list of pieces that has a piece and whose pieces hold no space; so an
    Element whose attribute is such a joined list passes a filter pair on
    that attribute exactly when the value asked for is one of the
    pieces. *)
Theorem class_list_matching h i r n a ch k ts v :
  ts ≠ [] → Forall (fun t => 32%Z ∉ t) ts →
  h !! i = Some (mkNode r (TagHtmlNode n a ch)) → a !! k = Some (join_space ts) →
  split_space (join_space ts) = ts
  ∧ (check_filter h None ∅ {[ k := v ]} i = true ↔ v ∈ ts).
Proof.
  intros Hne Hts Hi Hk. pose proof (split_join_space ts Hne Hts) as Hsplit.
  split; [done|]. rewrite check_filter_spec. split.
  - intros (nd & nm & a' & ch' & Hi' & Hk' & _ & _ & Hin).
    rewrite Hi in Hi'. injection Hi' as <-. simpl in Hk'. injection Hk' as <- <- <-.
    destruct (Hin k v) as (w & Hw & Hv); [apply lookup_singleton_eq|].
    rewrite Hk in Hw. injection Hw as <-. by rewrite Hsplit in Hv.
  - intros Hv. exists (mkNode r (TagHtmlNode n a ch)), n, a, ch.
    split_and!; [done..| |].
    + by intros k' v' ?%lookup_empty_Some.
    + intros k' v' [-> ->]%lookup_singleton_Some. exists (join_space ts).
      split; [done|]. by rewrite Hsplit.
Qed.

Lemma class_list_matching_witness :
  [str "x"; str "y"] ≠ []
  ∧ Forall (fun t => 32%Z ∉ t) [str "x"; str "y"]
  ∧ demo_class_store !! 1
    = Some (mkNode (Some 0)
              (TagHtmlNode (str "p") {[ str "class" := str "x y" ]} []))
  ∧ ({[ str "class" := str "x y" ]} : gmap pystr pystr) !! str "class"
    = Some (join_space [str "x"; str "y"])
  ∧ split_space (join_space [str "x"; str "y"]) = [str "x"; str "y"]
  ∧ (check_filter demo_class_store None ∅ {[ str "class" := str "y" ]} 1 = true
     ↔ str "y" ∈ [str "x"; str "y"]).
Proof.
  assert (Forall (fun t => 32%Z ∉ t) [str "x"; str "y"]) as Hts.
  { repeat constructor; intros Hin; repeat (apply elem_of_cons in Hin as [Hin|Hin];
      [done|]); by apply elem_of_nil in Hin. }
  assert (({[ str "class" := str "x y" ]} : gmap pystr pystr) !! str "class"
          = Some (join_space [str "x"; str "y"])) as Hk by (by vm_compute).
  destruct (class_list_matching demo_class_store 1 (Some 0) (str "p") _ []
              (str "class") [str "x"; str "y"] (str "y") ltac:(done) Hts eq_refl Hk)
    as [Hsplit Hiff].
  split_and!; [done|exact Hts|done|exact Hk|exact Hsplit|exact Hiff].
Defined.

(** ** Stores that are no forest *)

(** The walk raises nothing. *)
Lemma get_all_nodes_loop_never_raises fuel h d l e :
  get_all_nodes_loop fuel h d l ≠ Raise e.
Proof.
  revert l. induction fuel as [|fuel IH]; intros l; [done|]. simpl.
  destruct (for_node_iter h d l []) as [yielded [|x next]]; [done|].
  specialize (IH (x :: next)).
  by destruct (get_all_nodes_loop fuel h d (x :: next)).
Qed.

(** Below a node that is below itself no level is empty. *)
Lemma cycle_level_nonempty h roots r i n :
  r ∈ roots → rtc (child_link h) r i → tc (child_link h) i i →
  level h roots n ≠ [].
Proof.
  intros Hr [a Ha]%rtc_nsteps_1 (p & Hp & Hcyc)%tc_nsteps Hnil.
  assert (i ∈ level h roots (a + n * p)) as Hi.
  { apply level_nsteps. exists r. split; [done|].
    eapply nsteps_trans; [done|]. by apply nsteps_iter. }
  rewrite (level_nil_mono h roots n) in Hi; [by apply elem_of_nil in Hi|done|nia].
Qed.

(** A level past the size of the store is below a node that is below
    itself. *)
Lemma deep_level_cycle h roots x :
  x ∈ level h roots (S (length h)) →
  ∃ r i, r ∈ roots ∧ rtc (child_link h) r i ∧ tc (child_link h) i i.
Proof.
  intros (r & Hr & Hn)%level_nsteps.
  apply nsteps_inv_r in Hn as (y & Hn & Hyx).
  destruct (long_walk_cycle (child_link h) (length h) (length h) r y)
    as (i & Hri & Hcyc); [|done| |done|by exists r, i].
  - intros ? ? (pd & ?%lookup_lt_Some & _)%child_link_lookup. done.
  - apply child_link_lookup in Hyx as (pd & ?%lookup_lt_Some & _). done.
Qed.

(** X11: in every store, a forest or not, the walk over all the nodes
    raises nothing, and it goes on for ever exactly when a node below a
    root (or a root) is below itself; in particular it ends on every store
    without such a node, with the levels in order. *)
Theorem traversal_diverges_iff_cycle h roots :
  (get_all_nodes h roots None = Diverge
   ↔ ∃ r i, r ∈ roots ∧ rtc (child_link h) r i ∧ tc (child_link h) i i)
  ∧ (∀ e, get_all_nodes h roots None ≠ Raise e)
  ∧ ((∀ r i, r ∈ roots → rtc (child_link h) r i → ¬ tc (child_link h) i i) →
     get_all_nodes h roots None = Ok (levels h roots (S (length h))))
  ∧ get_all_nodes demo_cyclic_store [0] None = Diverge.
Proof.
  assert (level h roots (S (length h)) = [] →
          get_all_nodes h roots None = Ok (levels h roots (S (length h)))) as Hends.
  { intros Hnil.
    apply (get_all_nodes_loop_levels h (S (length h)) roots (length h)); [done|lia]. }
  split_and!.
  - split.
    + intros Hdiv. destruct (level h roots (S (length h))) as [|x l] eqn:Hl.
      { rewrite Hends in Hdiv; done. }
      apply (deep_level_cycle h roots x). rewrite Hl. by left.
    + intros (r & i & Hr & Hri & Hcyc).
      destruct (get_all_nodes h roots None) as [out|e|] eqn:Hget; [| |done].
      * apply get_all_nodes_loop_ends in Hget as (d & _ & Hnil & _).
        by destruct (cycle_level_nonempty h roots r i (S d)).
      * by destruct (get_all_nodes_loop_never_raises _ _ _ _ _ Hget).
  - intros e. apply get_all_nodes_loop_never_raises.
  - intros Hacyc. apply Hends.
    destruct (level h roots (S (length h))) as [|x l] eqn:Hl; [done|].
    destruct (deep_level_cycle h roots x) as (r & i & Hr & Hri & Hcyc).
    { rewrite Hl. by left. }
    by destruct (Hacyc r i).
  - reflexivity.
Qed.

(** ** The depth guard of the printer *)

Lemma elem_of_concat {A} (x : A) (ls : list (list A)) :
  x ∈ concat ls ↔ ∃ l, l ∈ ls ∧ x ∈ l.
Proof.
  induction ls as [|l ls IH]; simpl.
  { split; [by intros ?%elem_of_nil|]. by intros (l & ?%elem_of_nil & _). }
  rewrite elem_of_app, IH. split.
  - intros [?|(l' & ? & ?)]; [exists l|exists l']; split; try done;
      [by left|by right].
  - intros (l' & [->|?]%elem_of_cons & ?); [by left|]. right. by exists l'.
Qed.

(** The line of the guard is printed when and only when some walk down
    from the node is as long as there are levels left up to 100. *)
Lemma print_node_rec_too_big fuel h r lv lines :
  print_node_rec fuel h (Some r) lv = Some lines →
  ((∃ ind, Line_level_too_big ind ∈ lines)
   ↔ ∃ x, nsteps (child_link h) (Z.to_nat (100 - lv)) r x)
  ∧ ((lv ≤ 100)%Z → ∀ ind, Line_level_too_big ind ∈ lines → ind = 200%Z).
Proof.
  revert r lv lines. induction fuel as [|fuel IH]; intros r lv lines Hp; [done|].
  simpl in Hp. case_bool_decide as Hl.
  { injection Hp as <-. split.
    - split; [|intros _; eexists; by left].
      intros _. exists r. replace (Z.to_nat (100 - lv)) with 0 by lia. constructor.
    - intros Hle ind [= ->]%list_elem_of_singleton. lia. }
  assert (∃ n, Z.to_nat (100 - lv) = S n ∧ Z.to_nat (100 - (lv + 1)) = n)
    as (n & Hn & Hn') by (exists (Z.to_nat (100 - (lv + 1))); lia).
  rewrite Hn.
  assert (∀ ch below,
    mapM (fun child => print_node_rec fuel h (Some child) (lv + 1)) ch = Some below →
    childs_of h r = ch →
    ((∃ ind, Line_level_too_big ind ∈ concat below)
     ↔ ∃ x, nsteps (child_link h) (S n) r x)
    ∧ ∀ ind, Line_level_too_big ind ∈ concat below → ind = 200%Z) as Hch.
  { intros ch below Hb%mapM_Some Hr. split; [split|].
    - intros (ind & (ls & Hls & Hind)%elem_of_concat).
      apply list_elem_of_lookup in Hls as [j Hj].
      destruct (Forall2_lookup_r _ _ _ _ _ Hb Hj) as (c & Hc & Hpc).
      destruct (IH _ _ _ Hpc) as [[Hx _] _]. rewrite Hn' in Hx.
      destruct Hx as [x Hx]; [by exists ind|]. exists x.
      eapply nsteps_l; [|done]. unfold child_link. rewrite Hr.
      by eapply list_elem_of_lookup_2.
    - intros (x & Hx). inversion_clear Hx as [|? ? c ? Hrc Hcx].
      unfold child_link in Hrc. rewrite Hr in Hrc.
      apply list_elem_of_lookup in Hrc as [j Hj].
      destruct (Forall2_lookup_l _ _ _ _ _ Hb Hj) as (ls & Hls & Hpc).
      destruct (IH _ _ _ Hpc) as [[_ Hx'] _]. rewrite Hn' in Hx'.
      destruct Hx' as [ind Hind]; [by exists x|]. exists ind.
      apply elem_of_concat. exists ls. split; [|done].
      by eapply list_elem_of_lookup_2.
    - intros ind (ls & Hls & Hind)%elem_of_concat.
      apply list_elem_of_lookup in Hls as [j Hj].
      destruct (Forall2_lookup_r _ _ _ _ _ Hb Hj) as (c & Hc & Hpc).
      destruct (IH _ _ _ Hpc) as [_ Hx]. apply Hx; [lia|done]. }
  assert (childs_of h r = [] → ¬ ∃ x, nsteps (child_link h) (S n) r x) as Hleaf.
  { intros Hr (x & Hx). inversion Hx as [|? ? c ? Hrc Hcx]; subst.
    unfold child_link in Hrc. rewrite Hr in Hrc. by apply elem_of_nil in Hrc. }
  simpl in Hp. destruct (h !! r) as [[pr [d ch|nm a ch|d]]|] eqn:Hr.
  - destruct (mapM _ ch) as [below|] eqn:Hb; [|done]. injection Hp as <-.
    destruct (Hch ch below Hb) as [Hiff Hind]; [by rewrite (childs_of_lookup _ _ _ Hr)|].
    split.
    + rewrite <- Hiff. split.
      * intros (ind & Hin). exists ind.
        by repeat (apply elem_of_cons in Hin as [?|Hin]; [done|]).
      * intros (ind & Hin). exists ind. by do 2 right.
    + intros _ ind Hin. apply Hind.
      by repeat (apply elem_of_cons in Hin as [?|Hin]; [done|]).
  - destruct (mapM _ ch) as [below|] eqn:Hb; [|done]. injection Hp as <-.
    destruct (Hch ch below Hb) as [Hiff Hind]; [by rewrite (childs_of_lookup _ _ _ Hr)|].
    split.
    + rewrite <- Hiff. split.
      * intros (ind & Hin). exists ind.
        by repeat (apply elem_of_cons in Hin as [?|Hin]; [done|]).
      * intros (ind & Hin). exists ind. by do 2 right.
    + intros _ ind Hin. apply Hind.
      by repeat (apply elem_of_cons in Hin as [?|Hin]; [done|]).
  - injection Hp as <-. split.
    + split; [by intros (ind & ?%list_elem_of_singleton)|].
      intros Hx. destruct Hleaf; [by rewrite (childs_of_lookup _ _ _ Hr)|done].
    + by intros _ ind ?%list_elem_of_singleton.
  - injection Hp as <-. split.
    + split; [by intros (ind & ?%list_elem_of_singleton)|].
      intros Hx. destruct Hleaf; [|done]. unfold childs_of. by rewrite Hr.
    + by intros _ ind ?%list_elem_of_singleton.
Qed.

(** X12: printing from level 0 (or from a given level) puts out the line
    [Error: level too big] when and only when a walk of child links down
    from the node is as long as there are levels left up to 100, whatever
    the store; from a level up to 100 that line is 200 columns in.  A
    document of fewer than 100 levels is printed without it. *)
Theorem print_node_guard_iff_deep h r level :
  ∃ lines, print_node h (Some r) level = Some lines
    ∧ ((∃ ind, Line_level_too_big ind ∈ lines)
       ↔ ∃ x, nsteps (child_link h) (Z.to_nat (100 - default 0%Z level)) r x)
    ∧ ((default 0 level ≤ 100)%Z →
       ∀ ind, Line_level_too_big ind ∈ lines → ind = 200%Z).
Proof.
  destruct (print_node_rec_total (print_fuel (default 0%Z level)) h (Some r)
              (default 0%Z level)) as (lines & Hp & _).
  { unfold print_fuel. lia. }
  exists lines. split; [done|]. by apply (print_node_rec_too_big _ _ _ _ _ Hp).
Qed.
